(** * Iterators for variables (jsvariterator.c)

    A shallow embedding of the iteration layer of the Espruino variable
    heap: the string-chain cursor, the typed-view (array buffer) cursor,
    the unified cursor with its full-array overlay, and the recursive
    callback walker with its two sinks. *)

From Stdlib Require Import ZArith Lia Bool String.
From Stdlib.Strings Require Import Byte.
From Stdlib.Floats Require SpecFloat.
From stdpp Require Import base list.

Local Open Scope Z_scope.
Local Open Scope nat_scope.

(** ** The variable heap, as far as strings are concerned *)

(** A [JsVarRef] is the index of a cell in the pool; 0 is the null
    reference.  Pointers to cells ([JsVar *]) are modelled by the reference
    of the cell they point to, and the reference counts that [jsvLock] and
    [jsvUnLock] maintain are not part of the model. *)
Abbreviation JsVarRef := nat (only parsing).

(** A string cell: its fixed-size character storage [varData.str], the
    number of characters in use, and the reference of the cell that
    continues the string. *)
Record JsVarCell := mkCell {
  varData_str : list byte;
  charactersInVar : nat;
  lastChild : JsVarRef
}.

(** The pool of cells: cell [r] (r > 0) is stored at position [r - 1];
    [jsVarsSize] is the number of cells the pool can hold. *)
Record JsVarHeap := mkHeap {
  jsVars : list JsVarCell;
  jsVarsSize : nat
}.

Definition jsvLock (h : JsVarHeap) (r : JsVarRef) : option JsVarCell :=
  match r with
  | O => None
  | S i => jsVars h !! i
  end.

Definition jsvStore (h : JsVarHeap) (r : JsVarRef) (v : JsVarCell) : JsVarHeap :=
  match r with
  | O => h
  | S i => mkHeap (<[i := v]> (jsVars h)) (jsVarsSize h)
  end.

Definition jsvGetLastChild (h : JsVarHeap) (r : JsVarRef) : JsVarRef :=
  match jsvLock h r with Some v => lastChild v | None => 0 end.

Definition jsvGetCharactersInVar (h : JsVarHeap) (r : JsVarRef) : nat :=
  match jsvLock h r with Some v => charactersInVar v | None => 0 end.

Definition jsvSetLastChild (h : JsVarHeap) (r child : JsVarRef) : JsVarHeap :=
  match jsvLock h r with
  | Some v => jsvStore h r (mkCell (varData_str v) (charactersInVar v) child)
  | None => h
  end.

Definition jsvSetCharactersInVar (h : JsVarHeap) (r : JsVarRef) (n : nat) : JsVarHeap :=
  match jsvLock h r with
  | Some v => jsvStore h r (mkCell (varData_str v) n (lastChild v))
  | None => h
  end.

(** Modelled from the spec: [jsvGetMaxCharactersInVar] is defined outside
    this file; a cell holds up to C characters where C is cell-defined,
    here the size of the cell's character storage. *)
Definition jsvGetMaxCharactersInVar (h : JsVarHeap) (r : JsVarRef) : nat :=
  match jsvLock h r with Some v => length (varData_str v) | None => 0 end.

(** Modelled from the spec: the cell allocator is an external collaborator.
    [jsvNewWithFlags JSV_STRING_EXT_0] hands out an empty extension cell
    with [maxLen] characters of storage ([JSVAR_DATA_STRING_MAX_LEN]), or
    fails (null) when the pool is exhausted. *)
Definition jsvNewWithFlags (maxLen : nat) (h : JsVarHeap) : option (JsVarRef * JsVarHeap) :=
  if length (jsVars h) <? jsVarsSize h
  then Some (S (length (jsVars h)),
             mkHeap (jsVars h ++ [mkCell (replicate maxLen x00) 0 0]) (jsVarsSize h))
  else None.

(** [ptr[idx]] and [ptr[idx] = c], for a pointer to the storage of cell [p]. *)
Definition readChar (h : JsVarHeap) (p : JsVarRef) (idx : nat) : byte :=
  match jsvLock h p with
  | Some v => default x00 (varData_str v !! idx)
  | None => x00
  end.

Definition writeChar (h : JsVarHeap) (p : JsVarRef) (idx : nat) (c : byte) : JsVarHeap :=
  match jsvLock h p with
  | Some v => jsvStore h p (mkCell (<[idx := c]> (varData_str v)) (charactersInVar v) (lastChild v))
  | None => h
  end.

(** [(int)(unsigned char)c] and [(char)i]. *)
Definition uchar (c : byte) : Z := Z.of_N (Byte.to_N c).

Definition char_of_int (i : Z) : byte :=
  default x00 (Byte.of_N (Z.to_N (i mod 256))).

(** ** The string-chain cursor *)

Record JsvStringIterator := mkStringIterator {
  charIdx : nat;     (* index of the character within the current cell *)
  charsInVar : nat;  (* characters in the current cell *)
  varIndex : nat;    (* index in the string of the start of the current cell *)
  var : JsVarRef;    (* current cell, 0 at the end of the string *)
  ptr : JsVarRef     (* cell whose storage [ptr] points into, 0 when null *)
}.

Definition set_charIdx (n : nat) (it : JsvStringIterator) :=
  mkStringIterator n (charsInVar it) (varIndex it) (var it) (ptr it).

(** The body of the [while] of [jsvStringIteratorNew]; [fuel] bounds the
    number of iterations. *)
Fixpoint jsvStringIteratorNew_loop (fuel : nat) (h : JsVarHeap) (startIdx : nat)
    (it : JsvStringIterator) : option JsvStringIterator :=
  if (0 <? charIdx it) && (charsInVar it <=? charIdx it) then
    match fuel with
    | O => None
    | S fuel' =>
      let charIdx' := charIdx it - charsInVar it in
      let varIndex' := varIndex it + charsInVar it in
      if Nat.eqb (var it) 0 then
        jsvStringIteratorNew_loop fuel' h startIdx
          (mkStringIterator charIdx' (charsInVar it) varIndex' (var it) (ptr it))
      else if Nat.eqb (jsvGetLastChild h (var it)) 0 then
        Some (mkStringIterator charIdx' 0 (startIdx - charIdx') 0 0)
      else
        let next := jsvGetLastChild h (var it) in
        jsvStringIteratorNew_loop fuel' h startIdx
          (mkStringIterator charIdx' (jsvGetCharactersInVar h next) varIndex' next next)
    end
  else Some it.

Definition jsvStringIteratorNew (fuel : nat) (h : JsVarHeap) (str : JsVarRef)
    (startIdx : nat) : option JsvStringIterator :=
  jsvStringIteratorNew_loop fuel h startIdx
    (mkStringIterator startIdx (jsvGetCharactersInVar h str) 0 str str).

Definition jsvStringIteratorClone (it : JsvStringIterator) : JsvStringIterator := it.

(** Modelled from the spec: [jsvStringIteratorHasChar] is an inline function
    of the header: true iff the cell pointer is non-null and
    [charIdx < charsInVar]. *)
Definition jsvStringIteratorHasChar (it : JsvStringIterator) : bool :=
  negb (Nat.eqb (ptr it) 0) && (charIdx it <? charsInVar it).

(** Modelled from the spec: [jsvStringIteratorGetChar] is an inline function
    of the header: read the byte at the current position (0 when there is
    no storage to read). *)
Definition jsvStringIteratorGetChar (h : JsVarHeap) (it : JsvStringIterator) : byte :=
  if Nat.eqb (ptr it) 0 then x00 else readChar h (ptr it) (charIdx it).

Definition jsvStringIteratorGetCharOrMinusOne (h : JsVarHeap) (it : JsvStringIterator) : Z :=
  if Nat.eqb (ptr it) 0 || (charsInVar it <=? charIdx it) then (-1)%Z
  else uchar (readChar h (ptr it) (charIdx it)).

(** Modelled from the spec: [jsvStringIteratorGetIndex] is an inline function
    of the header: the absolute byte position [varIndex + charIdx] (I3). *)
Definition jsvStringIteratorGetIndex (it : JsvStringIterator) : nat :=
  varIndex it + charIdx it.

(** Modelled from the spec: [jsvStringIteratorNextInline] is an inline
    function of the header: increment [charIdx]; if it reaches [charsInVar],
    advance to the last-child, re-cache [ptr] and [charsInVar] and set
    [charIdx := 0]; if there is no last-child, enter the logical-end state.
    [varIndex] moves on by the length of the cell left behind (I3). *)
Definition jsvStringIteratorNextInline (h : JsVarHeap) (it : JsvStringIterator)
    : JsvStringIterator :=
  let charIdx' := S (charIdx it) in
  if charsInVar it <=? charIdx' then
    let varIndex' := varIndex it + charsInVar it in
    if negb (Nat.eqb (var it) 0) && negb (Nat.eqb (jsvGetLastChild h (var it)) 0) then
      let next := jsvGetLastChild h (var it) in
      mkStringIterator 0 (jsvGetCharactersInVar h next) varIndex' next next
    else
      mkStringIterator 0 0 varIndex' 0 0
  else set_charIdx charIdx' it.

Definition jsvStringIteratorNext := jsvStringIteratorNextInline.

Definition jsvStringIteratorSetChar (h : JsVarHeap) (it : JsvStringIterator) (c : byte)
    : JsVarHeap :=
  if jsvStringIteratorHasChar it then writeChar h (ptr it) (charIdx it) c else h.

Definition jsvStringIteratorSetCharAndNext (h : JsVarHeap) (it : JsvStringIterator) (c : byte)
    : JsVarHeap * JsvStringIterator :=
  let h' := if jsvStringIteratorHasChar it then writeChar h (ptr it) (charIdx it) c else h in
  (h', jsvStringIteratorNextInline h' it).

(** The [while] of [jsvStringIteratorGotoEnd]. *)
Fixpoint jsvStringIteratorGotoEnd_loop (fuel : nat) (h : JsVarHeap)
    (it : JsvStringIterator) : option JsvStringIterator :=
  if Nat.eqb (jsvGetLastChild h (var it)) 0 then Some it
  else
    match fuel with
    | O => None
    | S fuel' =>
      let next := jsvGetLastChild h (var it) in
      jsvStringIteratorGotoEnd_loop fuel' h
        (mkStringIterator (charIdx it) (jsvGetCharactersInVar h next)
           (varIndex it + charsInVar it) next (ptr it))
    end.

Definition jsvStringIteratorGotoEnd (fuel : nat) (h : JsVarHeap)
    (it : JsvStringIterator) : option JsvStringIterator :=
  match jsvStringIteratorGotoEnd_loop fuel h it with
  | Some it =>
    Some (mkStringIterator
            (if Nat.eqb (charsInVar it) 0 then 0 else charsInVar it - 1)
            (charsInVar it) (varIndex it) (var it) (var it))
  | None => None
  end.

(** [jsvStringIteratorAppend]; the assertions on the cursor being at the
    end of the tail cell are preconditions and are not executed. *)
Definition jsvStringIteratorAppend (maxLen : nat) (h : JsVarHeap)
    (it : JsvStringIterator) (ch : byte) : JsVarHeap * JsvStringIterator :=
  if Nat.eqb (var it) 0 then (h, it)
  else
    let it := if 0 <? charsInVar it then set_charIdx (S (charIdx it)) it else it in
    let extended :=
      if jsvGetMaxCharactersInVar h (var it) <=? charIdx it then
        match jsvNewWithFlags maxLen h with
        | None => None (* out of memory *)
        | Some (next, h) =>
          let h := jsvSetLastChild h (var it) next in
          Some (h, mkStringIterator 0 (charsInVar it) (varIndex it + charIdx it) next next)
        end
      else Some (h, it) in
    match extended with
    | None => (h, mkStringIterator 0 (charsInVar it) (varIndex it) 0 0)
    | Some (h, it) =>
      let h := writeChar h (ptr it) (charIdx it) ch in
      let h := jsvSetCharactersInVar h (var it) (S (charIdx it)) in
      (h, mkStringIterator (charIdx it) (S (charIdx it)) (varIndex it) (var it) (ptr it))
    end.

(** The [while] of [jsvStringIteratorAppendString]: every character of the
    source cursor [sit] is appended through [it]. *)
Fixpoint jsvStringIteratorAppendString_loop (fuel maxLen : nat) (h : JsVarHeap)
    (it sit : JsvStringIterator) : option (JsVarHeap * JsvStringIterator) :=
  if jsvStringIteratorHasChar sit then
    match fuel with
    | O => None
    | S fuel' =>
      let '(h', it') := jsvStringIteratorAppend maxLen h it (jsvStringIteratorGetChar h sit) in
      jsvStringIteratorAppendString_loop fuel' maxLen h' it' (jsvStringIteratorNext h' sit)
    end
  else Some (h, it).

Definition jsvStringIteratorAppendString (fuel maxLen : nat) (h : JsVarHeap)
    (it : JsvStringIterator) (str : JsVarRef) (startIdx : nat)
    : option (JsVarHeap * JsvStringIterator) :=
  match jsvStringIteratorNew fuel h str startIdx with
  | Some sit => jsvStringIteratorAppendString_loop fuel maxLen h it sit
  | None => None
  end.

(** Reading through a cursor until has-char is false: the bytes seen, as
    [jsvStringIteratorGetCharOrMinusOne] returns them. *)
Fixpoint jsvStringIteratorReadAll (fuel : nat) (h : JsVarHeap) (it : JsvStringIterator)
    : option (list Z) :=
  if jsvStringIteratorHasChar it then
    match fuel with
    | O => None
    | S fuel' =>
      match jsvStringIteratorReadAll fuel' h (jsvStringIteratorNext h it) with
      | Some l => Some (jsvStringIteratorGetCharOrMinusOne h it :: l)
      | None => None
      end
    end
  else Some [].

(** Appending a list of bytes, one [jsvStringIteratorAppend] each. *)
Fixpoint jsvStringIteratorAppendAll (maxLen : nat) (h : JsVarHeap)
    (it : JsvStringIterator) (chs : list byte) : JsVarHeap * JsvStringIterator :=
  match chs with
  | [] => (h, it)
  | ch :: chs' =>
    let '(h', it') := jsvStringIteratorAppend maxLen h it ch in
    jsvStringIteratorAppendAll maxLen h' it' chs'
  end.

(** ** String chains *)

(** [is_chain h r l]: following last-child references from cell [r] visits
    exactly the cells [l] (each with its reference) and then stops. *)
Fixpoint is_chain (h : JsVarHeap) (r : JsVarRef) (l : list (JsVarRef * JsVarCell)) : Prop :=
  match l with
  | [] => False
  | rv :: l' =>
    rv.1 = r /\ jsvLock h r = Some rv.2 /\
    match l' with
    | [] => lastChild rv.2 = 0
    | _ :: _ => lastChild rv.2 <> 0 /\ is_chain h (lastChild rv.2) l'
    end
  end.

(** The used prefix of a cell, and the logical byte sequence of a chain. *)
Definition cell_chars (v : JsVarCell) : list byte :=
  take (charactersInVar v) (varData_str v).

Fixpoint chain_chars (l : list (JsVarRef * JsVarCell)) : list byte :=
  match l with
  | [] => []
  | rv :: l' => cell_chars rv.2 ++ chain_chars l'
  end.

(** The used length of every cell fits its storage, and only a chain that
    is a lone root cell may have an empty cell: extension cells are created
    by an append, which stores a character in them at once. *)
Definition chain_inv (l : list (JsVarRef * JsVarCell)) : Prop :=
  Forall (fun rv => charactersInVar rv.2 <= length (varData_str rv.2)) l /\
  (1 < length l -> Forall (fun rv => 0 < charactersInVar rv.2) l).

(** [jsvGetStringLength]: the logical length is the sum of the used lengths (I2). *)
Definition chain_length (l : list (JsVarRef * JsVarCell)) : nat :=
  foldr (fun rv n => charactersInVar rv.2 + n) 0 l.

(** [cursor_on h l it]: the cursor sits on the first cell of the chain [l],
    with [ptr] and [charsInVar] caching that cell's storage and used length. *)
Definition cursor_on (h : JsVarHeap) (l : list (JsVarRef * JsVarCell))
    (it : JsvStringIterator) : Prop :=
  is_chain h (var it) l /\ ptr it = var it /\
  match l with
  | rv :: _ => charsInVar it = charactersInVar rv.2
  | [] => False
  end.

(** The logical-end state of a cursor. *)
Definition at_logical_end (it : JsvStringIterator) : Prop :=
  var it = 0 /\ ptr it = 0.

(** [cursor_at_tail h l it]: the cursor sits on the last character of the
    tail cell of the chain [l] (on position 0 of an empty tail cell), where
    [jsvStringIteratorGotoEnd] leaves it and appends keep it. *)
Definition cursor_at_tail (l : list (JsVarRef * JsVarCell)) (it : JsvStringIterator) : Prop :=
  exists l0 rv,
    l = l0 ++ [rv] /\ var it = rv.1 /\ ptr it = rv.1 /\
    charsInVar it = charactersInVar rv.2 /\
    charIdx it = charactersInVar rv.2 - 1 /\
    varIndex it = length (chain_chars l0).

(** The tail cell of a chain has no room left. *)
Definition tail_full (l : list (JsVarRef * JsVarCell)) : bool :=
  match last l with
  | Some rv => length (varData_str rv.2) <=? charactersInVar rv.2
  | None => false
  end.

(** Writes made through a cursor: an append or a set-char. *)
Inductive StringWrite :=
| WriteAppend (ch : byte)
| WriteSetChar (c : byte).

Fixpoint jsvStringIteratorWrites (maxLen : nat) (h : JsVarHeap) (it : JsvStringIterator)
    (ws : list StringWrite) : JsVarHeap * JsvStringIterator :=
  match ws with
  | [] => (h, it)
  | WriteAppend ch :: ws' =>
    let '(h', it') := jsvStringIteratorAppend maxLen h it ch in
    jsvStringIteratorWrites maxLen h' it' ws'
  | WriteSetChar c :: ws' =>
    jsvStringIteratorWrites maxLen (jsvStringIteratorSetChar h it c) it ws'
  end.

(** Every cell of the chain has some storage. *)
Definition chain_capacity (l : list (JsVarRef * JsVarCell)) : Prop :=
  Forall (fun rv => 0 < length (varData_str rv.2)) l.

(** The state appends work in: a well-formed chain [l] rooted at [str] and
    a cursor at its tail. *)
Definition tail_state (h : JsVarHeap) (str : JsVarRef) (l : list (JsVarRef * JsVarCell))
    (it : JsvStringIterator) : Prop :=
  is_chain h str l /\ chain_inv l /\ chain_capacity l /\ cursor_at_tail l it.

(** ** Machine integers and floating-point numbers *)

(** [size_t] arithmetic wraps modulo 2^32 (the 32-bit targets); [JsVarInt]
    and [int] are 32-bit two's complement. *)
Definition size_t (z : Z) : Z := (z mod 2 ^ 32)%Z.

Definition to_int32 (z : Z) : Z := ((z + 2 ^ 31) mod 2 ^ 32 - 2 ^ 31)%Z.

(** [JsVarFloat] is an IEEE 754 binary64 number. *)
Abbreviation JsVarFloat := SpecFloat.spec_float (only parsing).

Definition NAN : JsVarFloat := SpecFloat.S754_nan.

(** [(JsVarFloat)i]. *)
Definition float_of_int (i : Z) : JsVarFloat :=
  SpecFloat.binary_normalize 53 1024 i 0 false.

(** [(JsVarInt)f]: truncation towards zero, 0 for what has no integer part. *)
Definition int_of_float (f : JsVarFloat) : Z :=
  match f with
  | SpecFloat.S754_finite s m e =>
    let a := (if 0 <=? e then Z.pos m * 2 ^ e else Z.pos m / 2 ^ (- e))%Z in
    to_int32 (if s then - a else a)
  | _ => 0%Z
  end.

(** The little-endian value of a run of bytes, and the bytes of a value. *)
Fixpoint int_of_bytes (l : list byte) : Z :=
  match l with
  | [] => 0%Z
  | c :: l' => (uchar c + 256 * int_of_bytes l')%Z
  end.

Fixpoint bytes_of_int (n : nat) (v : Z) : list byte :=
  match n with
  | O => []
  | S n' => char_of_int v :: bytes_of_int n' (v / 256)
  end.

(** The IEEE 754 interchange encoding with [ebits] exponent bits and
    [mbits] fraction bits, read into binary64. *)
Definition float_of_bits (ebits mbits : Z) (bits : Z) : JsVarFloat :=
  let s := Z.testbit bits (ebits + mbits) in
  let e := ((bits / 2 ^ mbits) mod 2 ^ ebits)%Z in
  let m := (bits mod 2 ^ mbits)%Z in
  let bias := (2 ^ (ebits - 1) - 1)%Z in
  if (e =? 2 ^ ebits - 1)%Z then
    if (m =? 0)%Z then SpecFloat.S754_infinity s else SpecFloat.S754_nan
  else if (e =? 0)%Z then
    SpecFloat.binary_normalize 53 1024 (if s then - m else m) (1 - bias - mbits) s
  else
    SpecFloat.binary_normalize 53 1024
      (if s then - (m + 2 ^ mbits) else m + 2 ^ mbits) (e - bias - mbits) s.

Definition bits_of_float (ebits mbits : Z) (f : JsVarFloat) : Z :=
  let bias := (2 ^ (ebits - 1) - 1)%Z in
  let sign (s : bool) := (if s then 2 ^ (ebits + mbits) else 0)%Z in
  let infinity := ((2 ^ ebits - 1) * 2 ^ mbits)%Z in
  let rounded :=
    match f with
    | SpecFloat.S754_finite s m e =>
      SpecFloat.binary_normalize (mbits + 1) (2 ^ (ebits - 1))
        (if s then Z.neg m else Z.pos m) e s
    | _ => f
    end in
  match rounded with
  | SpecFloat.S754_zero s => sign s
  | SpecFloat.S754_infinity s => (sign s + infinity)%Z
  | SpecFloat.S754_nan => (infinity + 2 ^ (mbits - 1))%Z
  | SpecFloat.S754_finite s m e =>
    if (Z.pos m <? 2 ^ mbits)%Z then (sign s + Z.pos m)%Z
    else (sign s + (e + bias + mbits) * 2 ^ mbits + (Z.pos m - 2 ^ mbits))%Z
  end.

(** ** Values *)

Inductive JsExceptionType :=
| JSET_STRING | JSET_ERROR | JSET_SYNTAXERROR | JSET_TYPEERROR
| JSET_INTERNALERROR | JSET_REFERENCEERROR.

(** What the interpreter carries around: the pool of string cells and the
    pending exception. *)
Record JsState := mkState {
  jsHeap : JsVarHeap;
  jsException : option JsExceptionType
}.

Inductive JsKey :=
| KeyInt (i : Z)
| KeyString (s : string).

(** The values the iteration layer dispatches on.  [JsUndefined] is the
    null [JsVar *].  A string is its root cell in the pool; a typed view
    holds its type tag, logical length and byte offset and references its
    backing string; containers hold the list of their named children, in
    sibling order; a function carries what executing it does.  A child is a
    name cell referencing its value, or a [JSV_NAME_INT_INT] cell with an
    integer key and a small integer value packed in its first-child field. *)
#[local] Unset Elimination Schemes.
Inductive JsVar :=
| JsUndefined
| JsNull
| JsInt (i : Z)
| JsFloat (f : JsVarFloat)
| JsString (str : JsVarRef)
| JsArrayBuffer (type length byteOffset : Z) (backing : JsVarRef)
| JsObject (children : list JsVarName)
| JsArray (length : Z) (children : list JsVarName)
| JsFunction (code : JsState -> JsVar * JsState) (children : list JsVarName)
with JsVarName :=
| JsName (key : JsKey) (value : JsVar)
| JsNameInt (key : Z) (value : Z).
#[local] Set Elimination Schemes.

(** [v == NULL]. *)
Definition is_null (v : JsVar) : bool :=
  match v with JsUndefined => true | _ => false end.

Definition jsvIsNumeric (v : JsVar) : bool :=
  match v with JsInt _ | JsFloat _ => true | _ => false end.
Definition jsvIsString (v : JsVar) : bool :=
  match v with JsString _ => true | _ => false end.
Definition jsvIsArrayBuffer (v : JsVar) : bool :=
  match v with JsArrayBuffer _ _ _ _ => true | _ => false end.
Definition jsvIsObject (v : JsVar) : bool :=
  match v with JsObject _ => true | _ => false end.
Definition jsvIsArray (v : JsVar) : bool :=
  match v with JsArray _ _ => true | _ => false end.
Definition jsvIsFunction (v : JsVar) : bool :=
  match v with JsFunction _ _ => true | _ => false end.
Definition jsvIsIterable (v : JsVar) : bool :=
  jsvIsArray v || jsvIsObject v || jsvIsFunction v || jsvIsString v || jsvIsArrayBuffer v.

(** Modelled from the spec: the numeric coercions are an external
    collaborator; [jsvGetInteger] is the integer part of a numeric value and
    [jsvGetFloat] its floating-point value. *)
Definition jsvGetInteger (v : JsVar) : Z :=
  match v with
  | JsInt i => i
  | JsFloat f => int_of_float f
  | _ => 0%Z
  end.

Definition jsvGetFloat (v : JsVar) : JsVarFloat :=
  match v with
  | JsInt i => float_of_int i
  | JsFloat f => f
  | _ => NAN
  end.

(** Modelled from the spec: the allocator of numeric values.
    [jsvNewFromLongInteger] makes an integer when the value fits [JsVarInt]
    and a float otherwise. *)
Definition jsvNewFromInteger (i : Z) : JsVar := JsInt i.
Definition jsvNewFromFloat (f : JsVarFloat) : JsVar := JsFloat f.
Definition jsvNewFromLongInteger (i : Z) : JsVar :=
  if ((- 2 ^ 31 <=? i) && (i <=? 2 ^ 31 - 1))%Z then JsInt i else JsFloat (float_of_int i).

(** ** The typed-view cursor *)

(** Modelled from the spec: the type tag encodes the element width in its
    low four bits and signedness, float-ness, clamped-ness and endianness in
    flag bits; the enumeration itself is declared outside this file. *)
Definition ARRAYBUFFERVIEW_UNDEFINED : Z := 0.
Definition ARRAYBUFFERVIEW_MASK_SIZE : Z := 15.
Definition ARRAYBUFFERVIEW_SIGNED : Z := 16.
Definition ARRAYBUFFERVIEW_FLOAT : Z := 32.
Definition ARRAYBUFFERVIEW_CLAMPED : Z := 64.
Definition ARRAYBUFFERVIEW_BIG_ENDIAN : Z := 128.
Definition ARRAYBUFFERVIEW_UINT32 : Z := 4.

Definition JSV_ARRAYBUFFER_GET_SIZE (T : Z) : Z := Z.land T ARRAYBUFFERVIEW_MASK_SIZE.
Definition JSV_ARRAYBUFFER_IS_SIGNED (T : Z) : bool :=
  negb (Z.land T ARRAYBUFFERVIEW_SIGNED =? 0)%Z.
Definition JSV_ARRAYBUFFER_IS_FLOAT (T : Z) : bool :=
  negb (Z.land T ARRAYBUFFERVIEW_FLOAT =? 0)%Z.
Definition JSV_ARRAYBUFFER_IS_CLAMPED (T : Z) : bool :=
  negb (Z.land T ARRAYBUFFERVIEW_CLAMPED =? 0)%Z.
Definition JSV_ARRAYBUFFER_IS_BIG_ENDIAN (T : Z) : bool :=
  negb (Z.land T ARRAYBUFFERVIEW_BIG_ENDIAN =? 0)%Z.

Record JsvArrayBufferIterator := mkArrayBufferIterator {
  strIt : JsvStringIterator;  (* the field [it] *)
  type : Z;
  byteLength : Z;
  byteOffset : Z;
  index : Z;
  hasAccessedElement : bool
}.

(** [jsvArrayBufferIteratorNew] fills in the iterator [it] it is handed;
    the fields it does not assign keep what they held. *)
Definition jsvArrayBufferIteratorNew (fuel : nat) (h : JsVarHeap)
    (it : JsvArrayBufferIterator) (arrayBuffer : JsVar) (index : Z)
    : option JsvArrayBufferIterator :=
  match arrayBuffer with
  | JsArrayBuffer type length byteOffset arrayBufferData =>
    let byteLength := size_t (length * JSV_ARRAYBUFFER_GET_SIZE type) in
    let byteLength := size_t (byteLength + byteOffset) in
    let byteOffset := size_t (byteOffset + index * JSV_ARRAYBUFFER_GET_SIZE type) in
    if (size_t (byteLength + 1 - JSV_ARRAYBUFFER_GET_SIZE type) <=? byteOffset)%Z then
      Some (mkArrayBufferIterator (strIt it) ARRAYBUFFERVIEW_UNDEFINED
              byteLength byteOffset index (hasAccessedElement it))
    else
      match jsvStringIteratorNew fuel h arrayBufferData (Z.to_nat byteOffset) with
      | Some sit => Some (mkArrayBufferIterator sit type byteLength byteOffset index false)
      | None => None
      end
  | _ => None
  end.

Definition jsvArrayBufferIteratorClone (it : JsvArrayBufferIterator) := it.

(** The order in which the bytes of an element are visited. *)
Definition element_order (bigEndian : bool) (dataLen : nat) : list nat :=
  if bigEndian then rev (seq 0 dataLen) else seq 0 dataLen.

Definition jsvArrayBufferIteratorGetValueData (h : JsVarHeap)
    (it : JsvArrayBufferIterator) (data : list byte)
    : JsvArrayBufferIterator * list byte :=
  if (type it =? ARRAYBUFFERVIEW_UNDEFINED)%Z then (it, data)
  else
    let dataLen := Z.to_nat (JSV_ARRAYBUFFER_GET_SIZE (type it)) in
    let '(sit, data) :=
      foldl (fun '(sit, data) i =>
               (if dataLen =? 1 then sit else jsvStringIteratorNext h sit,
                <[i := jsvStringIteratorGetChar h sit]> data))
            (strIt it, data)
            (element_order (JSV_ARRAYBUFFER_IS_BIG_ENDIAN (type it)) dataLen) in
    (mkArrayBufferIterator sit (type it) (byteLength it) (byteOffset it) (index it)
       (if dataLen =? 1 then hasAccessedElement it else true),
     data).

Definition jsvArrayBufferIteratorDataToInt (it : JsvArrayBufferIterator)
    (data : list byte) : Z :=
  let dataLen := JSV_ARRAYBUFFER_GET_SIZE (type it) in
  let bits := (8 * dataLen)%Z in
  let mask := to_int32 ((Z.shiftl 1 bits - 1) mod 2 ^ 64) in
  let v := to_int32 (int_of_bytes (take 4 data)) in
  let v := Z.land v mask in
  if JSV_ARRAYBUFFER_IS_SIGNED (type it)
     && negb (Z.land v (to_int32 (Z.shiftl 1 (bits - 1))) =? 0)%Z
  then Z.lor v (Z.lnot mask)
  else v.

Definition jsvArrayBufferIteratorDataToFloat (it : JsvArrayBufferIterator)
    (data : list byte) : JsVarFloat :=
  let dataLen := JSV_ARRAYBUFFER_GET_SIZE (type it) in
  if (dataLen =? 4)%Z then float_of_bits 8 23 (int_of_bytes (take 4 data))
  else if (dataLen =? 8)%Z then float_of_bits 11 52 (int_of_bytes (take 8 data))
  else float_of_int 0.

Definition jsvArrayBufferIteratorGetValue (h : JsVarHeap)
    (it : JsvArrayBufferIterator) (data : list byte) : JsVar * JsvArrayBufferIterator :=
  if (type it =? ARRAYBUFFERVIEW_UNDEFINED)%Z then (JsUndefined, it)
  else
    let '(it, data) := jsvArrayBufferIteratorGetValueData h it data in
    if JSV_ARRAYBUFFER_IS_FLOAT (type it) then
      (jsvNewFromFloat (jsvArrayBufferIteratorDataToFloat it data), it)
    else
      let i := jsvArrayBufferIteratorDataToInt it data in
      if (Z.land (type it) (Z.lnot ARRAYBUFFERVIEW_BIG_ENDIAN) =? ARRAYBUFFERVIEW_UINT32)%Z
      then (jsvNewFromLongInteger (i mod 2 ^ 32), it)
      else (jsvNewFromInteger i, it).

Definition jsvArrayBufferIteratorGetValueAndRewind (h : JsVarHeap)
    (it : JsvArrayBufferIterator) (data : list byte) : JsVar * JsvArrayBufferIterator :=
  let oldIt := jsvStringIteratorClone (strIt it) in
  let '(v, it) := jsvArrayBufferIteratorGetValue h it data in
  (v, mkArrayBufferIterator oldIt (type it) (byteLength it) (byteOffset it) (index it) false).

Definition jsvArrayBufferIteratorGetIntegerValue (h : JsVarHeap)
    (it : JsvArrayBufferIterator) (data : list byte) : Z * JsvArrayBufferIterator :=
  if (type it =? ARRAYBUFFERVIEW_UNDEFINED)%Z then (0%Z, it)
  else
    let '(it, data) := jsvArrayBufferIteratorGetValueData h it data in
    if JSV_ARRAYBUFFER_IS_FLOAT (type it) then
      (int_of_float (jsvArrayBufferIteratorDataToFloat it data), it)
    else (jsvArrayBufferIteratorDataToInt it data, it).

Definition jsvArrayBufferIteratorGetFloatValue (h : JsVarHeap)
    (it : JsvArrayBufferIterator) (data : list byte) : JsVarFloat * JsvArrayBufferIterator :=
  if (type it =? ARRAYBUFFERVIEW_UNDEFINED)%Z then (float_of_int 0, it)
  else
    let '(it, data) := jsvArrayBufferIteratorGetValueData h it data in
    if JSV_ARRAYBUFFER_IS_FLOAT (type it) then
      (jsvArrayBufferIteratorDataToFloat it data, it)
    else (float_of_int (jsvArrayBufferIteratorDataToInt it data), it).

Definition jsvArrayBufferIteratorIntToData (data : list byte) (dataLen : Z) (type : Z)
    (v : Z) : list byte :=
  let v :=
    if JSV_ARRAYBUFFER_IS_CLAMPED type then
      let v := if (v <? 0)%Z then 0%Z else v in
      if (255 <? v)%Z then 255%Z else v
    else v in
  if (dataLen =? 8)%Z then bytes_of_int 8 v ++ drop 8 data
  else bytes_of_int 4 v ++ drop 4 data.

Definition jsvArrayBufferIteratorFloatToData (data : list byte) (dataLen : Z) (type : Z)
    (v : JsVarFloat) : list byte :=
  if (dataLen =? 4)%Z then bytes_of_int 4 (bits_of_float 8 23 v) ++ drop 4 data
  else if (dataLen =? 8)%Z then bytes_of_int 8 (bits_of_float 11 52 v) ++ drop 8 data
  else data.

(** The loops that write the bytes of an element through the inner cursor. *)
Definition setValue_loop (h : JsVarHeap) (sit : JsvStringIterator) (data : list byte)
    (dataLen : nat) (order : list nat) : JsVarHeap * JsvStringIterator :=
  foldl (fun '(h, sit) i =>
           let h := jsvStringIteratorSetChar h sit (default x00 (data !! i)) in
           (h, if dataLen =? 1 then sit else jsvStringIteratorNext h sit))
        (h, sit) order.

Definition jsvArrayBufferIteratorSetIntegerValue (h : JsVarHeap)
    (it : JsvArrayBufferIterator) (v : Z) (data : list byte)
    : JsVarHeap * JsvArrayBufferIterator :=
  if (type it =? ARRAYBUFFERVIEW_UNDEFINED)%Z then (h, it)
  else
    let dataLen := JSV_ARRAYBUFFER_GET_SIZE (type it) in
    let data :=
      if JSV_ARRAYBUFFER_IS_FLOAT (type it)
      then jsvArrayBufferIteratorFloatToData data dataLen (type it) (float_of_int v)
      else jsvArrayBufferIteratorIntToData data dataLen (type it) v in
    let '(h, sit) :=
      setValue_loop h (strIt it) data (Z.to_nat dataLen) (seq 0 (Z.to_nat dataLen)) in
    (h, mkArrayBufferIterator sit (type it) (byteLength it) (byteOffset it) (index it)
          (if (dataLen =? 1)%Z then hasAccessedElement it else true)).

Definition jsvArrayBufferIteratorSetValue (h : JsVarHeap)
    (it : JsvArrayBufferIterator) (value : JsVar) (data : list byte)
    : JsVarHeap * JsvArrayBufferIterator :=
  if (type it =? ARRAYBUFFERVIEW_UNDEFINED)%Z then (h, it)
  else
    let dataLen := JSV_ARRAYBUFFER_GET_SIZE (type it) in
    let data :=
      if JSV_ARRAYBUFFER_IS_FLOAT (type it)
      then jsvArrayBufferIteratorFloatToData data dataLen (type it) (jsvGetFloat value)
      else jsvArrayBufferIteratorIntToData data dataLen (type it) (jsvGetInteger value) in
    let '(h, sit) :=
      setValue_loop h (strIt it) data (Z.to_nat dataLen)
        (element_order (JSV_ARRAYBUFFER_IS_BIG_ENDIAN (type it)) (Z.to_nat dataLen)) in
    (h, mkArrayBufferIterator sit (type it) (byteLength it) (byteOffset it) (index it)
          (if (dataLen =? 1)%Z then hasAccessedElement it else true)).

Definition jsvArrayBufferIteratorSetByteValue (h : JsVarHeap)
    (it : JsvArrayBufferIterator) (c : byte) : JsVarHeap :=
  if negb (JSV_ARRAYBUFFER_GET_SIZE (type it) =? 1)%Z then h
  else jsvStringIteratorSetChar h (strIt it) c.

Definition jsvArrayBufferIteratorSetValueAndRewind (h : JsVarHeap)
    (it : JsvArrayBufferIterator) (value : JsVar) (data : list byte)
    : JsVarHeap * JsvArrayBufferIterator :=
  let oldIt := jsvStringIteratorClone (strIt it) in
  let '(h, it) := jsvArrayBufferIteratorSetValue h it value data in
  (h, mkArrayBufferIterator oldIt (type it) (byteLength it) (byteOffset it) (index it) false).

Definition jsvArrayBufferIteratorGetIndex (it : JsvArrayBufferIterator) : JsVar :=
  jsvNewFromInteger (to_int32 (index it)).

Definition jsvArrayBufferIteratorHasElement (it : JsvArrayBufferIterator) : bool :=
  if (type it =? ARRAYBUFFERVIEW_UNDEFINED)%Z then false
  else if hasAccessedElement it then true
  else (size_t (byteOffset it + JSV_ARRAYBUFFER_GET_SIZE (type it)) <=? byteLength it)%Z.

Definition jsvArrayBufferIteratorNext (h : JsVarHeap) (it : JsvArrayBufferIterator)
    : JsvArrayBufferIterator :=
  let index := size_t (index it + 1) in
  let byteOffset := size_t (byteOffset it + JSV_ARRAYBUFFER_GET_SIZE (type it)) in
  if negb (hasAccessedElement it) then
    let dataLen := Z.to_nat (JSV_ARRAYBUFFER_GET_SIZE (type it)) in
    mkArrayBufferIterator (Nat.iter dataLen (jsvStringIteratorNext h) (strIt it))
      (type it) (byteLength it) byteOffset index (hasAccessedElement it)
  else
    mkArrayBufferIterator (strIt it) (type it) (byteLength it) byteOffset index false.

(** [jsvArrayBufferIteratorFree] releases the lock the inner cursor holds;
    locks are not modelled and the iterator is left as it is. *)
Definition jsvArrayBufferIteratorFree (it : JsvArrayBufferIterator) := it.

(** ** The object-children cursor *)

(** The cursor holds the current child; its next-sibling links are the rest
    of the list, and the empty list is the null child. *)
Definition JsvObjectIterator := list JsVarName.

Definition jsvGetFirstChild (obj : JsVar) : list JsVarName :=
  match obj with
  | JsObject children | JsArray _ children | JsFunction _ children => children
  | _ => []
  end.

Definition jsvObjectIteratorNew (obj : JsVar) : JsvObjectIterator :=
  jsvGetFirstChild obj.

Definition jsvObjectIteratorClone (it : JsvObjectIterator) : JsvObjectIterator := it.

Definition jsvObjectIteratorNext (it : JsvObjectIterator) : JsvObjectIterator :=
  match it with
  | [] => []
  | _ :: next => next
  end.

(** Modelled from the spec: [jsvObjectIteratorHasValue] and
    [jsvObjectIteratorGetValue] are inline functions of the header; they
    operate on the current child, the value of a name being what it
    references, or its packed integer. *)
Definition jsvObjectIteratorHasValue (it : JsvObjectIterator) : bool :=
  match it with [] => false | _ :: _ => true end.

Definition jsvSkipName (name : option JsVarName) : JsVar :=
  match name with
  | Some (JsName _ value) => value
  | Some (JsNameInt _ value) => jsvNewFromInteger value
  | None => JsUndefined
  end.

Definition jsvObjectIteratorGetValue (it : JsvObjectIterator) : JsVar :=
  jsvSkipName (head it).

(** Modelled from the spec: the kind predicates and accessors on names
    belong to the value collaborator.  A name is integerish when its key is
    an integer, [jsvGetInteger] of such a name is its key, and
    [jsvGetFirstChildSigned] of a name-int is the integer packed in it. *)
Definition jsvIsIntegerish_name (name : option JsVarName) : bool :=
  match name with
  | Some (JsName (KeyInt _) _) | Some (JsNameInt _ _) => true
  | _ => false
  end.

Definition jsvIsNameInt (name : option JsVarName) : bool :=
  match name with Some (JsNameInt _ _) => true | _ => false end.

Definition jsvGetInteger_name (name : option JsVarName) : Z :=
  match name with
  | Some (JsName (KeyInt i) _) | Some (JsNameInt i _) => i
  | _ => 0%Z
  end.

Definition jsvGetFirstChildSigned (name : option JsVarName) : Z :=
  match name with Some (JsNameInt _ value) => value | _ => 0%Z end.

Definition jsvGetArrayLength (v : JsVar) : Z :=
  match v with JsArray length _ => length | _ => 0%Z end.

Definition jsvGetArrayBufferLength (v : JsVar) : Z :=
  match v with JsArrayBuffer _ length _ _ => length | _ => 0%Z end.

(** Modelled from the spec: [jsvObjectGetChild] finds the child of that
    name and returns its value, null when there is none. *)
Definition jsvObjectGetChild (obj : JsVar) (name : string) : JsVar :=
  jsvSkipName
    (List.find (fun child =>
                  match child with
                  | JsName (KeyString s) _ => String.eqb s name
                  | _ => false
                  end)
               (jsvGetFirstChild obj)).

(** Modelled from the spec: the error collaborator records the exception,
    unless one is pending already. *)
Definition jsExceptionHere (type : JsExceptionType) (st : JsState) : JsState :=
  match jsException st with
  | Some _ => st
  | None => mkState (jsHeap st) (Some type)
  end.

(** Modelled from the spec: the interpreter collaborator executes the
    function and returns its result, null when there is none. *)
Definition jspExecuteFunction (func : JsVar) (st : JsState) : JsVar * JsState :=
  match func with
  | JsFunction code _ => code st
  | _ => (JsUndefined, st)
  end.

(** Modelled from the spec: [jsvNewFromString] allocates a string holding
    the characters up to the terminating 0, or fails (null) when the pool
    is exhausted; here for the one-character buffers of the unified cursor. *)
Definition jsvNewFromString (strLen : nat) (h : JsVarHeap) (ch : byte)
    : JsVar * JsVarHeap :=
  if length (jsVars h) <? jsVarsSize h
  then (JsString (S (length (jsVars h))),
        mkHeap (jsVars h ++ [mkCell (<[0 := ch]> (replicate strLen x00))
                                    (if (uchar ch =? 0)%Z then 0 else 1) 0])
               (jsVarsSize h))
  else (JsUndefined, h).

(** ** The unified cursor *)

Inductive JsvIterator :=
| JSVI_FULLARRAY (index : Z) (var : JsVar) (it : JsvObjectIterator)
| JSVI_OBJECT (it : JsvObjectIterator)
| JSVI_STRING (it : JsvStringIterator)
| JSVI_ARRAYBUFFER (it : JsvArrayBufferIterator).

(** What the machine leaves open: the capacity of a string's root cell,
    whether plain [char] is signed, and the contents of the locals that
    the code declares without initialising them. *)
Class Machine := {
  JSVAR_DATA_STRING_LEN : nat;
  char_is_signed : bool;
  uninitialised_it : JsvArrayBufferIterator;
  uninitialised_data : list byte
}.

Section Locals.

Context {machine : Machine}.

(** [(int)ch] for a plain [char]. *)
Definition int_of_char (ch : byte) : Z :=
  if char_is_signed && (128 <=? uchar ch)%Z then (uchar ch - 256)%Z else uchar ch.

Definition jsvIteratorNew (fuel : nat) (h : JsVarHeap) (obj : JsVar)
    (every_array_element : bool) : option JsvIterator :=
  if jsvIsArray obj || jsvIsObject obj || jsvIsFunction obj then
    if jsvIsArray obj && every_array_element
    then Some (JSVI_FULLARRAY 0 obj (jsvObjectIteratorNew obj))
    else Some (JSVI_OBJECT (jsvObjectIteratorNew obj))
  else
    match obj with
    | JsArrayBuffer _ _ _ _ =>
      match jsvArrayBufferIteratorNew fuel h uninitialised_it obj 0 with
      | Some it => Some (JSVI_ARRAYBUFFER it)
      | None => None
      end
    | JsString str =>
      match jsvStringIteratorNew fuel h str 0 with
      | Some it => Some (JSVI_STRING it)
      | None => None
      end
    | _ => None
    end.

Definition jsvIteratorGetValue (h : JsVarHeap) (it : JsvIterator)
    : JsVar * JsVarHeap * JsvIterator :=
  match it with
  | JSVI_FULLARRAY index _ oit =>
    if jsvIsIntegerish_name (head oit) && (jsvGetInteger_name (head oit) =? index)%Z
    then (jsvObjectIteratorGetValue oit, h, it)
    else (JsUndefined, h, it)
  | JSVI_OBJECT oit => (jsvObjectIteratorGetValue oit, h, it)
  | JSVI_STRING sit =>
    let '(v, h) := jsvNewFromString JSVAR_DATA_STRING_LEN h (jsvStringIteratorGetChar h sit) in
    (v, h, it)
  | JSVI_ARRAYBUFFER bit =>
    let '(v, bit) := jsvArrayBufferIteratorGetValueAndRewind h bit uninitialised_data in
    (v, h, JSVI_ARRAYBUFFER bit)
  end.

Definition jsvIteratorGetIntegerValue (h : JsVarHeap) (it : JsvIterator)
    : Z * JsvIterator :=
  match it with
  | JSVI_FULLARRAY index _ oit =>
    if jsvIsNameInt (head oit) && (jsvGetInteger_name (head oit) =? index)%Z
    then (jsvGetFirstChildSigned (head oit), it)
    else if jsvIsIntegerish_name (head oit) && (jsvGetInteger_name (head oit) =? index)%Z
    then (jsvGetInteger (jsvObjectIteratorGetValue oit), it)
    else (0%Z, it)
  | JSVI_OBJECT oit =>
    if jsvIsNameInt (head oit) then (jsvGetFirstChildSigned (head oit), it)
    else (jsvGetInteger (jsvObjectIteratorGetValue oit), it)
  | JSVI_STRING sit => (int_of_char (jsvStringIteratorGetChar h sit), it)
  | JSVI_ARRAYBUFFER bit =>
    let '(v, bit) := jsvArrayBufferIteratorGetIntegerValue h bit uninitialised_data in
    (v, JSVI_ARRAYBUFFER bit)
  end.

Definition jsvIteratorGetFloatValue (h : JsVarHeap) (it : JsvIterator)
    : JsVarFloat * JsvIterator :=
  match it with
  | JSVI_FULLARRAY index _ oit =>
    if jsvIsIntegerish_name (head oit) && (jsvGetInteger_name (head oit) =? index)%Z
    then (jsvGetFloat (jsvObjectIteratorGetValue oit), it)
    else (NAN, it)
  | JSVI_OBJECT oit => (jsvGetFloat (jsvObjectIteratorGetValue oit), it)
  | JSVI_STRING sit => (float_of_int (int_of_char (jsvStringIteratorGetChar h sit)), it)
  | JSVI_ARRAYBUFFER bit =>
    let '(v, bit) := jsvArrayBufferIteratorGetFloatValue h bit uninitialised_data in
    (v, JSVI_ARRAYBUFFER bit)
  end.

Definition jsvIteratorHasElement (it : JsvIterator) : bool :=
  match it with
  | JSVI_FULLARRAY index var _ => (index <? jsvGetArrayLength var)%Z
  | JSVI_OBJECT oit => jsvObjectIteratorHasValue oit
  | JSVI_STRING sit => jsvStringIteratorHasChar sit
  | JSVI_ARRAYBUFFER bit => jsvArrayBufferIteratorHasElement bit
  end.

Definition jsvIteratorNext (h : JsVarHeap) (it : JsvIterator) : JsvIterator :=
  match it with
  | JSVI_FULLARRAY index var oit =>
    let index := to_int32 (index + 1) in
    if jsvIsIntegerish_name (head oit) && (jsvGetInteger_name (head oit) <? index)%Z
    then JSVI_FULLARRAY index var (jsvObjectIteratorNext oit)
    else JSVI_FULLARRAY index var oit
  | JSVI_OBJECT oit => JSVI_OBJECT (jsvObjectIteratorNext oit)
  | JSVI_STRING sit => JSVI_STRING (jsvStringIteratorNext h sit)
  | JSVI_ARRAYBUFFER bit => JSVI_ARRAYBUFFER (jsvArrayBufferIteratorNext h bit)
  end.

Definition jsvIteratorClone (it : JsvIterator) : JsvIterator := it.

(** ** The callback walker *)

Section Walker.

(** The sink [callback] and the data it is handed, [callbackData]. *)
Context {A : Type} (callback : Z -> A -> A).

(** The result of a walk: whether it succeeded, the state of the
    interpreter, and the sink's data. *)
Definition walk : Type := option (bool * JsState * A).

(** [while (ok && n-- > 0) ok = jsvIterateCallback(dataVar, ...)]. *)
Fixpoint repeat_walk (rec : JsState -> A -> walk) (n : nat) (ok : bool)
    (st : JsState) (a : A) : walk :=
  match n with
  | O => Some (ok, st, a)
  | S n' =>
    if ok then
      match rec st a with
      | Some (ok, st, a) => repeat_walk rec n' ok st a
      | None => None
      end
    else Some (ok, st, a)
  end.

(** [while (jsvStringIteratorHasChar(&it) && ok)] over a string. *)
Fixpoint string_walk (fuel : nat) (h : JsVarHeap) (it : JsvStringIterator) (a : A)
    : option A :=
  if jsvStringIteratorHasChar it then
    match fuel with
    | O => None
    | S fuel' =>
      let ch := jsvStringIteratorGetChar h it in
      string_walk fuel' h (jsvStringIteratorNext h it) (callback (int_of_char ch) a)
    end
  else Some a.

(** [while (len--)] over the bytes of a single-byte unsigned view. *)
Fixpoint bytes_walk (len : nat) (h : JsVarHeap) (sit : JsvStringIterator) (a : A) : A :=
  match len with
  | O => a
  | S len' =>
    bytes_walk len' h (jsvStringIteratorNextInline h sit)
      (callback (uchar (jsvStringIteratorGetChar h sit)) a)
  end.

(** [while (jsvArrayBufferIteratorHasElement(&it))] over a typed view. *)
Fixpoint elements_walk (fuel : nat) (h : JsVarHeap) (it : JsvArrayBufferIterator) (a : A)
    : option A :=
  if jsvArrayBufferIteratorHasElement it then
    match fuel with
    | O => None
    | S fuel' =>
      let '(v, it) := jsvArrayBufferIteratorGetIntegerValue h it uninitialised_data in
      elements_walk fuel' h (jsvArrayBufferIteratorNext h it) (callback (to_int32 v) a)
    end
  else Some a.

(** [while (jsvIteratorHasElement(&it) && ok)] over an iterable. *)
Fixpoint iterator_walk (rec : JsVar -> JsState -> A -> walk) (fuel : nat)
    (it : JsvIterator) (ok : bool) (st : JsState) (a : A) : walk :=
  if jsvIteratorHasElement it && ok then
    match fuel with
    | O => None
    | S fuel' =>
      let '(el, h, it) := jsvIteratorGetValue (jsHeap st) it in
      let st := mkState h (jsException st) in
      match rec el st a with
      | Some (ok, st, a) =>
        iterator_walk rec fuel' (jsvIteratorNext (jsHeap st) it) ok st a
      | None => None
      end
    end
  else Some (ok, st, a).

(** [jsvIterateCallback]; [fuel] bounds the depth of the recursion and the
    number of iterations of each loop that is not counted down. *)
Fixpoint jsvIterateCallback (fuel : nat) (data : JsVar) (st : JsState) (a : A) : walk :=
  match fuel with
  | O => None
  | S fuel' =>
    if jsvIsNumeric data then
      Some (true, st, callback (to_int32 (jsvGetInteger data)) a)
    else if jsvIsObject data then
      let callbackVar := jsvObjectGetChild data "callback" in
      if jsvIsFunction callbackVar then
        let '(result, st) := jspExecuteFunction callbackVar st in
        if negb (is_null result) then jsvIterateCallback fuel' result st a
        else Some (true, st, a)
      else
        let countVar := jsvObjectGetChild data "count" in
        let dataVar := jsvObjectGetChild data "data" in
        if negb (is_null countVar) && negb (is_null dataVar) && jsvIsNumeric countVar then
          let n := to_int32 (jsvGetInteger countVar) in
          repeat_walk (jsvIterateCallback fuel' dataVar) (Z.to_nat n) true st a
        else Some (false, jsExceptionHere JSET_TYPEERROR st, a)
    else if jsvIsString data then
      match data with
      | JsString str =>
        match jsvStringIteratorNew fuel' (jsHeap st) str 0 with
        | Some it =>
          match string_walk fuel' (jsHeap st) it a with
          | Some a => Some (true, st, a)
          | None => None
          end
        | None => None
        end
      | _ => None
      end
    else if jsvIsArrayBuffer data then
      match jsvArrayBufferIteratorNew fuel' (jsHeap st) uninitialised_it data 0 with
      | Some it =>
        if (JSV_ARRAYBUFFER_GET_SIZE (type it) =? 1)%Z
           && negb (JSV_ARRAYBUFFER_IS_SIGNED (type it))
        then
          let len := Z.to_nat (jsvGetArrayBufferLength data) in
          Some (true, st, bytes_walk len (jsHeap st) (strIt it) a)
        else
          match elements_walk fuel' (jsHeap st) it a with
          | Some a => Some (true, st, a)
          | None => None
          end
      | None => None
      end
    else if jsvIsIterable data then
      match jsvIteratorNew fuel' (jsHeap st) data true with
      | Some it => iterator_walk (jsvIterateCallback fuel') fuel' it true st a
      | None => None
      end
    else Some (false, jsExceptionHere JSET_TYPEERROR st, a)
  end.

End Walker.

(** The sink that counts how many times it was called. *)
Definition jsvIterateCallbackCountCb (n : Z) (count : Z) : Z := to_int32 (count + 1).

Definition jsvIterateCallbackCount (fuel : nat) (var : JsVar) (st : JsState)
    : option (Z * JsState) :=
  match jsvIterateCallback jsvIterateCallbackCountCb fuel var st 0%Z with
  | Some (_, st, count) => Some (count, st)
  | None => None
  end.

(** The sink that writes into a byte buffer. *)
Record JsvIterateCallbackToBytesData := mkToBytesData {
  buf : list byte;
  idx : Z;
  length_ : Z  (* the field [length] *)
}.

Definition jsvIterateCallbackToBytesCb (data : Z) (cbData : JsvIterateCallbackToBytesData)
    : JsvIterateCallbackToBytesData :=
  mkToBytesData
    (if (idx cbData <? length_ cbData)%Z
     then <[Z.to_nat (idx cbData) := char_of_int data]> (buf cbData)
     else buf cbData)
    ((idx cbData + 1) mod 2 ^ 32)%Z
    (length_ cbData).

Definition jsvIterateCallbackToBytes (fuel : nat) (var : JsVar) (data : list byte)
    (dataSize : Z) (st : JsState) : option (Z * list byte * JsState) :=
  match jsvIterateCallback jsvIterateCallbackToBytesCb fuel var st
          (mkToBytesData data 0 dataSize) with
  | Some (_, st, cbData) => Some (idx cbData, buf cbData, st)
  | None => None
  end.

End Locals.

(** ** Specifications of the walker *)

(** Following the words of the spec for [{data, count}]: recurse on data
    exactly [count] times, short-circuiting on the first failure. *)
Fixpoint walk_times {A : Type} (rec : JsState -> A -> walk) (count : nat)
    (st : JsState) (a : A) : walk :=
  match count with
  | O => Some (true, st, a)
  | S count' =>
    match rec st a with
    | Some (true, st, a) => walk_times rec count' st a
    | Some (false, st, a) => Some (false, st, a)
    | None => None
    end
  end.

(** The sink that records the integers it is handed, in emission order. *)
Definition emit (n : Z) (emitted : list Z) : list Z := emitted ++ [n].

(** The integers a walk of [x] emits: one per sink invocation. *)
Definition jsvIterateCallback_emitted {machine : Machine} (fuel : nat) (x : JsVar)
    (st : JsState) : option (bool * JsState * list Z) :=
  jsvIterateCallback emit fuel x st [].

(** Reading a unified cursor to its end with get-integer. *)
Fixpoint jsvIteratorIntegers {machine : Machine} (fuel : nat) (h : JsVarHeap)
    (it : JsvIterator) : option (list Z) :=
  if jsvIteratorHasElement it then
    match fuel with
    | O => None
    | S fuel' =>
      let '(v, it) := jsvIteratorGetIntegerValue h it in
      match jsvIteratorIntegers fuel' h (jsvIteratorNext h it) with
      | Some l => Some (v :: l)
      | None => None
      end
    end
  else Some [].

(** A machine to run examples on: root cells of four characters, unsigned
    [char], zeroed locals. *)
Definition example_machine : Machine :=
  {| JSVAR_DATA_STRING_LEN := 4;
     char_is_signed := false;
     uninitialised_it :=
       mkArrayBufferIterator (mkStringIterator 0 0 0 0 0) 0 0 0 0 false;
     uninitialised_data := replicate 8 x00 |}.

(** Reading a unified cursor to its end with get-value. *)
Fixpoint jsvIteratorValues {machine : Machine} (fuel : nat) (h : JsVarHeap)
    (it : JsvIterator) : option (list JsVar) :=
  if jsvIteratorHasElement it then
    match fuel with
    | O => None
    | S fuel' =>
      let '(v, h, it) := jsvIteratorGetValue h it in
      match jsvIteratorValues fuel' h (jsvIteratorNext h it) with
      | Some l => Some (v :: l)
      | None => None
      end
    end
  else Some [].

(** The sparse backing of an array: the child stored for a logical index,
    if any, and what the overlay is to yield there. *)
Definition name_key (name : JsVarName) : option Z :=
  match name with
  | JsName (KeyInt i) _ | JsNameInt i _ => Some i
  | JsName (KeyString _) _ => None
  end.

Definition array_child (children : list JsVarName) (i : Z) : option JsVarName :=
  List.find (fun name => match name_key name with Some k => (k =? i)%Z | None => false end)
            children.

Definition array_value (children : list JsVarName) (i : Z) : JsVar :=
  jsvSkipName (array_child children i).

Definition array_integer (children : list JsVarName) (i : Z) : Z :=
  match array_child children i with
  | Some name => jsvGetInteger (jsvSkipName (Some name))
  | None => 0%Z
  end.

(** The children of an array are named by integer keys from [from] on, in
    ascending order. *)
Fixpoint ascending_keys (from : Z) (children : list JsVarName) : Prop :=
  match children with
  | [] => True
  | name :: rest =>
    match name_key name with
    | Some k => (from <= k)%Z /\ ascending_keys (k + 1) rest
    | None => False
    end
  end.

(** [cursor_pos h l it p]: the cursor is at byte [p] of the chain [l]: on a
    character of one of its cells, with [varIndex + charIdx = p] (I3), or,
    for [p] the length of the string, in the logical-end state. *)
Definition cursor_pos (h : JsVarHeap) (l : list (JsVarRef * JsVarCell))
    (it : JsvStringIterator) (p : nat) : Prop :=
  (exists l0 l1,
     l = l0 ++ l1 /\ cursor_on h l1 it /\ charIdx it < charsInVar it /\
     varIndex it = length (chain_chars l0) /\ p = varIndex it + charIdx it)
  \/ (it = mkStringIterator 0 0 (length (chain_chars l)) 0 0 /\
      p = length (chain_chars l)).

(** The bytes of [data] picked in the order [order], and the bytes [bs]
    stored into [data] in that order. *)
Definition gather (order : list nat) (data : list byte) : list byte :=
  map (fun i => default x00 (data !! i)) order.

Fixpoint scatter (order : list nat) (bs : list byte) (data : list byte) : list byte :=
  match order, bs with
  | i :: order', b :: bs' => scatter order' bs' (<[i := b]> data)
  | _, _ => data
  end.

(** [view_cursor h l it tag p]: a typed-view cursor of type [tag] between
    two elements: the inner cursor is at byte [p] of the backing chain [l]
    and no element has been accessed since the last [next]. *)
Definition view_cursor (h : JsVarHeap) (l : list (JsVarRef * JsVarCell))
    (it : JsvArrayBufferIterator) (tag : Z) (p : nat) : Prop :=
  type it = tag /\ hasAccessedElement it = false /\ cursor_pos h l (strIt it) p.

(** ** Sequences of elements of a typed view *)

(** The value an integer element holds after [v] is written to it: [v],
    saturated to [0,255] first when the type is clamped, truncated to the
    low [8 * width] bits, and sign-extended when the type is signed. *)
Definition element_value (tag : Z) (v : Z) : Z :=
  let v :=
    if JSV_ARRAYBUFFER_IS_CLAMPED tag then Z.max 0 (Z.min 255 v) else v in
  let bits := (8 * JSV_ARRAYBUFFER_GET_SIZE tag)%Z in
  let t := (v mod 2 ^ bits)%Z in
  if JSV_ARRAYBUFFER_IS_SIGNED tag && (2 ^ (bits - 1) <=? t)%Z
  then (t - 2 ^ bits)%Z else t.

(** Writing a sequence of values through a cursor, one element and one
    [next] each, and reading a number of elements back. *)
Fixpoint write_elements {T : Type}
    (set : JsVarHeap -> JsvArrayBufferIterator -> T -> JsVarHeap * JsvArrayBufferIterator)
    (h : JsVarHeap) (it : JsvArrayBufferIterator) (vs : list T)
    : JsVarHeap * JsvArrayBufferIterator :=
  match vs with
  | [] => (h, it)
  | v :: vs' =>
    let '(h, it) := set h it v in
    write_elements set h (jsvArrayBufferIteratorNext h it) vs'
  end.

Fixpoint read_elements {T : Type}
    (get : JsvArrayBufferIterator -> T * JsvArrayBufferIterator)
    (h : JsVarHeap) (it : JsvArrayBufferIterator) (n : nat) : list T :=
  match n with
  | O => []
  | S n' =>
    let '(v, it) := get it in
    v :: read_elements get h (jsvArrayBufferIteratorNext h it) n'
  end.

Definition jsvArrayBufferIteratorSetValues (h : JsVarHeap) (it : JsvArrayBufferIterator)
    (values : list JsVar) (data : list byte) :=
  write_elements (fun h it value => jsvArrayBufferIteratorSetValue h it value data)
    h it values.

Definition jsvArrayBufferIteratorSetIntegerValues (h : JsVarHeap)
    (it : JsvArrayBufferIterator) (vs : list Z) (data : list byte) :=
  write_elements (fun h it v => jsvArrayBufferIteratorSetIntegerValue h it v data)
    h it vs.

Definition jsvArrayBufferIteratorGetValues (h : JsVarHeap) (it : JsvArrayBufferIterator)
    (n : nat) (data : list byte) : list JsVar :=
  read_elements (fun it => jsvArrayBufferIteratorGetValue h it data) h it n.

Definition jsvArrayBufferIteratorGetIntegerValues (h : JsVarHeap)
    (it : JsvArrayBufferIterator) (n : nat) (data : list byte) : list Z :=
  read_elements (fun it => jsvArrayBufferIteratorGetIntegerValue h it data) h it n.

(** ** Sequences of operations on a string cursor *)

(** Writing a run of bytes over a string, one
    [jsvStringIteratorSetCharAndNext] each. *)
Fixpoint jsvStringIteratorSetChars (h : JsVarHeap) (it : JsvStringIterator)
    (cs : list byte) : JsVarHeap * JsvStringIterator :=
  match cs with
  | [] => (h, it)
  | c :: cs' =>
    let '(h', it') := jsvStringIteratorSetCharAndNext h it c in
    jsvStringIteratorSetChars h' it' cs'
  end.

(** Walking the values [vs] one after the other, each with [rec], and
    stopping at the first that fails. *)
Fixpoint walk_each {A : Type} (rec : JsVar -> JsState -> A -> walk) (vs : list JsVar)
    (st : JsState) (a : A) : walk :=
  match vs with
  | [] => Some (true, st, a)
  | v :: vs' =>
    match rec v st a with
    | Some (true, st, a) => walk_each rec vs' st a
    | Some (false, st, a) => Some (false, st, a)
    | None => None
    end
  end.

(** ** Elements of a typed view, as bytes *)

(** What overwriting bytes of a chain leaves alone: the references, the
    used lengths and the links of its cells. *)
Definition chain_shape (l : list (JsVarRef * JsVarCell)) : list (JsVarRef * nat * JsVarRef) :=
  map (fun rv => (rv.1, charactersInVar rv.2, lastChild rv.2)) l.

(** The integer that [jsvArrayBufferIteratorIntToData] stores for [v]:
    [v], saturated to [0,255] when the type is clamped. *)
Definition clamped_value (tag : Z) (v : Z) : Z :=
  if JSV_ARRAYBUFFER_IS_CLAMPED tag then Z.max 0 (Z.min 255 v) else v.

(** The [w] low bytes of [v] in the order they lie in the backing string:
    least significant first, or most significant first. *)
Definition element_bytes (bigEndian : bool) (w : nat) (v : Z) : list byte :=
  if bigEndian then rev (bytes_of_int w v) else bytes_of_int w v.

(** The integer an element of type [tag] holds when its bytes, in the
    order they lie in the backing string, are [bs]. *)
Definition element_of_bytes (tag : Z) (bs : list byte) : Z :=
  let bits := (8 * JSV_ARRAYBUFFER_GET_SIZE tag)%Z in
  let t := int_of_bytes (if JSV_ARRAYBUFFER_IS_BIG_ENDIAN tag then rev bs else bs) in
  if JSV_ARRAYBUFFER_IS_SIGNED tag && (2 ^ (bits - 1) <=? t)%Z
  then (t - 2 ^ bits)%Z else t.

(** The [n] elements of type [tag] that the bytes [chars] start with. *)
Fixpoint view_elements (tag : Z) (chars : list byte) (n : nat) : list Z :=
  match n with
  | O => []
  | S n' =>
    let w := Z.to_nat (JSV_ARRAYBUFFER_GET_SIZE tag) in
    element_of_bytes tag (take w chars) :: view_elements tag (drop w chars) n'
  end.

(** The value [jsvArrayBufferIteratorGetValue] makes of the integer [e]
    held by an element of type [tag]. *)
Definition element_var (tag : Z) (e : Z) : JsVar :=
  if (Z.land tag (Z.lnot ARRAYBUFFERVIEW_BIG_ENDIAN) =? ARRAYBUFFERVIEW_UINT32)%Z
  then jsvNewFromLongInteger (e mod 2 ^ 32)
  else jsvNewFromInteger (to_int32 e).

(** * Properties *)

(** ** Chains *)

Lemma jsvLock_Some_ne0 h r v : jsvLock h r = Some v -> r <> 0.
Proof. destruct r; [discriminate | lia]. Qed.

Lemma is_chain_head h r rv l :
  is_chain h r (rv :: l) -> rv.1 = r /\ jsvLock h r = Some rv.2.
Proof. simpl. tauto. Qed.

Lemma is_chain_single h r rv :
  is_chain h r [rv] -> lastChild rv.2 = 0.
Proof. simpl. tauto. Qed.

Lemma is_chain_tail h r rv rv' l :
  is_chain h r (rv :: rv' :: l) ->
  lastChild rv.2 <> 0 /\ is_chain h (lastChild rv.2) (rv' :: l).
Proof. simpl. tauto. Qed.

Lemma is_chain_lastChild h r rv l :
  is_chain h r (rv :: l) -> jsvGetLastChild h r = lastChild rv.2.
Proof. intros [_ [H _]]. unfold jsvGetLastChild. now rewrite H. Qed.

Lemma is_chain_charactersInVar h r rv l :
  is_chain h r (rv :: l) -> jsvGetCharactersInVar h r = charactersInVar rv.2.
Proof. intros [_ [H _]]. unfold jsvGetCharactersInVar. now rewrite H. Qed.

Lemma length_cell_chars v :
  charactersInVar v <= length (varData_str v) ->
  length (cell_chars v) = charactersInVar v.
Proof. intros H. unfold cell_chars. rewrite length_take. lia. Qed.

Lemma chain_inv_cons rv l : chain_inv (rv :: l) -> l <> [] -> chain_inv l.
Proof.
  intros [Hfit Hne] Hl. split.
  - now inversion Hfit.
  - intros _. destruct l as [|rv' l]; [congruence|].
    assert (Hall : Forall (fun rv => 0 < charactersInVar rv.2) (rv :: rv' :: l))
      by (apply Hne; simpl; lia).
    now inversion Hall.
Qed.

Lemma chain_inv_app_r l0 l1 : chain_inv (l0 ++ l1) -> l1 <> [] -> chain_inv l1.
Proof.
  induction l0 as [|rv l0 IH]; simpl; intros H Hl; [exact H|].
  apply IH; [|exact Hl]. apply (chain_inv_cons rv); [exact H|].
  destruct l0, l1; simpl; congruence.
Qed.

Lemma chain_inv_fit rv l :
  chain_inv (rv :: l) -> charactersInVar rv.2 <= length (varData_str rv.2).
Proof. intros [Hfit _]. now inversion Hfit. Qed.

Lemma chain_inv_nonempty rv rv' l :
  chain_inv (rv :: rv' :: l) -> 0 < charactersInVar rv.2 /\ 0 < charactersInVar rv'.2.
Proof.
  intros [_ Hne].
  assert (Hall : Forall (fun rv => 0 < charactersInVar rv.2) (rv :: rv' :: l))
    by (apply Hne; simpl; lia).
  inversion Hall as [|? ? H1 H2]; subst. inversion H2; subst. tauto.
Qed.

Lemma length_chain_chars l :
  Forall (fun rv => charactersInVar rv.2 <= length (varData_str rv.2)) l ->
  length (chain_chars l) = chain_length l.
Proof.
  induction 1 as [|rv l H _ IH]; simpl; [reflexivity|].
  rewrite length_app, length_cell_chars, IH by exact H. reflexivity.
Qed.

Lemma cell_chars_lookup v k :
  k < charactersInVar v ->
  cell_chars v !! k = varData_str v !! k.
Proof. intros H. unfold cell_chars. now rewrite lookup_take_lt. Qed.

(** ** The constructor's walk *)

Lemma length_chain_chars_cons rv l :
  charactersInVar rv.2 <= length (varData_str rv.2) ->
  length (chain_chars (rv :: l)) = charactersInVar rv.2 + length (chain_chars l).
Proof. intros H. simpl. now rewrite length_app, length_cell_chars. Qed.

Lemma New_loop_inside l : forall h s it fuel,
  cursor_on h l it -> chain_inv l ->
  charIdx it < length (chain_chars l) -> length l <= fuel ->
  exists l0 l1 it',
    jsvStringIteratorNew_loop fuel h s it = Some it' /\
    l = l0 ++ l1 /\ cursor_on h l1 it' /\
    charIdx it' < charsInVar it' /\
    charIdx it = length (chain_chars l0) + charIdx it' /\
    varIndex it' = varIndex it + length (chain_chars l0).
Proof.
  induction l as [|rv l IH]; intros h s it fuel (Hch & Hptr & Hn) Hinv Hk Hfuel;
    [destruct Hch|].
  pose proof (chain_inv_fit _ _ Hinv) as Hfit.
  destruct (Nat.lt_ge_cases (charIdx it) (charsInVar it)) as [Hlt|Hge].
  - exists [], (rv :: l), it. simpl.
    destruct fuel; simpl;
      replace (charsInVar it <=? charIdx it) with false
        by (symmetry; apply Nat.leb_gt; lia);
      rewrite andb_false_r; split_and!; auto; try lia; now split_and!.
  - rewrite length_chain_chars_cons in Hk by exact Hfit.
    destruct l as [|rv' l]; [simpl in Hk; lia|].
    destruct (chain_inv_nonempty _ _ _ Hinv) as [Hpos Hpos'].
    destruct (is_chain_tail _ _ _ _ _ Hch) as [Hlc Hch'].
    destruct (is_chain_head _ _ _ _ Hch) as [_ Hlock].
    destruct fuel as [|fuel]; [simpl in Hfuel; lia|].
    cbn [jsvStringIteratorNew_loop].
    replace (0 <? charIdx it) with true by (symmetry; apply Nat.ltb_lt; lia).
    replace (charsInVar it <=? charIdx it) with true by (symmetry; apply Nat.leb_le; lia).
    cbn [andb].
    replace (var it =? 0) with false
      by (symmetry; apply Nat.eqb_neq; eapply jsvLock_Some_ne0; eauto).
    rewrite (is_chain_lastChild _ _ _ _ Hch).
    replace (lastChild rv.2 =? 0) with false by (symmetry; now apply Nat.eqb_neq).
    edestruct (IH h s (mkStringIterator (charIdx it - charsInVar it)
                        (jsvGetCharactersInVar h (lastChild rv.2))
                        (varIndex it + charsInVar it) (lastChild rv.2) (lastChild rv.2))
                 fuel) as (l0 & l1 & it' & Hrun & Hl & Hcur & Hlt' & Hidx & Hvi).
    + split_and!; simpl; auto.
      apply (is_chain_charactersInVar _ _ _ _ Hch').
    + apply (chain_inv_cons rv); [exact Hinv | discriminate].
    + cbn [charIdx]. lia.
    + simpl in Hfuel. simpl. lia.
    + exists (rv :: l0), l1, it'. rewrite Hrun. cbn [charIdx varIndex] in Hidx, Hvi.
      split_and!; auto.
      * simpl. now rewrite Hl.
      * rewrite length_chain_chars_cons by exact Hfit. lia.
      * rewrite length_chain_chars_cons by exact Hfit. lia.
Qed.

Lemma New_loop_beyond l : forall h s it fuel,
  cursor_on h l it -> chain_inv l ->
  length (chain_chars l) <= charIdx it -> 0 < charIdx it -> length l <= fuel ->
  exists it',
    jsvStringIteratorNew_loop fuel h s it = Some it' /\
    var it' = 0 /\ ptr it' = 0 /\ charsInVar it' = 0 /\
    charIdx it' = charIdx it - length (chain_chars l) /\
    varIndex it' = s - charIdx it'.
Proof.
  induction l as [|rv l IH]; intros h s it fuel (Hch & Hptr & Hn) Hinv Hk Hpos Hfuel;
    [destruct Hch|].
  pose proof (chain_inv_fit _ _ Hinv) as Hfit.
  rewrite length_chain_chars_cons in Hk by exact Hfit.
  destruct (is_chain_head _ _ _ _ Hch) as [_ Hlock].
  destruct fuel as [|fuel]; [simpl in Hfuel; lia|].
  cbn [jsvStringIteratorNew_loop].
  replace (0 <? charIdx it) with true by (symmetry; apply Nat.ltb_lt; lia).
  replace (charsInVar it <=? charIdx it) with true by (symmetry; apply Nat.leb_le; lia).
  cbn [andb].
  replace (var it =? 0) with false
    by (symmetry; apply Nat.eqb_neq; eapply jsvLock_Some_ne0; eauto).
  rewrite (is_chain_lastChild _ _ _ _ Hch).
  destruct l as [|rv' l].
  - rewrite (is_chain_single _ _ _ Hch). simpl.
    eexists; split_and!; try reflexivity.
    cbn [charIdx]. rewrite length_app, length_cell_chars by exact Hfit. simpl. lia.
  - destruct (chain_inv_nonempty _ _ _ Hinv) as [Hpos1 Hpos2].
    destruct (is_chain_tail _ _ _ _ _ Hch) as [Hlc Hch'].
    replace (lastChild rv.2 =? 0) with false by (symmetry; now apply Nat.eqb_neq).
    assert (Hinv' : chain_inv (rv' :: l))
      by (apply (chain_inv_cons rv); [exact Hinv | discriminate]).
    assert (Hlen' : 0 < length (chain_chars (rv' :: l))).
    { rewrite length_chain_chars_cons by apply (chain_inv_fit _ _ Hinv'). lia. }
    edestruct (IH h s (mkStringIterator (charIdx it - charsInVar it)
                        (jsvGetCharactersInVar h (lastChild rv.2))
                        (varIndex it + charsInVar it) (lastChild rv.2) (lastChild rv.2))
                 fuel) as (it' & Hrun & Hv & Hp & Hc & Hidx & Hvi).
    + split_and!; simpl; auto.
      apply (is_chain_charactersInVar _ _ _ _ Hch').
    + exact Hinv'.
    + cbn [charIdx]. lia.
    + cbn [charIdx]. lia.
    + simpl in Hfuel. simpl. lia.
    + exists it'. rewrite Hrun. cbn [charIdx] in Hidx.
      split_and!; auto.
      rewrite (length_chain_chars_cons rv) by exact Hfit. lia.
Qed.

(** ** Reading through a cursor *)

Lemma HasChar_true it :
  jsvStringIteratorHasChar it = true <-> ptr it <> 0 /\ charIdx it < charsInVar it.
Proof.
  unfold jsvStringIteratorHasChar.
  rewrite andb_true_iff, negb_true_iff, Nat.eqb_neq, Nat.ltb_lt. tauto.
Qed.

Lemma HasChar_false it :
  jsvStringIteratorHasChar it = false <-> ptr it = 0 \/ charsInVar it <= charIdx it.
Proof.
  unfold jsvStringIteratorHasChar.
  rewrite andb_false_iff, negb_false_iff, Nat.eqb_eq, Nat.ltb_ge. tauto.
Qed.

Lemma ReadAll_no_char fuel h it :
  jsvStringIteratorHasChar it = false -> jsvStringIteratorReadAll fuel h it = Some [].
Proof. intros H. destruct fuel; simpl; now rewrite H. Qed.

Lemma cursor_on_ptr h rv l it : cursor_on h (rv :: l) it -> ptr it <> 0.
Proof.
  intros (Hch & Hptr & _). rewrite Hptr.
  destruct (is_chain_head _ _ _ _ Hch) as [_ Hlock].
  eapply jsvLock_Some_ne0; eauto.
Qed.

Lemma cursor_on_read h rv l it k :
  cursor_on h (rv :: l) it ->
  charactersInVar rv.2 <= length (varData_str rv.2) ->
  k < charsInVar it ->
  chain_chars (rv :: l) !! k = Some (readChar h (ptr it) k).
Proof.
  intros (Hch & Hptr & Hn) Hfit Hk. destruct (is_chain_head _ _ _ _ Hch) as [_ Hlock].
  unfold readChar. rewrite Hptr, Hlock. simpl.
  rewrite lookup_app_l by (rewrite length_cell_chars by exact Hfit; lia).
  rewrite cell_chars_lookup by lia.
  destruct (lookup_lt_is_Some_2 (varData_str rv.2) k) as [c Hc]; [lia|].
  now rewrite Hc.
Qed.

Lemma drop_lookup_cons {A} (l : list A) k x :
  l !! k = Some x -> drop k l = x :: drop (S k) l.
Proof.
  revert k. induction l as [|y l IH]; intros [|k] H; simpl in *; try discriminate.
  - now inversion H.
  - now apply IH.
Qed.

Lemma ReadAll_spec fuel : forall l h it,
  cursor_on h l it -> chain_inv l ->
  charIdx it < charsInVar it \/ (charIdx it = 0 /\ chain_chars l = []) ->
  length (chain_chars l) - charIdx it <= fuel ->
  jsvStringIteratorReadAll fuel h it
  = Some (map uchar (drop (charIdx it) (chain_chars l))).
Proof.
  induction fuel as [|fuel IH]; intros l h it Hcur Hinv Hpos Hfuel.
  - assert (Hd : drop (charIdx it) (chain_chars l) = [])
      by (apply drop_ge; lia).
    rewrite Hd. apply ReadAll_no_char, HasChar_false.
    destruct l as [|rv l]; [destruct Hcur as [[] _]|].
    pose proof (chain_inv_fit _ _ Hinv) as Hfit.
    rewrite length_chain_chars_cons in Hfuel by exact Hfit.
    destruct Hcur as (_ & _ & Hn). lia.
  - destruct l as [|rv l]; [destruct Hcur as [[] _]|].
    pose proof (chain_inv_fit _ _ Hinv) as Hfit.
    destruct Hpos as [Hlt | [Hz Hnil]].
    2:{ rewrite Hnil, drop_nil. apply ReadAll_no_char, HasChar_false.
        apply (f_equal length) in Hnil.
        rewrite length_chain_chars_cons in Hnil by exact Hfit.
        destruct Hcur as (_ & _ & Hn). simpl in Hnil. lia. }
    pose proof (cursor_on_ptr _ _ _ _ Hcur) as Hptr0.
    pose proof (cursor_on_read _ _ _ _ _ Hcur Hfit Hlt) as Hrd.
    cbn [jsvStringIteratorReadAll].
    replace (jsvStringIteratorHasChar it) with true
      by (symmetry; apply HasChar_true; auto).
    rewrite (drop_lookup_cons _ _ _ Hrd). cbn [map].
    assert (Hget : jsvStringIteratorGetCharOrMinusOne h it
                   = uchar (readChar h (ptr it) (charIdx it))).
    { unfold jsvStringIteratorGetCharOrMinusOne.
      replace (ptr it =? 0) with false by (symmetry; now apply Nat.eqb_neq).
      replace (charsInVar it <=? charIdx it) with false
        by (symmetry; apply Nat.leb_gt; lia).
      reflexivity. }
    rewrite Hget.
    destruct Hcur as (Hch & Hptr & Hn).
    rewrite length_chain_chars_cons in Hfuel by exact Hfit.
    unfold jsvStringIteratorNext, jsvStringIteratorNextInline.
    destruct (Nat.leb_spec (charsInVar it) (S (charIdx it))) as [Hge|Hlt'].
    + (* the cell is used up *)
      assert (HSk : S (charIdx it) = charactersInVar rv.2) by lia.
      assert (Hdrop : drop (S (charIdx it)) (chain_chars (rv :: l)) = chain_chars l).
      { simpl. rewrite HSk, <- (length_cell_chars _ Hfit). apply drop_app_length. }
      rewrite Hdrop, (is_chain_lastChild _ _ _ _ Hch).
      replace (var it =? 0) with false
        by (symmetry; apply Nat.eqb_neq; rewrite <- Hptr; exact Hptr0).
      destruct l as [|rv' l].
      * rewrite (is_chain_single _ _ _ Hch). simpl.
        rewrite ReadAll_no_char; [reflexivity|]. apply HasChar_false. now left.
      * destruct (is_chain_tail _ _ _ _ _ Hch) as [Hlc Hch'].
        destruct (chain_inv_nonempty _ _ _ Hinv) as [_ Hpos'].
        replace (lastChild rv.2 =? 0) with false by (symmetry; now apply Nat.eqb_neq).
        cbn [negb andb].
        assert (Hinv' : chain_inv (rv' :: l))
          by (apply (chain_inv_cons rv); [exact Hinv | discriminate]).
        rewrite (IH (rv' :: l)); cbn [charIdx charsInVar]; auto.
        -- split_and!; simpl; auto. apply (is_chain_charactersInVar _ _ _ _ Hch').
        -- left. rewrite (is_chain_charactersInVar _ _ _ _ Hch'). exact Hpos'.
        -- lia.
    + rewrite (IH (rv :: l)); cbn [charIdx charsInVar set_charIdx]; auto.
      * split_and!; auto.
      * rewrite length_chain_chars_cons by exact Hfit. lia.
Qed.

Lemma cursor_on_root h str rv l :
  is_chain h str (rv :: l) -> forall p,
  cursor_on h (rv :: l) (mkStringIterator p (jsvGetCharactersInVar h str) 0 str str).
Proof.
  intros Hch p. split_and!; simpl; auto.
  apply (is_chain_charactersInVar _ _ _ _ Hch).
Qed.

(** C2 (as amended).  On a well-formed chain [l] rooted at [str]:
    a cursor created at a position [p] inside the string and read until
    has-char is false yields exactly the bytes from [p] on; a cursor created
    at a positive start index at or beyond the length is in the logical-end
    state (null cell reference, null byte pointer) and has no char; and a
    cursor created at index 0 of an empty string has no char either, but
    stays on the root cell. *)
Theorem jsvStringIteratorNew_reads_suffix h str l p fuel fuel' :
  is_chain h str l -> chain_inv l ->
  length l <= fuel -> length (chain_chars l) - p <= fuel' ->
  exists it,
    jsvStringIteratorNew fuel h str p = Some it /\
    (p < length (chain_chars l) ->
       jsvStringIteratorReadAll fuel' h it = Some (map uchar (drop p (chain_chars l)))) /\
    (length (chain_chars l) <= p -> jsvStringIteratorHasChar it = false) /\
    (length (chain_chars l) <= p -> 0 < p -> at_logical_end it) /\
    (length (chain_chars l) <= p -> p = 0 -> var it = str /\ ptr it = str).
Proof.
  intros Hch Hinv Hfuel Hfuel'.
  destruct l as [|rv l]; [destruct Hch|].
  pose proof (cursor_on_root _ _ _ _ Hch p) as Hcur.
  unfold jsvStringIteratorNew.
  destruct (Nat.lt_ge_cases p (length (chain_chars (rv :: l)))) as [Hlt|Hge].
  - destruct (New_loop_inside _ h p _ fuel Hcur Hinv Hlt Hfuel)
      as (l0 & l1 & it & Hrun & Hl & Hcur' & Hlt' & Hidx & Hvi).
    exists it. split_and!; auto; try lia.
    intros _. cbn [charIdx] in Hidx.
    assert (Hl1 : l1 <> []) by (destruct l1; [destruct Hcur' as [[] _] | discriminate]).
    assert (Happ : chain_chars (rv :: l) = chain_chars l0 ++ chain_chars l1).
    { rewrite Hl. clear. induction l0 as [|x l0 IH]; simpl; [reflexivity|].
      now rewrite IH, app_assoc. }
    rewrite (ReadAll_spec fuel' l1 h it); auto.
    + rewrite Happ, Hidx, <- drop_drop, drop_app_length. reflexivity.
    + rewrite Hl in Hinv. now apply (chain_inv_app_r l0).
    + rewrite Happ, length_app in Hfuel'. lia.
  - destruct (Nat.eq_dec p 0) as [->|Hp].
    + exists (mkStringIterator 0 (jsvGetCharactersInVar h str) 0 str str).
      assert (Hn : jsvGetCharactersInVar h str = 0).
      { rewrite (is_chain_charactersInVar _ _ _ _ Hch).
        rewrite length_chain_chars_cons in Hge by apply (chain_inv_fit _ _ Hinv). lia. }
      split_and!; try lia.
      * destruct fuel; reflexivity.
      * intros _. apply HasChar_false. right. simpl. lia.
      * auto.
    + destruct (New_loop_beyond _ h p _ fuel Hcur Hinv) as (it & Hrun & Hv & Hp' & Hc & _);
        cbn [charIdx]; try lia.
      exists it. split_and!; auto; try lia.
      * intros _. apply HasChar_false. now left.
      * intros _ _. now split.
Qed.

Lemma jsvStringIteratorNew_reads_suffix_witness :
  let h := mkHeap [mkCell ["a"; "b"; "c"; "d"]%byte 4 2;
                   mkCell ["e"; "f"; "g"; "h"]%byte 4 3;
                   mkCell ["i"; "j"; x00; x00]%byte 2 0] 3 in
  exists it,
    jsvStringIteratorNew 3 h 1 3 = Some it /\
    jsvStringIteratorReadAll 7 h it = Some [100; 101; 102; 103; 104; 105; 106]%Z.
Proof.
  intros h.
  destruct (jsvStringIteratorNew_reads_suffix h 1
              [(1, mkCell ["a"; "b"; "c"; "d"]%byte 4 2);
               (2, mkCell ["e"; "f"; "g"; "h"]%byte 4 3);
               (3, mkCell ["i"; "j"; x00; x00]%byte 2 0)] 3 3 7)
    as (it & Hnew & Hread & _).
  - simpl. repeat split; discriminate.
  - split; [repeat constructor | intros _; repeat constructor]; simpl; lia.
  - simpl. lia.
  - simpl. lia.
  - exists it. split; [exact Hnew|]. apply Hread. simpl. lia.
Defined.

(** C2 fails as stated: on the empty string, start index 0 is at the
    length of the string, yet the constructor leaves the cursor on the root
    cell, with a non-null cell reference and byte pointer. *)
Lemma jsvStringIteratorNew_empty_not_at_end :
  let h := mkHeap [mkCell (replicate 4 x00) 0 0] 1 in
  let l := [(1, mkCell (replicate 4 x00) 0 0)] in
  is_chain h 1 l /\ chain_inv l /\ length (chain_chars l) <= 0 /\
  exists it, jsvStringIteratorNew 1 h 1 0 = Some it /\ ~ at_logical_end it.
Proof.
  simpl. split_and!; auto.
  - split; [repeat constructor | simpl; lia].
  - eexists. split; [reflexivity|]. intros [H _]. discriminate.
Qed.

(** ** Updating cells of the pool *)

Lemma jsvLock_Some_lt h r v : jsvLock h r = Some v -> r <= length (jsVars h).
Proof.
  destruct r as [|i]; [discriminate|]. simpl. intros H.
  apply lookup_lt_Some in H. lia.
Qed.

Lemma jsvLock_store_eq h r v v' :
  jsvLock h r = Some v -> jsvLock (jsvStore h r v') r = Some v'.
Proof.
  destruct r as [|i]; [discriminate|]. simpl. intros H.
  apply list_lookup_insert_eq. now apply lookup_lt_Some in H.
Qed.

Lemma jsvLock_store_ne h r q v' :
  q <> r -> jsvLock (jsvStore h r v') q = jsvLock h q.
Proof.
  destruct r as [|i], q as [|j]; simpl; try reflexivity. intros H.
  apply list_lookup_insert_ne. lia.
Qed.

Lemma length_jsvStore h r v : length (jsVars (jsvStore h r v)) = length (jsVars h).
Proof. destruct r; simpl; [reflexivity | apply length_insert]. Qed.

Lemma jsVarsSize_jsvStore h r v : jsVarsSize (jsvStore h r v) = jsVarsSize h.
Proof. now destruct r. Qed.

(** ** Chains are determined by their root, and visit no cell twice *)

Lemma is_chain_tail' h r rv l :
  is_chain h r (rv :: l) -> l <> [] ->
  lastChild rv.2 <> 0 /\ is_chain h (lastChild rv.2) l.
Proof. destruct l; [congruence|]. intros H _. eapply is_chain_tail; eauto. Qed.

Lemma is_chain_cons_intro h r rv l :
  rv.1 = r -> jsvLock h r = Some rv.2 -> l <> [] ->
  lastChild rv.2 <> 0 -> is_chain h (lastChild rv.2) l ->
  is_chain h r (rv :: l).
Proof. destruct l; [congruence|]. intros. split_and!; auto. Qed.

Lemma app_cons_not_nil' {A} (l0 : list A) x l1 : l0 ++ x :: l1 <> [].
Proof. destruct l0; discriminate. Qed.

Lemma is_chain_func h l1 : forall r l2,
  is_chain h r l1 -> is_chain h r l2 -> l1 = l2.
Proof.
  induction l1 as [|x l1 IH]; intros r [|y l2] H1 H2; try solve [destruct H1 | destruct H2].
  destruct H1 as (Hx & Hlx & H1), H2 as (Hy & Hly & H2).
  assert (x = y) as <-.
  { destruct x, y; simpl in *. congruence. }
  f_equal. destruct l1 as [|x' l1], l2 as [|y' l2]; try reflexivity.
  - destruct H2; congruence.
  - destruct H1; congruence.
  - destruct H1 as [_ H1], H2 as [_ H2]. eapply IH; eauto.
Qed.

Lemma is_chain_suffix h l0 : forall r x l1,
  is_chain h r (l0 ++ x :: l1) -> is_chain h x.1 (x :: l1).
Proof.
  induction l0 as [|y l0 IH]; intros r x l1 H.
  - simpl in H. destruct H as (Hx & H). rewrite Hx. now split.
  - change ((y :: l0) ++ x :: l1) with (y :: (l0 ++ x :: l1)) in H.
    destruct (is_chain_tail' _ _ _ _ H (app_cons_not_nil' _ _ _)) as [_ H'].
    eapply IH; eauto.
Qed.

Lemma is_chain_NoDup h l : forall r, is_chain h r l -> NoDup (map fst l).
Proof.
  induction l as [|x l IH]; intros r H; [constructor|].
  simpl. constructor.
  - intros Hin. apply list_elem_of_fmap in Hin as (y & Hy & Hin).
    apply list_elem_of_split in Hin as (a & b & ->).
    destruct (is_chain_head _ _ _ _ H) as [Hx _].
    assert (H' : is_chain h y.1 (y :: b)).
    { destruct (is_chain_tail' _ _ _ _ H (app_cons_not_nil' _ _ _)) as [_ H'].
      eapply is_chain_suffix; eauto. }
    rewrite <- Hy, Hx in H'.
    pose proof (is_chain_func _ _ _ _ H H') as E.
    apply (f_equal length) in E. simpl in E. rewrite length_app in E. simpl in E. lia.
  - destruct l as [|y l]; [constructor|].
    destruct (is_chain_tail _ _ _ _ _ H) as [_ H']. eapply IH; eauto.
Qed.

(** Replacing the tail of a chain: the cells before it are untouched. *)
Lemma is_chain_replace_tail h h' rv l1 l0 : forall r,
  is_chain h r (l0 ++ [rv]) ->
  (forall x, x ∈ l0 -> jsvLock h' x.1 = jsvLock h x.1) ->
  l1 <> [] -> is_chain h' rv.1 l1 ->
  is_chain h' r (l0 ++ l1).
Proof.
  induction l0 as [|x l0 IH]; intros r H Hsame Hne H1.
  - simpl in *. destruct H as [<- _]. exact H1.
  - change ((x :: l0) ++ [rv]) with (x :: (l0 ++ [rv])) in H.
    destruct (is_chain_head _ _ _ _ H) as [Hx Hlock].
    destruct (is_chain_tail' _ _ _ _ H (app_cons_not_nil' _ _ _)) as [Hlc H'].
    change ((x :: l0) ++ l1) with (x :: (l0 ++ l1)).
    apply is_chain_cons_intro; auto.
    + rewrite <- Hlock, <- Hx. apply Hsame. apply elem_of_cons. now left.
    + destruct l0, l1; simpl; congruence.
    + apply IH; auto. intros y Hy. apply Hsame. apply elem_of_cons. now right.
Qed.

Lemma chain_chars_app l0 l1 : chain_chars (l0 ++ l1) = chain_chars l0 ++ chain_chars l1.
Proof. induction l0 as [|x l0 IH]; simpl; [reflexivity|]. now rewrite IH, app_assoc. Qed.

Lemma is_chain_app_ne h l0 rv r x :
  is_chain h r (l0 ++ [rv]) -> x ∈ l0 -> x.1 <> rv.1.
Proof.
  intros H Hin Heq. apply is_chain_NoDup in H.
  rewrite map_app in H. apply NoDup_app in H as (_ & Hdisj & _).
  apply (Hdisj x.1).
  - apply list_elem_of_fmap. eauto.
  - simpl. rewrite Heq. apply elem_of_cons. now left.
Qed.

Lemma is_chain_in_range h l : forall r x,
  is_chain h r l -> x ∈ l -> x.1 <= length (jsVars h) /\ x.1 <> 0.
Proof.
  induction l as [|y l IH]; intros r x H Hin; [inversion Hin|].
  destruct (is_chain_head _ _ _ _ H) as [Hy Hlock].
  apply elem_of_cons in Hin as [Hxy|Hin].
  - subst x. rewrite Hy. split; [eapply jsvLock_Some_lt | eapply jsvLock_Some_ne0]; eauto.
  - destruct l as [|z l]; [inversion Hin|].
    destruct (is_chain_tail _ _ _ _ _ H) as [_ H']. eapply IH; eauto.
Qed.

(** ** Positioning a cursor at the tail *)

Lemma GotoEnd_loop_spec l : forall h it fuel,
  is_chain h (var it) l ->
  charsInVar it = match l with rv :: _ => charactersInVar rv.2 | [] => 0 end ->
  Forall (fun rv => charactersInVar rv.2 <= length (varData_str rv.2)) l ->
  length l <= S fuel ->
  exists l0 rv,
    l = l0 ++ [rv] /\
    jsvStringIteratorGotoEnd_loop fuel h it
    = Some (mkStringIterator (charIdx it) (charactersInVar rv.2)
              (varIndex it + length (chain_chars l0)) rv.1 (ptr it)).
Proof.
  induction l as [|x l IH]; intros h it fuel Hch Hn Hfit Hfuel; [destruct Hch|].
  destruct (is_chain_head _ _ _ _ Hch) as [Hx Hlock].
  destruct l as [|y l].
  - exists [], x. split; [reflexivity|].
    assert (Hlc : jsvGetLastChild h (var it) = 0)
      by (rewrite (is_chain_lastChild _ _ _ _ Hch); apply (is_chain_single _ _ _ Hch)).
    destruct fuel; simpl; rewrite Hlc; simpl;
      rewrite Nat.add_0_r, Hx, <- Hn; now destruct it.
  - destruct (is_chain_tail _ _ _ _ _ Hch) as [Hlc Hch'].
    destruct fuel as [|fuel]; [simpl in Hfuel; lia|].
    cbn [jsvStringIteratorGotoEnd_loop].
    rewrite (is_chain_lastChild _ _ _ _ Hch).
    replace (lastChild x.2 =? 0) with false by (symmetry; now apply Nat.eqb_neq).
    inversion Hfit as [|? ? Hfx Hfit']; subst.
    destruct (IH h (mkStringIterator (charIdx it)
                      (jsvGetCharactersInVar h (lastChild x.2))
                      (varIndex it + charsInVar it) (lastChild x.2) (ptr it)) fuel)
      as (l0 & rv & Hl & Hrun); simpl; auto.
    + apply (is_chain_charactersInVar _ _ _ _ Hch').
    + simpl in Hfuel. lia.
    + exists (x :: l0), rv. split; [simpl; now rewrite Hl|].
      rewrite Hrun. cbn [charIdx varIndex ptr].
      rewrite (length_chain_chars_cons x) by exact Hfx. rewrite Hn.
      f_equal. f_equal. lia.
Qed.

Lemma New_at_0 fuel h str :
  jsvStringIteratorNew fuel h str 0
  = Some (mkStringIterator 0 (jsvGetCharactersInVar h str) 0 str str).
Proof. destruct fuel; reflexivity. Qed.

Lemma GotoEnd_cursor_at_tail h str l fuel it :
  is_chain h str l -> chain_inv l -> length l <= S fuel ->
  jsvStringIteratorNew fuel h str 0 = Some it ->
  exists it', jsvStringIteratorGotoEnd fuel h it = Some it' /\ cursor_at_tail l it'.
Proof.
  intros Hch [Hfit _] Hfuel Hnew. rewrite New_at_0 in Hnew. inversion Hnew; subst it.
  destruct l as [|x l]; [destruct Hch|].
  destruct (GotoEnd_loop_spec (x :: l) h
              (mkStringIterator 0 (jsvGetCharactersInVar h str) 0 str str) fuel)
    as (l0 & rv & Hl & Hrun); simpl; auto.
  - apply (is_chain_charactersInVar _ _ _ _ Hch).
  - unfold jsvStringIteratorGotoEnd. rewrite Hrun. eexists. split; [reflexivity|].
    exists l0, rv. cbn. split_and!; auto.
    destruct (Nat.eqb_spec (charactersInVar rv.2) 0); lia.
Qed.

(** ** One append *)

Lemma writeChar_lock h p v i c :
  jsvLock h p = Some v ->
  writeChar h p i c
  = jsvStore h p (mkCell (<[i := c]> (varData_str v)) (charactersInVar v) (lastChild v)).
Proof. intros H. unfold writeChar. now rewrite H. Qed.

Lemma jsvSetCharactersInVar_lock h r v n :
  jsvLock h r = Some v ->
  jsvSetCharactersInVar h r n = jsvStore h r (mkCell (varData_str v) n (lastChild v)).
Proof. intros H. unfold jsvSetCharactersInVar. now rewrite H. Qed.

Lemma jsvSetLastChild_lock h r v c :
  jsvLock h r = Some v ->
  jsvSetLastChild h r c = jsvStore h r (mkCell (varData_str v) (charactersInVar v) c).
Proof. intros H. unfold jsvSetLastChild. now rewrite H. Qed.

Lemma is_chain_last_cell h str l0 rv :
  is_chain h str (l0 ++ [rv]) -> jsvLock h rv.1 = Some rv.2 /\ lastChild rv.2 = 0.
Proof.
  intros H. apply is_chain_suffix in H. destruct H as (_ & Hlock & Hlc). now split.
Qed.

(** The cursor after the increment that opens [jsvStringIteratorAppend]. *)
Lemma Append_increment it n :
  charsInVar it = n -> charIdx it = n - 1 ->
  (if 0 <? charsInVar it then set_charIdx (S (charIdx it)) it else it)
  = mkStringIterator n n (varIndex it) (var it) (ptr it).
Proof.
  intros Hn Hi. destruct (Nat.ltb_spec 0 (charsInVar it)); destruct it; simpl in *;
    unfold set_charIdx; simpl; f_equal; lia.
Qed.

Lemma Append_room maxLen h str l0 rv it ch :
  is_chain h str (l0 ++ [rv]) ->
  var it = rv.1 -> ptr it = rv.1 ->
  charsInVar it = charactersInVar rv.2 -> charIdx it = charactersInVar rv.2 - 1 ->
  charactersInVar rv.2 < length (varData_str rv.2) ->
  let n := charactersInVar rv.2 in
  let rv' := (rv.1, mkCell (<[n := ch]> (varData_str rv.2)) (S n) (lastChild rv.2)) in
  exists h',
    jsvStringIteratorAppend maxLen h it ch
    = (h', mkStringIterator n (S n) (varIndex it) rv.1 rv.1) /\
    is_chain h' str (l0 ++ [rv']) /\
    length (jsVars h') = length (jsVars h) /\ jsVarsSize h' = jsVarsSize h.
Proof.
  intros Hch Hvar Hptr Hn Hidx Hroom n rv'.
  destruct (is_chain_last_cell _ _ _ _ Hch) as [Hlock Hlc].
  pose proof (jsvLock_Some_ne0 _ _ _ Hlock) as Hne0.
  unfold jsvStringIteratorAppend.
  replace (var it =? 0) with false by (symmetry; apply Nat.eqb_neq; congruence).
  rewrite (Append_increment it n Hn Hidx). cbn [var charIdx ptr charsInVar varIndex].
  unfold jsvGetMaxCharactersInVar. rewrite Hvar, Hptr, Hlock.
  replace (length (varData_str rv.2) <=? n) with false
    by (symmetry; apply Nat.leb_gt; exact Hroom).
  rewrite (writeChar_lock _ _ _ _ _ Hlock).
  erewrite jsvSetCharactersInVar_lock by (eapply jsvLock_store_eq; eauto).
  cbn [varData_str charactersInVar lastChild].
  eexists. split; [reflexivity|]. split_and!.
  - apply (is_chain_replace_tail h _ rv _ l0 str Hch); [|discriminate|].
    + intros x Hx. rewrite !jsvLock_store_ne; auto;
        eapply is_chain_app_ne; eauto.
    + split_and!; auto. simpl.
      erewrite jsvLock_store_eq; [reflexivity|].
      eapply jsvLock_store_eq; eauto.
  - now rewrite !length_jsvStore.
  - now rewrite !jsVarsSize_jsvStore.
Qed.

Lemma Append_extend maxLen h str l0 rv it ch :
  is_chain h str (l0 ++ [rv]) ->
  var it = rv.1 -> ptr it = rv.1 ->
  charsInVar it = charactersInVar rv.2 -> charIdx it = charactersInVar rv.2 - 1 ->
  length (varData_str rv.2) <= charactersInVar rv.2 ->
  length (jsVars h) < jsVarsSize h ->
  let n := charactersInVar rv.2 in
  let next := S (length (jsVars h)) in
  let rv1 := (rv.1, mkCell (varData_str rv.2) n next) in
  let rv2 := (next, mkCell (<[0 := ch]> (replicate maxLen x00)) 1 0) in
  exists h',
    jsvStringIteratorAppend maxLen h it ch
    = (h', mkStringIterator 0 1 (varIndex it + n) next next) /\
    is_chain h' str (l0 ++ [rv1; rv2]) /\
    length (jsVars h') = S (length (jsVars h)) /\ jsVarsSize h' = jsVarsSize h /\
    jsvGetLastChild h' rv.1 = next.
Proof.
  intros Hch Hvar Hptr Hn Hidx Hfull Hpool n next rv1 rv2.
  destruct (is_chain_last_cell _ _ _ _ Hch) as [Hlock Hlc].
  pose proof (jsvLock_Some_ne0 _ _ _ Hlock) as Hne0.
  pose proof (jsvLock_Some_lt _ _ _ Hlock) as Hlt.
  unfold jsvStringIteratorAppend.
  replace (var it =? 0) with false by (symmetry; apply Nat.eqb_neq; congruence).
  rewrite (Append_increment it n Hn Hidx). cbn [var charIdx ptr charsInVar varIndex].
  unfold jsvGetMaxCharactersInVar. rewrite Hvar, Hlock.
  replace (length (varData_str rv.2) <=? n) with true
    by (symmetry; apply Nat.leb_le; exact Hfull).
  unfold jsvNewWithFlags.
  replace (length (jsVars h) <? jsVarsSize h) with true
    by (symmetry; apply Nat.ltb_lt; exact Hpool).
  fold next. cbn [var charIdx ptr charsInVar varIndex].
  set (h1 := mkHeap (jsVars h ++ [mkCell (replicate maxLen x00) 0 0]) (jsVarsSize h)).
  assert (Hold : forall q, q <> next -> jsvLock h1 q = jsvLock h q).
  { intros [|i] Hq; [reflexivity|]. simpl.
    destruct (Nat.lt_ge_cases i (length (jsVars h))).
    - now apply lookup_app_l.
    - rewrite lookup_app_r by lia.
      rewrite (lookup_ge_None_2 (jsVars h)) by lia.
      apply lookup_ge_None_2. simpl. unfold next in Hq. lia. }
  assert (Hnew : jsvLock h1 next = Some (mkCell (replicate maxLen x00) 0 0)).
  { simpl. rewrite lookup_app_r by lia. now rewrite Nat.sub_diag. }
  assert (Hrn : rv.1 <> next) by (unfold next; lia).
  assert (Hlock1 : jsvLock h1 rv.1 = Some rv.2) by (rewrite Hold; auto).
  rewrite (jsvSetLastChild_lock _ _ _ _ Hlock1).
  erewrite writeChar_lock by (rewrite jsvLock_store_ne by auto; exact Hnew).
  erewrite jsvSetCharactersInVar_lock by (eapply jsvLock_store_eq;
    rewrite jsvLock_store_ne by auto; exact Hnew).
  cbn [varData_str charactersInVar lastChild].
  eexists. split; [reflexivity|].
  assert (Hr : forall v2 a b,
             jsvLock (jsvStore (jsvStore (jsvStore h1 rv.1 v2) next a) next b) rv.1
             = Some v2).
  { intros v2 a b. rewrite !jsvLock_store_ne by auto. eapply jsvLock_store_eq; eauto. }
  split_and!.
  - apply (is_chain_replace_tail h _ rv _ l0 str Hch); [|discriminate|].
    + intros x Hx.
      assert (x.1 <> rv.1) by (eapply is_chain_app_ne; eauto).
      assert (x.1 <> next).
      { destruct (is_chain_in_range h (l0 ++ [rv]) str x Hch); [|unfold next; lia].
        apply elem_of_app. now left. }
      rewrite !jsvLock_store_ne by auto. now apply Hold.
    + apply is_chain_cons_intro.
      * reflexivity.
      * apply Hr.
      * discriminate.
      * simpl. unfold next. lia.
      * split_and!; auto. cbn [fst snd lastChild].
        eapply jsvLock_store_eq.
        eapply jsvLock_store_eq. rewrite jsvLock_store_ne by auto. exact Hnew.
  - rewrite !length_jsvStore. unfold h1. simpl. rewrite length_app. simpl. lia.
  - now rewrite !jsVarsSize_jsvStore.
  - unfold jsvGetLastChild. now rewrite Hr.
Qed.

Lemma Append_out_of_memory maxLen h str l0 rv it ch :
  is_chain h str (l0 ++ [rv]) ->
  var it = rv.1 ->
  charsInVar it = charactersInVar rv.2 -> charIdx it = charactersInVar rv.2 - 1 ->
  length (varData_str rv.2) <= charactersInVar rv.2 ->
  jsVarsSize h <= length (jsVars h) ->
  jsvStringIteratorAppend maxLen h it ch
  = (h, mkStringIterator 0 (charsInVar it) (varIndex it) 0 0).
Proof.
  intros Hch Hvar Hn Hidx Hfull Hpool.
  destruct (is_chain_last_cell _ _ _ _ Hch) as [Hlock Hlc].
  pose proof (jsvLock_Some_ne0 _ _ _ Hlock) as Hne0.
  unfold jsvStringIteratorAppend.
  replace (var it =? 0) with false by (symmetry; apply Nat.eqb_neq; congruence).
  rewrite (Append_increment it _ Hn Hidx). cbn [var charIdx ptr charsInVar varIndex].
  unfold jsvGetMaxCharactersInVar. rewrite Hvar, Hlock.
  replace (length (varData_str rv.2) <=? charactersInVar rv.2) with true
    by (symmetry; apply Nat.leb_le; exact Hfull).
  unfold jsvNewWithFlags.
  replace (length (jsVars h) <? jsVarsSize h) with false
    by (symmetry; apply Nat.ltb_ge; exact Hpool).
  now rewrite Hn.
Qed.

Lemma tail_full_snoc l0 rv :
  tail_full (l0 ++ [rv]) = (length (varData_str rv.2) <=? charactersInVar rv.2).
Proof. unfold tail_full. now rewrite last_snoc. Qed.

Lemma chain_inv_snoc_inv l0 rv :
  chain_inv (l0 ++ [rv]) ->
  Forall (fun rv => charactersInVar rv.2 <= length (varData_str rv.2)) l0 /\
  charactersInVar rv.2 <= length (varData_str rv.2) /\
  (l0 <> [] -> Forall (fun rv => 0 < charactersInVar rv.2) l0 /\ 0 < charactersInVar rv.2).
Proof.
  intros [Hfit Hne]. apply Forall_app in Hfit as [Hfit0 Hfit1].
  split_and!; auto.
  - now inversion Hfit1.
  - intros Hl0. assert (Hlen : 1 < length (l0 ++ [rv])).
    { rewrite length_app. destruct l0; [congruence|]. simpl. lia. }
    apply Hne, Forall_app in Hlen as [H0 H1]. split; [exact H0 | now inversion H1].
Qed.

Lemma chain_inv_snoc_intro l0 l1 :
  Forall (fun rv => charactersInVar rv.2 <= length (varData_str rv.2)) l0 ->
  Forall (fun rv => charactersInVar rv.2 <= length (varData_str rv.2)) l1 ->
  (l0 <> [] -> Forall (fun rv => 0 < charactersInVar rv.2) l0) ->
  (1 < length (l0 ++ l1) -> Forall (fun rv => 0 < charactersInVar rv.2) l1) ->
  chain_inv (l0 ++ l1).
Proof.
  intros Hf0 Hf1 Hn0 Hn1. split; [now apply Forall_app|].
  intros Hlen. apply Forall_app. split; [|now apply Hn1].
  destruct l0; [constructor|]. now apply Hn0.
Qed.

Lemma Append_tail_state maxLen h str l it ch :
  0 < maxLen -> tail_state h str l it ->
  exists h' it',
    jsvStringIteratorAppend maxLen h it ch = (h', it') /\
    jsVarsSize h' = jsVarsSize h /\
    (tail_full l = false ->
       length (jsVars h') = length (jsVars h) /\ var it' = var it /\
       exists l', tail_state h' str l' it' /\ chain_chars l' = chain_chars l ++ [ch]) /\
    (tail_full l = true -> length (jsVars h) < jsVarsSize h ->
       length (jsVars h') = S (length (jsVars h)) /\
       var it' = S (length (jsVars h)) /\ jsvGetLastChild h' (var it) = var it' /\
       charIdx it' = 0 /\
       exists l', tail_state h' str l' it' /\ chain_chars l' = chain_chars l ++ [ch]) /\
    (tail_full l = true -> jsVarsSize h <= length (jsVars h) ->
       h' = h /\ at_logical_end it' /\ charsInVar it' = charsInVar it).
Proof.
  intros HmaxLen (Hch & Hinv & Hcap & (l0 & rv & -> & Hvar & Hptr & Hn & Hidx & Hvi)).
  destruct (chain_inv_snoc_inv _ _ Hinv) as (Hfit0 & Hfit1 & Hne).
  apply Forall_app in Hcap as [Hcap0 Hcap1]. inversion Hcap1 as [|? ? Hcaprv _]; subst.
  rewrite tail_full_snoc.
  destruct (Nat.leb_spec (length (varData_str rv.2)) (charactersInVar rv.2)) as [Hfull|Hroom].
  - destruct (Nat.lt_ge_cases (length (jsVars h)) (jsVarsSize h)) as [Hpool|Hpool].
    + destruct (Append_extend maxLen h str l0 rv it ch Hch Hvar Hptr Hn Hidx Hfull Hpool)
        as (h' & Hrun & Hch' & Hlen & Hsize & Hlc).
      exists h', (mkStringIterator 0 1 (varIndex it + charactersInVar rv.2)
                    (S (length (jsVars h))) (S (length (jsVars h)))).
      split_and!; auto; try discriminate; try lia.
      intros _ _. rewrite Hvar. split_and!; auto.
      eexists. split.
      * split_and!; [exact Hch' | | |].
        -- apply chain_inv_snoc_intro; [exact Hfit0 | | intros H; now apply Hne |].
           ++ repeat constructor; simpl; auto. rewrite length_insert, length_replicate. lia.
           ++ intros _. repeat constructor; simpl; lia.
        -- apply Forall_app. split; [exact Hcap0|].
           repeat constructor; simpl; auto. rewrite length_insert, length_replicate. lia.
        -- exists (l0 ++ [(rv.1, mkCell (varData_str rv.2) (charactersInVar rv.2)
                                  (S (length (jsVars h))))]), 
             (S (length (jsVars h)),
              mkCell (<[0 := ch]> (replicate maxLen x00)) 1 0).
           split_and!; auto.
           ++ now rewrite <- app_assoc.
           ++ cbn [varIndex]. rewrite chain_chars_app, length_app, Hvi. f_equal.
              rewrite length_chain_chars_cons by exact Hfit1. simpl. lia.
      * rewrite !chain_chars_app, <- app_assoc. f_equal. simpl. unfold cell_chars. simpl.
        destruct maxLen; [lia|]. simpl. now rewrite !app_nil_r.
    + rewrite (Append_out_of_memory maxLen h str l0 rv it ch Hch Hvar Hn Hidx Hfull Hpool).
      eexists _, _. split; [reflexivity|].
      split_and!; auto; try discriminate; try lia.
      intros _ _. split_and!; auto. now split.
  - destruct (Append_room maxLen h str l0 rv it ch Hch Hvar Hptr Hn Hidx Hroom)
      as (h' & Hrun & Hch' & Hlen & Hsize).
    eexists _, _. split; [exact Hrun|].
    split_and!; auto; try discriminate.
    intros _. split_and!; auto.
    eexists. split.
    + split_and!; [exact Hch' | | |].
      * apply chain_inv_snoc_intro; [exact Hfit0 | | intros H; now apply Hne |].
        -- apply Forall_singleton. simpl. rewrite length_insert. lia.
        -- intros _. apply Forall_singleton. simpl. lia.
      * apply Forall_app. split; [exact Hcap0|].
        apply Forall_singleton. simpl. rewrite length_insert. lia.
      * eexists l0, _. split_and!; try reflexivity; auto. simpl. lia.
    + rewrite !chain_chars_app, <- app_assoc. f_equal. simpl. rewrite !app_nil_r.
      unfold cell_chars. simpl.
      rewrite (take_S_r _ _ ch) by (apply list_lookup_insert_eq; lia).
      now rewrite take_insert_ge by lia.
Qed.

(** ** Sequences of appends and writes *)

Lemma tail_state_var h str l it : tail_state h str l it -> var it <> 0.
Proof.
  intros (Hch & _ & _ & (l0 & rv & -> & Hvar & _)).
  destruct (is_chain_last_cell _ _ _ _ Hch) as [Hlock _].
  rewrite Hvar. eapply jsvLock_Some_ne0; eauto.
Qed.

Lemma Append_at_end maxLen h it ch :
  var it = 0 -> jsvStringIteratorAppend maxLen h it ch = (h, it).
Proof. intros H. unfold jsvStringIteratorAppend. now rewrite H. Qed.

Lemma AppendAll_at_end maxLen chs : forall h it,
  var it = 0 -> jsvStringIteratorAppendAll maxLen h it chs = (h, it).
Proof.
  induction chs as [|ch chs IH]; intros h it H; simpl; [reflexivity|].
  rewrite Append_at_end by exact H. now apply IH.
Qed.

Lemma SetChar_at_end h it c :
  ptr it = 0 -> jsvStringIteratorSetChar h it c = h.
Proof.
  intros H. unfold jsvStringIteratorSetChar.
  replace (jsvStringIteratorHasChar it) with false; [reflexivity|].
  symmetry. apply HasChar_false. now left.
Qed.

Lemma Writes_at_end maxLen ws : forall h it,
  at_logical_end it -> jsvStringIteratorWrites maxLen h it ws = (h, it).
Proof.
  induction ws as [|[ch|c] ws IH]; intros h it [Hv Hp]; simpl; [reflexivity| |].
  - rewrite Append_at_end by exact Hv. apply IH. now split.
  - rewrite SetChar_at_end by exact Hp. apply IH. now split.
Qed.

Lemma AppendAll_tail_state maxLen str chs : forall h l it,
  0 < maxLen -> tail_state h str l it ->
  exists h' it',
    jsvStringIteratorAppendAll maxLen h it chs = (h', it') /\
    (var it' <> 0 ->
       exists l', tail_state h' str l' it' /\ chain_chars l' = chain_chars l ++ chs) /\
    (length (jsVars h) + length chs <= jsVarsSize h -> var it' <> 0).
Proof.
  induction chs as [|ch chs IH]; intros h l it HmaxLen Hst.
  - exists h, it. simpl. split_and!; auto.
    + intros _. exists l. now rewrite app_nil_r.
    + intros _. eapply tail_state_var; eauto.
  - destruct (Append_tail_state maxLen h str l it ch HmaxLen Hst)
      as (h1 & it1 & Hrun & Hsize & Hroom & Hext & Hoom).
    cbn [jsvStringIteratorAppendAll]. rewrite Hrun.
    assert (Hcont : forall l1, tail_state h1 str l1 it1 ->
              chain_chars l1 = chain_chars l ++ [ch] ->
              length (jsVars h1) <= S (length (jsVars h)) ->
              (tail_full l = true -> length (jsVars h) < jsVarsSize h) ->
              (tail_full l = false -> length (jsVars h1) = length (jsVars h)) ->
              exists h' it',
                jsvStringIteratorAppendAll maxLen h1 it1 chs = (h', it') /\
                (var it' <> 0 ->
                   exists l', tail_state h' str l' it' /\
                              chain_chars l' = chain_chars l ++ ch :: chs) /\
                (length (jsVars h) + length (ch :: chs) <= jsVarsSize h -> var it' <> 0)).
    { intros l1 Hst1 Hchars Hlen Hf Hnf.
      destruct (IH h1 l1 it1 HmaxLen Hst1) as (h' & it' & Hrun' & Hok & Hpool).
      exists h', it'. split_and!; auto.
      - intros Hv. destruct (Hok Hv) as (l' & Hst' & Hchars').
        exists l'. split; [exact Hst'|]. now rewrite Hchars', Hchars, <- app_assoc.
      - intros Hp. apply Hpool. simpl in Hp. rewrite Hsize.
        destruct (tail_full l); [lia|]. rewrite Hnf by reflexivity. lia. }
    destruct (tail_full l) eqn:Hfull.
    + destruct (Nat.lt_ge_cases (length (jsVars h)) (jsVarsSize h)) as [Hpool|Hpool].
      * destruct (Hext eq_refl Hpool) as (Hlen & _ & _ & _ & l1 & Hst1 & Hchars).
        apply (Hcont l1); auto; try lia; discriminate.
      * destruct (Hoom eq_refl Hpool) as (-> & [Hv Hp] & _).
        rewrite AppendAll_at_end by exact Hv.
        exists h, it1. split_and!; auto; [congruence|]. simpl. lia.
    + destruct (Hroom eq_refl) as (Hlen & _ & l1 & Hst1 & Hchars).
      apply (Hcont l1); auto; try lia; discriminate.
Qed.

(** C3.  A cursor positioned at the tail of a well-formed chain [l] (by the
    constructor at index 0 and goto-end) through which the bytes [chs] are
    appended, every allocation succeeding (the cursor is not null afterwards,
    as it is whenever the pool has room), leaves a chain whose bytes are
    those of [l] followed by [chs], so that the logical length grew by
    [length chs] and the bytes stored before are unchanged; and the next
    append allocates a new cell exactly when the tail cell is full: the new
    cell is then the last-child of the old tail and the cursor is at index 0
    of it, whereas otherwise no cell is allocated and the cursor stays on
    the tail cell. *)
Theorem jsvStringIteratorAppend_grows maxLen h str l fuel chs :
  0 < maxLen -> is_chain h str l -> chain_inv l -> chain_capacity l ->
  length l <= S fuel ->
  exists it0 it h1 it1,
    jsvStringIteratorNew fuel h str 0 = Some it0 /\
    jsvStringIteratorGotoEnd fuel h it0 = Some it /\
    jsvStringIteratorAppendAll maxLen h it chs = (h1, it1) /\
    (length (jsVars h) + length chs <= jsVarsSize h -> var it1 <> 0) /\
    (var it1 <> 0 ->
     exists l1,
       is_chain h1 str l1 /\ chain_inv l1 /\
       chain_chars l1 = chain_chars l ++ chs /\
       chain_length l1 = chain_length l + length chs /\
       forall ch h2 it2,
         jsvStringIteratorAppend maxLen h1 it1 ch = (h2, it2) -> var it2 <> 0 ->
         if tail_full l1
         then length (jsVars h2) = S (length (jsVars h1)) /\
              var it2 = S (length (jsVars h1)) /\
              jsvGetLastChild h2 (var it1) = var it2 /\ charIdx it2 = 0
         else length (jsVars h2) = length (jsVars h1) /\ var it2 = var it1).
Proof.
  intros HmaxLen Hch Hinv Hcap Hfuel.
  destruct (GotoEnd_cursor_at_tail h str l fuel _ Hch Hinv Hfuel (New_at_0 fuel h str))
    as (it & Hgoto & Htail).
  assert (Hst : tail_state h str l it) by (split_and!; auto).
  destruct (AppendAll_tail_state maxLen str chs h l it HmaxLen Hst)
    as (h1 & it1 & Hrun & Hok & Hpool).
  exists (mkStringIterator 0 (jsvGetCharactersInVar h str) 0 str str), it, h1, it1.
  split_and!; auto using New_at_0.
  intros Hv. destruct (Hok Hv) as (l1 & Hst1 & Hchars).
  exists l1. pose proof Hst1 as (Hch1 & Hinv1 & _ & _).
  split_and!; auto.
  - rewrite <- !length_chain_chars by (apply Hinv || apply Hinv1).
    now rewrite Hchars, length_app.
  - intros ch h2 it2 Hrun2 Hv2.
    destruct (Append_tail_state maxLen h1 str l1 it1 ch HmaxLen Hst1)
      as (h2' & it2' & Hrun2' & _ & Hroom & Hext & Hoom).
    rewrite Hrun2 in Hrun2'. inversion Hrun2'; subst h2' it2'.
    destruct (tail_full l1).
    + destruct (Nat.lt_ge_cases (length (jsVars h1)) (jsVarsSize h1)) as [Hp|Hp].
      * destruct (Hext eq_refl Hp) as (? & ? & ? & ? & _). now split_and!.
      * destruct (Hoom eq_refl Hp) as (_ & [Hv0 _] & _). congruence.
    + destruct (Hroom eq_refl) as (? & ? & _). now split.
Qed.

(** C9.  When the tail cell is full and the pool is exhausted, an append
    leaves the heap as it is and puts the cursor in the logical-end state
    (null cell reference, null pointer); the operation has no error channel.
    Every sequence of appends and set-chars made through that cursor
    afterwards leaves the heap, and so the bytes and the logical length of
    the chain, unchanged. *)
Theorem jsvStringIteratorAppend_out_of_memory maxLen h str l it ch ws :
  tail_state h str l it -> tail_full l = true ->
  jsVarsSize h <= length (jsVars h) ->
  exists it',
    jsvStringIteratorAppend maxLen h it ch = (h, it') /\
    at_logical_end it' /\
    jsvStringIteratorWrites maxLen h it' ws = (h, it') /\
    is_chain h str l.
Proof.
  intros Hst Hfull Hpool. pose proof Hst as (Hch & _ & _ & (l0 & rv & -> & Hvar & _ & Hn & Hidx & _)).
  rewrite tail_full_snoc in Hfull. apply Nat.leb_le in Hfull.
  rewrite (Append_out_of_memory maxLen h str l0 rv it ch Hch Hvar Hn Hidx Hfull Hpool).
  eexists. split_and!; [reflexivity | now split | | exact Hch].
  apply Writes_at_end. now split.
Qed.

Lemma jsvStringIteratorAppend_grows_witness :
  let cell := mkCell ["a"; "b"; "c"; "d"]%byte 4 0 in
  let h := mkHeap [cell] 3 in
  exists it h1 it1 l1,
    jsvStringIteratorGotoEnd 0 h (mkStringIterator 0 4 0 1 1) = Some it /\
    jsvStringIteratorAppendAll 4 h it ["e"; "f"]%byte = (h1, it1) /\
    is_chain h1 1 l1 /\
    chain_chars l1 = ["a"; "b"; "c"; "d"; "e"; "f"]%byte /\
    chain_length l1 = 6.
Proof.
  intros cell h. subst cell h.
  destruct (jsvStringIteratorAppend_grows 4 (mkHeap [mkCell ["a"; "b"; "c"; "d"]%byte 4 0] 3) 1 [(1, mkCell ["a"; "b"; "c"; "d"]%byte 4 0)] 0 ["e"; "f"]%byte)
    as (it0 & it & h1 & it1 & Hnew & Hgoto & Hrun & Hpool & Hok).
  - lia.
  - simpl. auto.
  - split; [apply Forall_singleton | intros H]; simpl in *; lia.
  - apply Forall_singleton. simpl. lia.
  - simpl. lia.
  - destruct Hok as (l1 & Hch & _ & Hchars & Hlen & _).
    + apply Hpool. simpl. lia.
    + exists it, h1, it1, l1. inversion Hnew; subst it0. now split_and!.
Defined.

Lemma jsvStringIteratorAppend_out_of_memory_witness :
  let cell := mkCell ["a"; "b"; "c"; "d"]%byte 4 0 in
  let h := mkHeap [cell] 1 in
  exists it',
    jsvStringIteratorAppend 4 h (mkStringIterator 3 4 0 1 1) "e"%byte = (h, it') /\
    at_logical_end it' /\
    jsvStringIteratorWrites 4 h it'
      [WriteAppend "f"%byte; WriteSetChar "g"%byte; WriteAppend "h"%byte] = (h, it') /\
    is_chain h 1 [(1, cell)].
Proof.
  intros cell h. subst cell h.
  apply (jsvStringIteratorAppend_out_of_memory 4 (mkHeap [mkCell ["a"; "b"; "c"; "d"]%byte 4 0] 1) 1 [(1, mkCell ["a"; "b"; "c"; "d"]%byte 4 0)]).
  - split_and!.
    + simpl. auto.
    + split; [apply Forall_singleton | intros H]; simpl in *; lia.
    + apply Forall_singleton. simpl. lia.
    + exists [], (1, mkCell ["a"; "b"; "c"; "d"]%byte 4 0). now split_and!.
  - reflexivity.
  - simpl. lia.
Defined.

(** ** The walker on objects *)

Section WalkerProperties.

Context {machine : Machine}.

Lemma repeat_walk_failed {A} (rec : JsState -> A -> walk) n st a :
  repeat_walk rec n false st a = Some (false, st, a).
Proof. now destruct n. Qed.

Lemma repeat_walk_times {A} (rec : JsState -> A -> walk) n : forall st a,
  repeat_walk rec n true st a = walk_times rec n st a.
Proof.
  induction n as [|n IH]; intros st a; simpl; [reflexivity|].
  destruct (rec st a) as [[[[] st'] a']|]; auto using repeat_walk_failed.
Qed.

Lemma walk_object_callback {A} (callback : Z -> A -> A) fuel data st a :
  jsvIsObject data = true ->
  jsvIsFunction (jsvObjectGetChild data "callback") = true ->
  jsvIterateCallback callback (S fuel) data st a
  = let '(result, st') := jspExecuteFunction (jsvObjectGetChild data "callback") st in
    if is_null result then Some (true, st', a)
    else jsvIterateCallback callback fuel result st' a.
Proof.
  intros Hobj Hfun.
  assert (Hnum : jsvIsNumeric data = false) by (destruct data; try discriminate; reflexivity).
  cbn [jsvIterateCallback]. rewrite Hnum, Hobj, Hfun.
  destruct (jspExecuteFunction (jsvObjectGetChild data "callback") st) as [result st'].
  now destruct (is_null result).
Qed.

Lemma walk_object_data_count {A} (callback : Z -> A -> A) fuel data st a :
  jsvIsObject data = true ->
  jsvIsFunction (jsvObjectGetChild data "callback") = false ->
  is_null (jsvObjectGetChild data "count") = false ->
  is_null (jsvObjectGetChild data "data") = false ->
  jsvIsNumeric (jsvObjectGetChild data "count") = true ->
  jsvIterateCallback callback (S fuel) data st a
  = walk_times (jsvIterateCallback callback fuel (jsvObjectGetChild data "data"))
      (Z.to_nat (to_int32 (jsvGetInteger (jsvObjectGetChild data "count")))) st a.
Proof.
  intros Hobj Hfun Hc Hd Hn.
  assert (Hnum : jsvIsNumeric data = false) by (destruct data; try discriminate; reflexivity).
  cbn [jsvIterateCallback]. rewrite Hnum, Hobj, Hfun, Hc, Hd, Hn. cbn [negb andb].
  apply repeat_walk_times.
Qed.

Lemma walk_object_type_error {A} (callback : Z -> A -> A) fuel data st a :
  jsvIsObject data = true ->
  jsvIsFunction (jsvObjectGetChild data "callback") = false ->
  is_null (jsvObjectGetChild data "count") = true \/
  is_null (jsvObjectGetChild data "data") = true \/
  jsvIsNumeric (jsvObjectGetChild data "count") = false ->
  jsvIterateCallback callback (S fuel) data st a
  = Some (false, jsExceptionHere JSET_TYPEERROR st, a).
Proof.
  intros Hobj Hfun Hbad.
  assert (Hnum : jsvIsNumeric data = false) by (destruct data; try discriminate; reflexivity).
  cbn [jsvIterateCallback]. rewrite Hnum, Hobj, Hfun.
  destruct Hbad as [-> | [-> | ->]]; cbn [negb andb]; rewrite ?andb_false_r; reflexivity.
Qed.

(** C1.  On an object: when its [callback] property is a function, the
    walker executes it (with no arguments) and, if a value is returned,
    recurses on that value and returns the outcome, without consulting
    [count] or [data]; otherwise, when [count] and [data] are present and
    [count] is numeric, it recurses on [data] exactly [count] times,
    stopping at the first failing recursion; otherwise it raises a type
    error and returns failure. *)
Theorem jsvIterateCallback_object {A} (callback : Z -> A -> A) fuel data st a :
  jsvIsObject data = true ->
  let callbackVar := jsvObjectGetChild data "callback" in
  let countVar := jsvObjectGetChild data "count" in
  let dataVar := jsvObjectGetChild data "data" in
  (jsvIsFunction callbackVar = true ->
     jsvIterateCallback callback (S fuel) data st a
     = let '(result, st') := jspExecuteFunction callbackVar st in
       if is_null result then Some (true, st', a)
       else jsvIterateCallback callback fuel result st' a) /\
  (jsvIsFunction callbackVar = false ->
   is_null countVar = false -> is_null dataVar = false -> jsvIsNumeric countVar = true ->
     jsvIterateCallback callback (S fuel) data st a
     = walk_times (jsvIterateCallback callback fuel dataVar)
         (Z.to_nat (to_int32 (jsvGetInteger countVar))) st a) /\
  (jsvIsFunction callbackVar = false ->
   is_null countVar = true \/ is_null dataVar = true \/ jsvIsNumeric countVar = false ->
     jsvIterateCallback callback (S fuel) data st a
     = Some (false, jsExceptionHere JSET_TYPEERROR st, a) /\
     (jsException st = None ->
      jsException (jsExceptionHere JSET_TYPEERROR st) = Some JSET_TYPEERROR)).
Proof.
  intros Hobj callbackVar countVar dataVar. split_and!.
  - now apply walk_object_callback.
  - now apply walk_object_data_count.
  - intros Hfun Hbad. split; [now apply walk_object_type_error|].
    intros Hnone. unfold jsExceptionHere. now rewrite Hnone.
Qed.

(** C10.  An object with no function-valued [callback], a [data] property
    and a numeric [count] whose integer value is zero or negative: the
    walker succeeds without invoking the sink and without raising an
    error; counting such an object gives 0 and to-bytes writes nothing. *)
Theorem jsvIterateCallback_count_not_positive fuel data st :
  jsvIsObject data = true ->
  jsvIsFunction (jsvObjectGetChild data "callback") = false ->
  is_null (jsvObjectGetChild data "data") = false ->
  jsvIsNumeric (jsvObjectGetChild data "count") = true ->
  (to_int32 (jsvGetInteger (jsvObjectGetChild data "count")) <= 0)%Z ->
  (forall A (callback : Z -> A -> A) a,
     jsvIterateCallback callback (S fuel) data st a = Some (true, st, a)) /\
  jsvIterateCallbackCount (S fuel) data st = Some (0%Z, st) /\
  (forall buffer dataSize,
     jsvIterateCallbackToBytes (S fuel) data buffer dataSize st = Some (0%Z, buffer, st)).
Proof.
  intros Hobj Hfun Hd Hn Hle.
  assert (Hc : is_null (jsvObjectGetChild data "count") = false)
    by (destruct (jsvObjectGetChild data "count"); try discriminate; reflexivity).
  assert (Hwalk : forall A (callback : Z -> A -> A) a,
             jsvIterateCallback callback (S fuel) data st a = Some (true, st, a)).
  { intros A callback a.
    rewrite (walk_object_data_count callback fuel data st a Hobj Hfun Hc Hd Hn).
    now replace (Z.to_nat (to_int32 (jsvGetInteger (jsvObjectGetChild data "count"))))
      with 0 by lia. }
  split_and!; [exact Hwalk | |].
  - unfold jsvIterateCallbackCount. now rewrite Hwalk.
  - intros buffer dataSize. unfold jsvIterateCallbackToBytes. now rewrite Hwalk.
Qed.

(** ** The walker is uniform in its sink *)

Section Sinks.

Context {A B : Type} (f : Z -> A -> A) (g : Z -> B -> B) (R : A -> B -> Prop).
Hypothesis R_step : forall n a b, R a b -> R (f n a) (g n b).

(** Two walks that differ in their sink only: both run out of fuel, or both
    end, with the same outcome and state and related sink data. *)
Definition walk_rel (wa : @walk A) (wb : @walk B) : Prop :=
  match wa, wb with
  | Some (oka, sta, a), Some (okb, stb, b) => oka = okb /\ sta = stb /\ R a b
  | None, None => True
  | _, _ => False
  end.

Definition option_rel (oa : option A) (ob : option B) : Prop :=
  match oa, ob with
  | Some a, Some b => R a b
  | None, None => True
  | _, _ => False
  end.

Lemma repeat_walk_rel (ra : JsState -> A -> walk) (rb : JsState -> B -> walk) n :
  (forall st a b, R a b -> walk_rel (ra st a) (rb st b)) ->
  forall ok st a b, R a b ->
  walk_rel (repeat_walk ra n ok st a) (repeat_walk rb n ok st b).
Proof.
  intros Hrec. induction n as [|n IH]; intros ok st a b Hab; simpl; [easy|].
  destruct ok; [|easy].
  specialize (Hrec st a b Hab).
  destruct (ra st a) as [[[oka sta] a']|], (rb st b) as [[[okb stb] b']|]; try easy.
  destruct Hrec as (-> & -> & Hab'). now apply IH.
Qed.

Lemma string_walk_rel fuel h : forall it a b, R a b ->
  option_rel (string_walk f fuel h it a) (string_walk g fuel h it b).
Proof.
  induction fuel as [|fuel IH]; intros it a b Hab; simpl;
    destruct (jsvStringIteratorHasChar it); try easy.
  apply IH. now apply R_step.
Qed.

Lemma bytes_walk_rel len h : forall sit a b, R a b ->
  R (bytes_walk f len h sit a) (bytes_walk g len h sit b).
Proof.
  induction len as [|len IH]; intros sit a b Hab; simpl; [easy|].
  apply IH. now apply R_step.
Qed.

Lemma elements_walk_rel fuel h : forall it a b, R a b ->
  option_rel (elements_walk f fuel h it a) (elements_walk g fuel h it b).
Proof.
  induction fuel as [|fuel IH]; intros it a b Hab; simpl;
    destruct (jsvArrayBufferIteratorHasElement it); try easy.
  destruct (jsvArrayBufferIteratorGetIntegerValue h it uninitialised_data) as [v it'].
  apply IH. now apply R_step.
Qed.

Lemma iterator_walk_rel (ra : JsVar -> JsState -> A -> walk)
    (rb : JsVar -> JsState -> B -> walk) fuel :
  (forall el st a b, R a b -> walk_rel (ra el st a) (rb el st b)) ->
  forall it ok st a b, R a b ->
  walk_rel (iterator_walk ra fuel it ok st a) (iterator_walk rb fuel it ok st b).
Proof.
  intros Hrec. induction fuel as [|fuel IH]; intros it ok st a b Hab; simpl;
    destruct (jsvIteratorHasElement it && ok); try easy.
  destruct (jsvIteratorGetValue (jsHeap st) it) as [[el h] it'].
  specialize (Hrec el (mkState h (jsException st)) a b Hab).
  destruct (ra el _ a) as [[[oka sta] a']|], (rb el _ b) as [[[okb stb] b']|]; try easy.
  destruct Hrec as (-> & -> & Hab'). now apply IH.
Qed.

Lemma jsvIterateCallback_rel fuel : forall data st a b, R a b ->
  walk_rel (jsvIterateCallback f fuel data st a) (jsvIterateCallback g fuel data st b).
Proof.
  induction fuel as [|fuel IH]; intros data st a b Hab; [easy|].
  cbn [jsvIterateCallback].
  destruct (jsvIsNumeric data); [split_and!; auto|].
  destruct (jsvIsObject data).
  { destruct (jsvIsFunction (jsvObjectGetChild data "callback")).
    - destruct (jspExecuteFunction (jsvObjectGetChild data "callback") st) as [result st'].
      destruct (negb (is_null result)); [now apply IH | easy].
    - destruct (negb (is_null (jsvObjectGetChild data "count"))
                && negb (is_null (jsvObjectGetChild data "data"))
                && jsvIsNumeric (jsvObjectGetChild data "count")); [|easy].
      apply repeat_walk_rel; auto. }
  destruct (jsvIsString data).
  { destruct data; try easy.
    destruct (jsvStringIteratorNew fuel (jsHeap st) str 0) as [it|]; [|easy].
    pose proof (string_walk_rel fuel (jsHeap st) it a b Hab) as H.
    destruct (string_walk f fuel (jsHeap st) it a), (string_walk g fuel (jsHeap st) it b);
      easy. }
  destruct (jsvIsArrayBuffer data).
  { destruct (jsvArrayBufferIteratorNew fuel (jsHeap st) uninitialised_it data 0) as [it|];
      [|easy].
    destruct ((JSV_ARRAYBUFFER_GET_SIZE (type it) =? 1)%Z
              && negb (JSV_ARRAYBUFFER_IS_SIGNED (type it))).
    - split_and!; auto. now apply bytes_walk_rel.
    - pose proof (elements_walk_rel fuel (jsHeap st) it a b Hab) as H.
      destruct (elements_walk f fuel (jsHeap st) it a),
               (elements_walk g fuel (jsHeap st) it b); easy. }
  destruct (jsvIsIterable data); [|easy].
  destruct (jsvIteratorNew fuel (jsHeap st) data true) as [it|]; [|easy].
  apply iterator_walk_rel; auto.
Qed.

End Sinks.

(** Whatever the sink, a walk is the walk that records what it emits,
    followed by the sink run over the emitted integers in order. *)
Lemma jsvIterateCallback_emitted_fold {A} (f : Z -> A -> A) fuel x st a :
  jsvIterateCallback f fuel x st a
  = match jsvIterateCallback_emitted fuel x st with
    | Some (ok, st', l) => Some (ok, st', foldl (fun a n => f n a) a l)
    | None => None
    end.
Proof.
  pose proof (jsvIterateCallback_rel f emit
                (fun a' l => a' = foldl (fun a n => f n a) a l)) as H.
  specialize (H (fun n a' l E => eq_trans (f_equal (f n) E)
                   (eq_sym (foldl_snoc _ a l n))) fuel x st a [] eq_refl).
  unfold jsvIterateCallback_emitted.
  destruct (jsvIterateCallback f fuel x st a) as [[[ok st'] a']|],
           (jsvIterateCallback emit fuel x st []) as [[[ok2 st2] l]|]; try easy.
  destruct H as (-> & -> & ->). reflexivity.
Qed.

(** ** The two sinks *)

Lemma CountCb_fold l : forall c : Z,
  (- 2 ^ 31 <= c)%Z -> (c + Z.of_nat (length l) < 2 ^ 31)%Z ->
  foldl (fun c n => jsvIterateCallbackCountCb n c) c l = (c + Z.of_nat (length l))%Z.
Proof.
  induction l as [|n l IH]; intros c Hlo Hhi; simpl in *; [lia|].
  unfold jsvIterateCallbackCountCb at 2. unfold to_int32.
  rewrite Z.mod_small by lia. rewrite IH by lia. lia.
Qed.

Lemma ToBytesCb_idx l : forall d,
  (0 <= idx d < 2 ^ 32)%Z ->
  idx (foldl (fun d n => jsvIterateCallbackToBytesCb n d) d l)
  = ((idx d + Z.of_nat (length l)) mod 2 ^ 32)%Z.
Proof.
  induction l as [|n l IH]; intros d Hd; simpl.
  - rewrite Z.add_0_r, Z.mod_small; lia.
  - rewrite IH by (simpl; apply Z.mod_pos_bound; lia). simpl.
    rewrite Zplus_mod_idemp_l. f_equal. lia.
Qed.

Lemma ToBytesCb_fold l : forall buffer (i s : nat),
  (Z.of_nat i + Z.of_nat (length l) < 2 ^ 32)%Z -> s <= length buffer ->
  foldl (fun d n => jsvIterateCallbackToBytesCb n d)
        (mkToBytesData buffer (Z.of_nat i) (Z.of_nat s)) l
  = mkToBytesData
      (take i buffer ++ map char_of_int (take (s - i) l)
         ++ drop (i + min (s - i) (length l)) buffer)
      (Z.of_nat i + Z.of_nat (length l)) (Z.of_nat s).
Proof.
  induction l as [|n l IH]; intros buffer i s Hi Hs.
  - simpl. rewrite take_nil, Nat.min_0_r, Nat.add_0_r, Z.add_0_r. simpl.
    now rewrite take_drop.
  - cbn [foldl]. unfold jsvIterateCallbackToBytesCb at 2. cbn [idx length_ buf].
    simpl length in Hi.
    replace ((Z.of_nat i + 1) mod 2 ^ 32)%Z with (Z.of_nat (S i))
      by (rewrite Z.mod_small; lia).
    rewrite Nat2Z.id.
    destruct (Z.ltb_spec (Z.of_nat i) (Z.of_nat s)) as [Hlt|Hge].
    + rewrite IH by (rewrite ?length_insert; lia).
      f_equal; [|simpl length; lia].
      replace (s - i) with (S (s - S i)) by lia. cbn [take map].
      rewrite (take_S_r _ _ (char_of_int n)) by (apply list_lookup_insert_eq; lia).
      rewrite take_insert_ge by lia. rewrite <- app_assoc. cbn [app].
      do 3 f_equal. simpl length.
      rewrite drop_insert_lt by lia. f_equal. lia.
    + rewrite IH by lia.
      f_equal; [|simpl length; lia].
      replace (s - S i) with 0 by lia. replace (s - i) with 0 by lia.
      simpl. rewrite !Nat.add_0_r, !take_drop. reflexivity.
Qed.

(** C7 (as amended).  When the walk of [x] emits fewer than 2^32 integers
    [l], to-bytes into a buffer of at least [dataSize] bytes writes the low
    byte of each of the first [min (length l) dataSize] of them, in emission
    order, from the start of the buffer, leaves the rest of the buffer
    (all of it from offset [dataSize] on) as it was, and returns
    [length l], the number of sink invocations; count returns that number
    too when it is below 2^31.  In general to-bytes returns the number of
    sink invocations modulo 2^32. *)
Theorem jsvIterateCallbackToBytes_spec fuel x st buffer dataSize ok st' l :
  jsvIterateCallback_emitted fuel x st = Some (ok, st', l) ->
  (0 <= dataSize)%Z -> Z.to_nat dataSize <= length buffer ->
  (exists buffer',
     jsvIterateCallbackToBytes fuel x buffer dataSize st
     = Some ((Z.of_nat (length l) mod 2 ^ 32)%Z, buffer', st')) /\
  ((Z.of_nat (length l) < 2 ^ 32)%Z ->
     jsvIterateCallbackToBytes fuel x buffer dataSize st
     = Some (Z.of_nat (length l),
             map char_of_int (take (Z.to_nat dataSize) l)
               ++ drop (min (Z.to_nat dataSize) (length l)) buffer,
             st')) /\
  ((Z.of_nat (length l) < 2 ^ 31)%Z ->
     jsvIterateCallbackCount fuel x st = Some (Z.of_nat (length l), st')).
Proof.
  intros Hemit Hsize Hbuf. split_and!.
  - unfold jsvIterateCallbackToBytes.
    rewrite jsvIterateCallback_emitted_fold, Hemit.
    eexists. rewrite ToBytesCb_idx by (simpl; lia). reflexivity.
  - intros Hlen. unfold jsvIterateCallbackToBytes.
    rewrite jsvIterateCallback_emitted_fold, Hemit.
    pose proof (ToBytesCb_fold l buffer 0 (Z.to_nat dataSize)) as H.
    rewrite Z2Nat.id in H by lia. change (Z.of_nat 0) with 0%Z in H.
    rewrite H by (simpl; lia).
    cbn [idx buf]. rewrite Nat.sub_0_r, take_0. reflexivity.
  - intros Hlen. unfold jsvIterateCallbackCount.
    rewrite jsvIterateCallback_emitted_fold, Hemit.
    rewrite CountCb_fold by lia. reflexivity.
Qed.

Lemma walk_times_const {A} (rec : JsState -> A -> walk) (F : A -> A) st n : forall a,
  (forall a, rec st a = Some (true, st, F a)) ->
  walk_times rec n st a = Some (true, st, Nat.iter n F a).
Proof.
  intros a Hrec. revert a. induction n as [|n IH]; intros a; [reflexivity|].
  cbn [walk_times]. rewrite Hrec, IH. f_equal. f_equal.
  clear. induction n as [|n IH]; simpl; [reflexivity|]. now rewrite IH.
Qed.

Lemma length_iter_grow {A} (F : list A -> list A) k n :
  (forall a, length (F a) = length a + k) ->
  forall a, length (Nat.iter n F a) = length a + n * k.
Proof.
  intros HF. induction n as [|n IH]; intros a; simpl; [lia|].
  rewrite HF, IH. lia.
Qed.

Lemma to_int32_small z : (- 2 ^ 31 <= z < 2 ^ 31)%Z -> to_int32 z = z.
Proof. intros H. unfold to_int32. rewrite Z.mod_small; lia. Qed.

End WalkerProperties.

(** ** The walker on examples *)

Lemma jsvIterateCallback_object_witness :
  let st := mkState (mkHeap [] 0) None in
  let data := JsObject [JsName (KeyString "data") (JsInt 7);
                        JsName (KeyString "count") (JsInt 3)] in
  jsvIterateCallback (machine := example_machine) emit 2 data st []
  = walk_times (jsvIterateCallback (machine := example_machine) emit 1 (JsInt 7)) 3 st [].
Proof.
  intros st data.
  destruct (jsvIterateCallback_object (machine := example_machine) emit 1 data st []
              eq_refl) as (_ & H & _).
  apply H; reflexivity.
Defined.

Lemma jsvIterateCallback_count_not_positive_witness :
  let st := mkState (mkHeap [] 0) None in
  let data := JsObject [JsName (KeyString "data") (JsInt 7);
                        JsName (KeyString "count") (JsInt (-2))] in
  jsvIterateCallback (machine := example_machine) emit 1 data st [] = Some (true, st, []) /\
  jsvIterateCallbackCount (machine := example_machine) 1 data st = Some (0%Z, st).
Proof.
  intros st data.
  destruct (jsvIterateCallback_count_not_positive (machine := example_machine) 0 data st)
    as (Hwalk & Hcount & _); try reflexivity.
  - vm_compute. discriminate.
  - split; [apply Hwalk | exact Hcount].
Defined.

Lemma jsvIterateCallbackToBytes_spec_witness :
  let st := mkState (mkHeap [mkCell ["a"; "b"; "c"; "d"]%byte 4 2;
                             mkCell ["e"; "f"; "g"; "h"]%byte 4 3;
                             mkCell ["i"; "j"; x00; x00]%byte 2 0] 3) None in
  jsvIterateCallbackToBytes (machine := example_machine) 11 (JsString 1)
    (replicate 6 x00) 4 st
  = Some (10%Z, ["a"; "b"; "c"; "d"; x00; x00]%byte, st).
Proof.
  intros st.
  destruct (jsvIterateCallbackToBytes_spec (machine := example_machine) 11 (JsString 1) st
              (replicate 6 x00) 4 true st [97; 98; 99; 100; 101; 102; 103; 104; 105; 106]%Z)
    as (_ & H & _).
  - reflexivity.
  - lia.
  - simpl. lia.
  - apply H. simpl. lia.
Defined.

Lemma walk_repeat_string c :
  (0 <= c < 2 ^ 31)%Z ->
  let st := mkState (mkHeap [mkCell ["a"; "b"; "c"; x00]%byte 3 0] 1) None in
  let x := JsObject [JsName (KeyString "data") (JsString 1);
                     JsName (KeyString "count") (JsInt c)] in
  jsvIterateCallback_emitted (machine := example_machine) 5 x st
  = Some (true, st,
          Nat.iter (Z.to_nat c) (fun a => ((a ++ [97]) ++ [98]) ++ [99])%Z []).
Proof.
  intros Hc st x. unfold jsvIterateCallback_emitted.
  rewrite walk_object_data_count by reflexivity.
  change (jsvGetInteger (jsvObjectGetChild x "count")) with c.
  rewrite to_int32_small by lia.
  apply walk_times_const. intros a. reflexivity.
Qed.

(** C7 fails as stated: a walk that invokes the sink 3 * (2^31 - 1) times
    makes to-bytes return that number modulo 2^32. *)
Lemma jsvIterateCallbackToBytes_wraps :
  let st := mkState (mkHeap [mkCell ["a"; "b"; "c"; x00]%byte 3 0] 1) None in
  let x := JsObject [JsName (KeyString "data") (JsString 1);
                     JsName (KeyString "count") (JsInt 2147483647)] in
  exists st' l buffer',
    jsvIterateCallback_emitted (machine := example_machine) 5 x st = Some (true, st', l) /\
    Z.of_nat (length l) = 6442450941%Z /\
    jsvIterateCallbackToBytes (machine := example_machine) 5 x [x00] 1 st
    = Some (2147483645%Z, buffer', st').
Proof.
  intros st x.
  pose proof (walk_repeat_string 2147483647 ltac:(lia)) as Hemit.
  cbv zeta in Hemit.
  match type of Hemit with _ = Some (_, _, ?l0) =>
    assert (Hlen : Z.of_nat (length l0) = 6442450941%Z)
  end.
  { rewrite (length_iter_grow _ 3)
      by (intros a; rewrite !length_app; cbn [length]; lia).
    cbn [length]. lia. }
  eexists st, _, _. split; [exact Hemit|]. split; [exact Hlen|].
  unfold jsvIterateCallbackToBytes.
  rewrite jsvIterateCallback_emitted_fold. subst st x. rewrite Hemit.
  rewrite ToBytesCb_idx by (cbn [idx]; lia). rewrite Hlen. reflexivity.
Qed.

(** ** The full-array overlay *)

Section FullArray.

Context {machine : Machine}.

Lemma array_child_below from children i :
  ascending_keys from children -> (i < from)%Z -> array_child children i = None.
Proof.
  revert from. induction children as [|name rest IH]; intros from Hasc Hi; [reflexivity|].
  simpl in Hasc. unfold array_child. simpl.
  destruct (name_key name) as [k|]; [|destruct Hasc]. destruct Hasc as [Hk Hrest].
  replace (k =? i)%Z with false by (symmetry; apply Z.eqb_neq; lia).
  apply (IH (k + 1)%Z); [exact Hrest | lia].
Qed.

Lemma integerish_name_key name :
  jsvIsIntegerish_name (Some name) = true <-> name_key name = Some (jsvGetInteger_name (Some name)).
Proof. destruct name as [[i|s] v|i v]; simpl; split; congruence. Qed.

(** What the overlay reads at [index] when the object cursor [oit] holds
    the children not yet passed. *)
Lemma FULLARRAY_get index var oit h :
  ascending_keys index oit ->
  jsvIteratorGetValue h (JSVI_FULLARRAY index var oit)
  = (array_value oit index, h, JSVI_FULLARRAY index var oit) /\
  jsvIteratorGetIntegerValue h (JSVI_FULLARRAY index var oit)
  = (array_integer oit index, JSVI_FULLARRAY index var oit).
Proof.
  intros Hasc. unfold array_value, array_integer, array_child.
  destruct oit as [|name rest]; [split; reflexivity|].
  simpl in Hasc. cbn [jsvIteratorGetValue jsvIteratorGetIntegerValue head List.find].
  destruct name as [[k|s] v|k v]; cbn [name_key] in *; try (destruct Hasc; fail);
    destruct Hasc as [Hk Hrest]; cbn [jsvIsIntegerish_name jsvIsNameInt jsvGetInteger_name andb].
  - destruct (Z.eqb_spec k index) as [->|Hne]; [split; reflexivity|].
    fold (array_child rest index).
    rewrite (array_child_below (k + 1) rest index) by (auto; lia). split; reflexivity.
  - destruct (Z.eqb_spec k index) as [->|Hne]; [split; reflexivity|].
    fold (array_child rest index).
    rewrite (array_child_below (k + 1) rest index) by (auto; lia). split; reflexivity.
Qed.

Lemma FULLARRAY_next index var oit h :
  ascending_keys index oit -> (index + 1 < 2 ^ 31)%Z -> (- 2 ^ 31 <= index + 1)%Z ->
  exists oit',
    jsvIteratorNext h (JSVI_FULLARRAY index var oit) = JSVI_FULLARRAY (index + 1) var oit' /\
    ascending_keys (index + 1) oit' /\
    forall i, (index < i)%Z -> array_child oit' i = array_child oit i.
Proof.
  intros Hasc Hhi Hlo. cbn [jsvIteratorNext]. rewrite to_int32_small by lia.
  destruct oit as [|name rest]; [exists []; now split_and!|].
  simpl in Hasc. destruct (name_key name) as [k|] eqn:Hkey; [|destruct Hasc].
  destruct Hasc as [Hk Hrest].
  assert (Hint : jsvIsIntegerish_name (Some name) = true /\ jsvGetInteger_name (Some name) = k).
  { destruct name as [[i|s] v|i v]; simpl in *; try discriminate; split; congruence. }
  destruct Hint as [Hint Hget]. cbn [head]. rewrite Hint, Hget. cbn [andb].
  destruct (Z.ltb_spec k (index + 1)) as [Hlt|Hge].
  - assert (k = index) as -> by lia.
    exists rest. split_and!; auto.
    intros i Hi. unfold array_child. simpl. rewrite Hkey.
    now replace (index =? i)%Z with false by (symmetry; apply Z.eqb_neq; lia).
  - exists (name :: rest). split_and!; auto. simpl. rewrite Hkey. split; [lia | exact Hrest].
Qed.

Lemma FULLARRAY_enumerate h var k : forall fuel index oit,
  ascending_keys index oit ->
  (0 <= index)%Z -> (index + Z.of_nat k = jsvGetArrayLength var)%Z ->
  (jsvGetArrayLength var < 2 ^ 31)%Z -> k <= fuel ->
  jsvIteratorIntegers fuel h (JSVI_FULLARRAY index var oit)
  = Some (map (array_integer oit) (seqZ index (Z.of_nat k))) /\
  jsvIteratorValues fuel h (JSVI_FULLARRAY index var oit)
  = Some (map (array_value oit) (seqZ index (Z.of_nat k))).
Proof.
  induction k as [|k IH]; intros fuel index oit Hasc Hidx Hlen Hmax Hfuel.
  - assert (Hend : jsvIteratorHasElement (JSVI_FULLARRAY index var oit) = false)
      by (simpl; apply Z.ltb_ge; lia).
    destruct fuel; simpl jsvIteratorIntegers; simpl jsvIteratorValues;
      simpl in Hend; rewrite Hend; split; reflexivity.
  - destruct fuel as [|fuel]; [lia|].
    assert (Hhas : jsvIteratorHasElement (JSVI_FULLARRAY index var oit) = true)
      by (simpl; apply Z.ltb_lt; lia).
    destruct (FULLARRAY_get index var oit h Hasc) as [Hval Hint].
    destruct (FULLARRAY_next index var oit h Hasc) as (oit' & Hnext & Hasc' & Hsame);
      try lia.
    destruct (IH fuel (index + 1)%Z oit' Hasc') as [IHint IHval]; try lia.
    rewrite seqZ_cons by lia. cbn [map].
    replace (Z.pred (Z.of_nat (S k))) with (Z.of_nat k) by lia.
    replace (Z.succ index) with (index + 1)%Z by lia.
    assert (Hin : forall i, In i (seqZ (index + 1) (Z.of_nat k)) ->
               array_child oit' i = array_child oit i).
    { intros i Hi. apply list_elem_of_In, elem_of_seqZ in Hi. apply Hsame. lia. }
    split.
    + cbn [jsvIteratorIntegers]. rewrite Hhas, Hint, Hnext, IHint.
      do 2 f_equal. apply map_ext_in. intros i Hi.
      unfold array_integer. now rewrite Hin.
    + cbn [jsvIteratorValues]. rewrite Hhas, Hval, Hnext, IHval.
      do 2 f_equal. apply map_ext_in. intros i Hi.
      unfold array_value. now rewrite Hin.
Qed.

(** C6.  A unified cursor created over an array with the FULL-ARRAY flag.
    At each step, get-value returns the current child's value when that
    child's integer key equals the external index and null otherwise,
    get-integer and get-float then returning 0 and NaN; next increments the
    external index and advances the object cursor only when its key is
    below the new index.  With the children stored in ascending order of
    their non-negative integer keys, the cursor enumerates the indices
    0 .. length-1, yielding at each the value stored for it or the hole;
    so the array of length 5 with 10 at index 0 and 30 at index 3 yields
    the integers 10, 0, 0, 30, 0. *)
Theorem jsvIterator_full_array h length children fuel :
  let var := JsArray length children in
  jsvIteratorNew fuel h var true = Some (JSVI_FULLARRAY 0 var children) /\
  (forall index oit,
     let it := JSVI_FULLARRAY index var oit in
     let key_is_index :=
       jsvIsIntegerish_name (head oit) && (jsvGetInteger_name (head oit) =? index)%Z in
     jsvIteratorHasElement it = (index <? length)%Z /\
     jsvIteratorGetValue h it
     = (if key_is_index then jsvObjectIteratorGetValue oit else JsUndefined, h, it) /\
     (key_is_index = false ->
        jsvIteratorGetIntegerValue h it = (0%Z, it) /\
        jsvIteratorGetFloatValue h it = (NAN, it)) /\
     jsvIteratorNext h it
     = JSVI_FULLARRAY (to_int32 (index + 1)) var
         (if jsvIsIntegerish_name (head oit)
             && (jsvGetInteger_name (head oit) <? to_int32 (index + 1))%Z
          then jsvObjectIteratorNext oit else oit)) /\
  (ascending_keys 0 children -> (0 <= length < 2 ^ 31)%Z -> Z.to_nat length <= fuel ->
     jsvIteratorIntegers fuel h (JSVI_FULLARRAY 0 var children)
     = Some (map (array_integer children) (seqZ 0 length)) /\
     jsvIteratorValues fuel h (JSVI_FULLARRAY 0 var children)
     = Some (map (array_value children) (seqZ 0 length))) /\
  jsvIteratorIntegers 5 h (JSVI_FULLARRAY 0 (JsArray 5 [JsNameInt 0 10; JsNameInt 3 30])
                             [JsNameInt 0 10; JsNameInt 3 30])
  = Some [10; 0; 0; 30; 0]%Z.
Proof.
  intros var. split_and!.
  - reflexivity.
  - intros index oit it key_is_index. subst it key_is_index. split_and!.
    + reflexivity.
    + cbn [jsvIteratorGetValue].
      now destruct (jsvIsIntegerish_name (head oit)
                    && (jsvGetInteger_name (head oit) =? index)%Z).
    + intros Hhole. cbn [jsvIteratorGetIntegerValue jsvIteratorGetFloatValue].
      rewrite Hhole.
      assert (Hni : jsvIsNameInt (head oit)
                    && (jsvGetInteger_name (head oit) =? index)%Z = false).
      { destruct (head oit) as [[[i|s] v|i v]|]; simpl in *; auto. }
      now rewrite Hni.
    + cbn [jsvIteratorNext].
      now destruct (jsvIsIntegerish_name (head oit)
                    && (jsvGetInteger_name (head oit) <? to_int32 (index + 1))%Z).
  - intros Hasc Hlen Hfuel.
    pose proof (FULLARRAY_enumerate h var (Z.to_nat length) fuel 0 children Hasc) as H.
    rewrite Z2Nat.id in H by lia. apply H; simpl; lia.
  - reflexivity.
Qed.

End FullArray.

Lemma jsvIterator_full_array_witness :
  jsvIteratorValues (machine := example_machine) 5 (mkHeap [] 0)
    (JSVI_FULLARRAY 0 (JsArray 5 [JsNameInt 0 10; JsName (KeyInt 3) (JsInt 30)])
       [JsNameInt 0 10; JsName (KeyInt 3) (JsInt 30)])
  = Some [JsInt 10; JsUndefined; JsUndefined; JsInt 30; JsUndefined].
Proof.
  destruct (jsvIterator_full_array (machine := example_machine) (mkHeap [] 0) 5
              [JsNameInt 0 10; JsName (KeyInt 3) (JsInt 30)] 5) as (_ & _ & H & _).
  destruct H as [_ H].
  - simpl. lia.
  - lia.
  - simpl. lia.
  - exact H.
Defined.

(** ** The typed-view cursor: the undefined state *)

Lemma size_t_small z : (0 <= z < 2 ^ 32)%Z -> size_t z = z.
Proof. intros H. unfold size_t. now rewrite Z.mod_small. Qed.

Lemma size_t_range z : (0 <= size_t z < 2 ^ 32)%Z.
Proof. unfold size_t. apply Z.mod_pos_bound. lia. Qed.

Lemma HasElement_defined it :
  type it <> ARRAYBUFFERVIEW_UNDEFINED ->
  (0 <= byteOffset it)%Z ->
  (byteOffset it + JSV_ARRAYBUFFER_GET_SIZE (type it) < 2 ^ 32)%Z ->
  jsvArrayBufferIteratorHasElement it = true <->
  (byteOffset it + JSV_ARRAYBUFFER_GET_SIZE (type it) <= byteLength it)%Z
  \/ hasAccessedElement it = true.
Proof.
  intros Hdef Hlo Hhi. unfold jsvArrayBufferIteratorHasElement.
  replace (type it =? ARRAYBUFFERVIEW_UNDEFINED)%Z with false
    by (symmetry; now apply Z.eqb_neq).
  assert (0 <= JSV_ARRAYBUFFER_GET_SIZE (type it))%Z
    by (apply Z.land_nonneg; right; unfold ARRAYBUFFERVIEW_MASK_SIZE; lia).
  rewrite size_t_small by lia.
  destruct (hasAccessedElement it); [tauto|].
  rewrite Z.leb_le. intuition discriminate.
Qed.

Lemma New_undefined fuel h it tag len offset backing idx :
  let width := JSV_ARRAYBUFFER_GET_SIZE tag in
  let first := (offset + idx * width)%Z in
  let last := (offset + len * width)%Z in
  (0 <= first < 2 ^ 32)%Z -> (0 <= last < 2 ^ 32)%Z ->
  (0 <= len * width < 2 ^ 32)%Z -> (width <= last + 1)%Z ->
  (last < first + width)%Z ->
  jsvArrayBufferIteratorNew fuel h it (JsArrayBuffer tag len offset backing) idx
  = Some (mkArrayBufferIterator (strIt it) ARRAYBUFFERVIEW_UNDEFINED last first idx
            (hasAccessedElement it)).
Proof.
  intros width first last Hfirst Hlast Hlw Hunder Hpast.
  assert (0 <= width)%Z
    by (apply Z.land_nonneg; right; unfold ARRAYBUFFERVIEW_MASK_SIZE; lia).
  unfold jsvArrayBufferIteratorNew. fold width.
  rewrite (size_t_small (len * width)) by lia.
  replace (len * width + offset)%Z with last by (unfold last; lia).
  rewrite (size_t_small last) by lia.
  fold first. rewrite (size_t_small first) by lia.
  rewrite (size_t_small (last + 1 - width)) by lia.
  now replace (last + 1 - width <=? first)%Z with true by (symmetry; apply Z.leb_le; lia).
Qed.

(** In the undefined state nothing is read or written, and the byte offset
    and the inner cursor stay where they are; [next] still counts. *)
Lemma undefined_state_operations h it :
  type it = ARRAYBUFFERVIEW_UNDEFINED -> (0 <= byteOffset it < 2 ^ 32)%Z ->
  jsvArrayBufferIteratorHasElement it = false /\
  (forall data, jsvArrayBufferIteratorGetValue h it data = (JsUndefined, it)) /\
  (forall data, jsvArrayBufferIteratorGetIntegerValue h it data = (0%Z, it)) /\
  (forall data, jsvArrayBufferIteratorGetFloatValue h it data = (float_of_int 0, it)) /\
  (forall v data, jsvArrayBufferIteratorSetIntegerValue h it v data = (h, it)) /\
  (forall value data, jsvArrayBufferIteratorSetValue h it value data = (h, it)) /\
  (forall c, jsvArrayBufferIteratorSetByteValue h it c = h) /\
  jsvArrayBufferIteratorFree it = it /\
  jsvArrayBufferIteratorNext h it
  = mkArrayBufferIterator (strIt it) (type it) (byteLength it) (byteOffset it)
      (size_t (index it + 1)) false.
Proof.
  intros Hundef Hoff.
  unfold jsvArrayBufferIteratorHasElement, jsvArrayBufferIteratorGetValue,
    jsvArrayBufferIteratorGetIntegerValue, jsvArrayBufferIteratorGetFloatValue,
    jsvArrayBufferIteratorSetIntegerValue, jsvArrayBufferIteratorSetValue,
    jsvArrayBufferIteratorSetByteValue, jsvArrayBufferIteratorFree,
    jsvArrayBufferIteratorNext.
  rewrite Hundef. cbn. rewrite Z.add_0_r, size_t_small by lia.
  split_and!; try reflexivity. now destruct (hasAccessedElement it).
Qed.

(** C8 (as amended).  For a typed-view cursor that is not in the undefined
    state, has-element is true iff [byteOffset + width <= byteEnd] or
    [hasAccessedElement] is set.  A cursor constructed at an index whose
    element does not fit before the end of the view (in particular, one
    whose starting byte lies at or past the end), the view's end being at
    least [width - 1], enters the undefined state: there has-element is
    false, get, set and free do nothing, and next leaves the byte offset
    and the inner cursor alone, only incrementing the logical index and
    clearing the flag. *)
Theorem jsvArrayBufferIterator_undefined_state :
  (forall it,
     type it <> ARRAYBUFFERVIEW_UNDEFINED ->
     (0 <= byteOffset it)%Z ->
     (byteOffset it + JSV_ARRAYBUFFER_GET_SIZE (type it) < 2 ^ 32)%Z ->
     jsvArrayBufferIteratorHasElement it = true <->
     (byteOffset it + JSV_ARRAYBUFFER_GET_SIZE (type it) <= byteLength it)%Z
     \/ hasAccessedElement it = true) /\
  (forall fuel h it0 tag len offset backing idx,
     let width := JSV_ARRAYBUFFER_GET_SIZE tag in
     let first := (offset + idx * width)%Z in
     let last := (offset + len * width)%Z in
     (0 <= first < 2 ^ 32)%Z -> (0 <= last < 2 ^ 32)%Z ->
     (0 <= len * width < 2 ^ 32)%Z -> (width <= last + 1)%Z ->
     (last < first + width)%Z ->
     exists it,
       jsvArrayBufferIteratorNew fuel h it0 (JsArrayBuffer tag len offset backing) idx
       = Some it /\
       type it = ARRAYBUFFERVIEW_UNDEFINED /\
       jsvArrayBufferIteratorHasElement it = false /\
       (forall data, jsvArrayBufferIteratorGetValue h it data = (JsUndefined, it)) /\
       (forall data, jsvArrayBufferIteratorGetIntegerValue h it data = (0%Z, it)) /\
       (forall data, jsvArrayBufferIteratorGetFloatValue h it data = (float_of_int 0, it)) /\
       (forall v data, jsvArrayBufferIteratorSetIntegerValue h it v data = (h, it)) /\
       (forall value data, jsvArrayBufferIteratorSetValue h it value data = (h, it)) /\
       (forall c, jsvArrayBufferIteratorSetByteValue h it c = h) /\
       jsvArrayBufferIteratorFree it = it /\
       jsvArrayBufferIteratorNext h it
       = mkArrayBufferIterator (strIt it) (type it) (byteLength it) (byteOffset it)
           (size_t (index it + 1)) false).
Proof.
  split; [exact HasElement_defined|].
  intros fuel h it0 tag len offset backing idx width first last
    Hfirst Hlast Hlw Hunder Hpast.
  eexists. split; [now apply New_undefined|].
  split; [reflexivity|].
  apply undefined_state_operations; [reflexivity | exact Hfirst].
Qed.

Lemma jsvArrayBufferIterator_undefined_state_witness :
  let h := mkHeap [mkCell ["a"; "b"; "c"; "d"]%byte 4 0] 1 in
  let it0 := mkArrayBufferIterator (mkStringIterator 0 0 0 0 0) 0 0 0 0 false in
  exists it,
    jsvArrayBufferIteratorNew 1 h it0 (JsArrayBuffer 2 2 0 1) 2 = Some it /\
    jsvArrayBufferIteratorHasElement it = false /\
    jsvArrayBufferIteratorSetIntegerValue h it 7 (replicate 8 x00) = (h, it) /\
    (jsvArrayBufferIteratorHasElement
       (mkArrayBufferIterator (mkStringIterator 0 4 0 1 1) 2 4 2 1 false) = true <->
     (2 + 2 <= 4)%Z \/ false = true).
Proof.
  intros h it0.
  destruct jsvArrayBufferIterator_undefined_state as [Hiff Hnew].
  destruct (Hnew 1 h it0 2%Z 2%Z 0%Z 1 2%Z
              ltac:(vm_compute; intuition discriminate)
              ltac:(vm_compute; intuition discriminate)
              ltac:(vm_compute; intuition discriminate)
              ltac:(vm_compute; intuition discriminate)
              ltac:(vm_compute; intuition discriminate))
    as (it & Hit & _ & Hhas & _ & _ & _ & Hset & _).
  exists it. split_and!; auto.
  apply (Hiff (mkArrayBufferIterator (mkStringIterator 0 4 0 1 1) 2 4 2 1 false));
    vm_compute; congruence.
Defined.

(** C8 fails as stated.  A cursor on a one-element 16-bit view made at
    index 1 is in the undefined state: has-element is false although
    [byteOffset + width <= byteEnd] (the width of the undefined type being
    0), and next is not a no-op, since it increments the index.  And a
    cursor on an empty 16-bit view made at index 1, whose starting byte 2
    lies past the end 0, does not enter the undefined state. *)
Lemma jsvArrayBufferIterator_undefined_state_fails :
  let h := mkHeap [mkCell ["a"; "b"; "c"; "d"]%byte 4 0] 1 in
  let it0 := mkArrayBufferIterator (mkStringIterator 0 0 0 0 0) 0 0 0 0 false in
  (exists it,
     jsvArrayBufferIteratorNew 1 h it0 (JsArrayBuffer 2 1 0 1) 1 = Some it /\
     type it = ARRAYBUFFERVIEW_UNDEFINED /\
     jsvArrayBufferIteratorHasElement it = false /\
     (byteOffset it + JSV_ARRAYBUFFER_GET_SIZE (type it) <= byteLength it)%Z /\
     jsvArrayBufferIteratorNext h it <> it) /\
  (exists it,
     jsvArrayBufferIteratorNew 1 h it0 (JsArrayBuffer 2 0 0 1) 1 = Some it /\
     type it <> ARRAYBUFFERVIEW_UNDEFINED).
Proof.
  intros h it0. split; eexists; (split; [reflexivity|]);
    vm_compute; repeat split; congruence.
Qed.

(** ** Positions of a string cursor *)

Lemma is_chain_frame h h' l : forall r,
  is_chain h r l ->
  (forall x, x ∈ l -> jsvLock h' x.1 = jsvLock h x.1) ->
  is_chain h' r l.
Proof.
  induction l as [|x l IH]; intros r H Hsame; [destruct H|].
  destruct (is_chain_head _ _ _ _ H) as [Hx Hlock].
  assert (Hlock' : jsvLock h' r = Some x.2).
  { rewrite <- Hlock, <- Hx. apply Hsame. apply elem_of_cons. now left. }
  destruct l as [|y l].
  - split_and!; auto. apply (is_chain_single _ _ _ H).
  - destruct (is_chain_tail _ _ _ _ _ H) as [Hlc H'].
    apply is_chain_cons_intro; auto; try discriminate.
    apply IH; auto. intros z Hz. apply Hsame. apply elem_of_cons. now right.
Qed.

Lemma is_chain_replace_suffix h h' l0 : forall r rv l1 l1',
  is_chain h r (l0 ++ rv :: l1) ->
  (forall x, x ∈ l0 -> jsvLock h' x.1 = jsvLock h x.1) ->
  is_chain h' rv.1 l1' ->
  is_chain h' r (l0 ++ l1').
Proof.
  induction l0 as [|x l0 IH]; intros r rv l1 l1' H Hsame H1.
  - simpl in *. destruct H as [<- _]. exact H1.
  - change ((x :: l0) ++ rv :: l1) with (x :: (l0 ++ rv :: l1)) in H.
    destruct (is_chain_head _ _ _ _ H) as [Hx Hlock].
    destruct (is_chain_tail' _ _ _ _ H (app_cons_not_nil' _ _ _)) as [Hlc H'].
    change ((x :: l0) ++ l1') with (x :: (l0 ++ l1')).
    apply is_chain_cons_intro; auto.
    + rewrite <- Hlock, <- Hx. apply Hsame. apply elem_of_cons. now left.
    + destruct l1'; [destruct H1|]. destruct l0; discriminate.
    + apply (IH _ rv l1); auto. intros y Hy. apply Hsame. apply elem_of_cons. now right.
Qed.

Lemma is_chain_store_cell h str l0 rv l1 v' :
  is_chain h str (l0 ++ rv :: l1) -> lastChild v' = lastChild rv.2 ->
  is_chain (jsvStore h rv.1 v') str (l0 ++ (rv.1, v') :: l1).
Proof.
  intros H Hlc. pose proof (is_chain_NoDup _ _ _ H) as Hnd.
  rewrite map_app in Hnd. apply NoDup_app in Hnd as (_ & Hdisj & Hnd1).
  simpl in Hnd1. apply NoDup_cons in Hnd1 as [Hnotin _].
  pose proof (is_chain_suffix _ _ _ _ _ H) as Hsuf.
  destruct (is_chain_head _ _ _ _ Hsuf) as [_ Hlock].
  eapply is_chain_replace_suffix; [exact H | |].
  - intros x Hx. apply jsvLock_store_ne. intros E.
    apply (Hdisj x.1); [apply list_elem_of_fmap; eauto|].
    simpl. rewrite E. apply elem_of_cons. now left.
  - destruct l1 as [|y l1].
    + split_and!; auto; cbn [fst snd].
      * eapply jsvLock_store_eq; eauto.
      * rewrite Hlc. apply (is_chain_single _ _ _ Hsuf).
    + destruct (is_chain_tail _ _ _ _ _ Hsuf) as [Hne Hrest].
      apply is_chain_cons_intro; cbn [fst snd]; auto; try discriminate.
      * eapply jsvLock_store_eq; eauto.
      * now rewrite Hlc.
      * rewrite Hlc. apply (is_chain_frame h); auto.
        intros x Hx. apply jsvLock_store_ne. intros E. apply Hnotin.
        apply list_elem_of_fmap. exists x. split; [now symmetry | exact Hx].
Qed.

Lemma cursor_pos_lt h l it p :
  chain_inv l -> cursor_pos h l it p -> p < length (chain_chars l) ->
  exists l0 rv l1,
    l = l0 ++ rv :: l1 /\ cursor_on h (rv :: l1) it /\ charIdx it < charsInVar it /\
    varIndex it = length (chain_chars l0) /\ p = varIndex it + charIdx it /\
    charsInVar it = charactersInVar rv.2 /\
    charactersInVar rv.2 <= length (varData_str rv.2).
Proof.
  intros Hinv [(l0 & l1 & Hl & Hcur & Hlt & Hvi & Hp) | [_ Hp]] Hlen; [|lia].
  destruct l1 as [|rv l1]; [destruct Hcur as [[] _]|].
  exists l0, rv, l1. split_and!; auto.
  - apply Hcur.
  - rewrite Hl in Hinv. apply chain_inv_app_r in Hinv; [|discriminate].
    apply (chain_inv_fit _ _ Hinv).
Qed.

Lemma cursor_pos_index h l it p :
  cursor_pos h l it p -> jsvStringIteratorGetIndex it = p.
Proof.
  unfold jsvStringIteratorGetIndex.
  intros [(l0 & l1 & _ & _ & _ & _ & ->) | [-> ->]]; simpl; lia.
Qed.

Lemma New_pos h str l fuel p :
  is_chain h str l -> chain_inv l -> length l <= fuel ->
  p <= length (chain_chars l) -> 0 < length (chain_chars l) ->
  exists it, jsvStringIteratorNew fuel h str p = Some it /\ cursor_pos h l it p.
Proof.
  intros Hch Hinv Hfuel Hp Hlen.
  destruct l as [|rv l]; [destruct Hch|].
  pose proof (cursor_on_root _ _ _ _ Hch p) as Hcur.
  unfold jsvStringIteratorNew.
  destruct (Nat.lt_ge_cases p (length (chain_chars (rv :: l)))) as [Hlt|Hge].
  - destruct (New_loop_inside _ h p _ fuel Hcur Hinv Hlt Hfuel)
      as (l0 & l1 & it & Hrun & Hl & Hcur' & Hlt' & Hidx & Hvi).
    exists it. split; [exact Hrun|]. left. exists l0, l1.
    cbn [charIdx varIndex] in Hidx, Hvi. split_and!; auto. lia.
  - destruct (New_loop_beyond _ h p _ fuel Hcur Hinv) as
      (it & Hrun & Hv & Hp' & Hc & Hidx & Hvi); cbn [charIdx]; try lia.
    exists it. split; [exact Hrun|]. right. cbn [charIdx] in Hidx.
    split; [|lia]. destruct it; simpl in *. f_equal; lia.
Qed.

Lemma Next_pos h l it p :
  chain_inv l -> cursor_pos h l it p -> p < length (chain_chars l) ->
  cursor_pos h l (jsvStringIteratorNext h it) (S p).
Proof.
  intros Hinv Hpos Hlen.
  destruct (cursor_pos_lt _ _ _ _ Hinv Hpos Hlen)
    as (l0 & rv & l1 & Hl & Hcur & Hlt & Hvi & Hp & Hn & Hfit).
  pose proof (cursor_on_ptr _ _ _ _ Hcur) as Hptr0.
  destruct Hcur as (Hch & Hptr & _).
  unfold jsvStringIteratorNext, jsvStringIteratorNextInline.
  destruct (Nat.leb_spec (charsInVar it) (S (charIdx it))) as [Hge|Hlt'].
  - rewrite (is_chain_lastChild _ _ _ _ Hch).
    replace (var it =? 0) with false
      by (symmetry; apply Nat.eqb_neq; rewrite <- Hptr; exact Hptr0).
    assert (Hcons : length (chain_chars (l0 ++ [rv])) = varIndex it + charsInVar it).
    { rewrite chain_chars_app, length_app, length_chain_chars_cons by exact Hfit.
      simpl. lia. }
    destruct l1 as [|rv' l1].
    + rewrite (is_chain_single _ _ _ Hch). simpl. right.
      rewrite Hl, Hcons. split; [reflexivity | lia].
    + destruct (is_chain_tail _ _ _ _ _ Hch) as [Hlc Hch'].
      replace (lastChild rv.2 =? 0) with false by (symmetry; now apply Nat.eqb_neq).
      cbn [negb andb]. left. exists (l0 ++ [rv]), (rv' :: l1).
      assert (Hinv1 : chain_inv (rv :: rv' :: l1))
        by (rewrite Hl in Hinv; apply (chain_inv_app_r l0); [exact Hinv | discriminate]).
      destruct (chain_inv_nonempty _ _ _ Hinv1) as [_ Hpos'].
      cbn [charIdx charsInVar varIndex]. split_and!.
      * now rewrite <- app_assoc.
      * split_and!; cbn; auto. apply (is_chain_charactersInVar _ _ _ _ Hch').
      * rewrite (is_chain_charactersInVar _ _ _ _ Hch'). exact Hpos'.
      * now rewrite Hcons.
      * lia.
  - left. exists l0, (rv :: l1). unfold set_charIdx. cbn. split_and!; auto; try lia.
    split_and!; auto.
Qed.

Lemma GetChar_pos h l it p :
  chain_inv l -> cursor_pos h l it p -> p < length (chain_chars l) ->
  chain_chars l !! p = Some (jsvStringIteratorGetChar h it).
Proof.
  intros Hinv Hpos Hlen.
  destruct (cursor_pos_lt _ _ _ _ Hinv Hpos Hlen)
    as (l0 & rv & l1 & Hl & Hcur & Hlt & Hvi & Hp & Hn & Hfit).
  unfold jsvStringIteratorGetChar.
  replace (ptr it =? 0) with false
    by (symmetry; apply Nat.eqb_neq; eapply cursor_on_ptr; eauto).
  rewrite Hl, chain_chars_app, Hp, Hvi, lookup_app_r by lia.
  replace (length (chain_chars l0) + charIdx it - length (chain_chars l0))
    with (charIdx it) by lia.
  now apply cursor_on_read.
Qed.

Lemma SetChar_pos h str l it p c :
  is_chain h str l -> chain_inv l -> cursor_pos h l it p ->
  p < length (chain_chars l) ->
  exists l',
    is_chain (jsvStringIteratorSetChar h it c) str l' /\ chain_inv l' /\
    cursor_pos (jsvStringIteratorSetChar h it c) l' it p /\
    chain_chars l' = <[p := c]> (chain_chars l).
Proof.
  intros Hch Hinv Hpos Hlen.
  destruct (cursor_pos_lt _ _ _ _ Hinv Hpos Hlen)
    as (l0 & rv & l1 & Hl & Hcur & Hlt & Hvi & Hp & Hn & Hfit).
  pose proof (cursor_on_ptr _ _ _ _ Hcur) as Hptr0.
  destruct Hcur as (Hch1 & Hptr & _).
  destruct (is_chain_head _ _ _ _ Hch1) as [Hrv Hlock].
  unfold jsvStringIteratorSetChar.
  replace (jsvStringIteratorHasChar it) with true
    by (symmetry; apply HasChar_true; auto).
  assert (Hlock' : jsvLock h rv.1 = Some rv.2) by (rewrite Hrv; exact Hlock).
  rewrite Hptr, <- Hrv, (writeChar_lock _ _ _ _ _ Hlock').
  set (v' := mkCell (<[charIdx it := c]> (varData_str rv.2)) (charactersInVar rv.2)
               (lastChild rv.2)).
  assert (Hch' : is_chain (jsvStore h rv.1 v') str (l0 ++ (rv.1, v') :: l1))
    by (apply is_chain_store_cell; [now rewrite <- Hl | reflexivity]).
  exists (l0 ++ (rv.1, v') :: l1). split_and!.
  - exact Hch'.
  - rewrite Hl in Hinv. destruct Hinv as [Hf Hne]. split.
    + apply Forall_app in Hf as [Hf0 Hf1]. apply Forall_app. split; [exact Hf0|].
      inversion Hf1; subst. constructor; [|assumption]. simpl. now rewrite length_insert.
    + intros Hlen'. rewrite length_app in Hlen'. simpl in Hlen'.
      assert (Hall := Hne ltac:(rewrite length_app; simpl; lia)).
      apply Forall_app in Hall as [H0 H1]. apply Forall_app. split; [exact H0|].
      inversion H1; subst. now constructor.
  - left. exists l0, ((rv.1, v') :: l1). split_and!; auto.
    split_and!; auto.
    + rewrite <- Hrv. apply (is_chain_suffix _ _ _ _ _ Hch').
  - rewrite Hl, !chain_chars_app. simpl.
    rewrite Hp, Hvi, insert_app_r.
    f_equal. unfold cell_chars. simpl.
    rewrite insert_app_l by (rewrite length_take; lia).
    f_equal. rewrite take_insert_lt by lia. reflexivity.
Qed.

(** ** Reading and writing the bytes of an element *)

Lemma read_loop_spec h l dataLen : forall order sit data p,
  chain_inv l -> cursor_pos h l sit p -> dataLen <> 1 ->
  p + length order <= length (chain_chars l) ->
  exists sit',
    foldl (fun '(sit, data) i =>
             (if dataLen =? 1 then sit else jsvStringIteratorNext h sit,
              <[i := jsvStringIteratorGetChar h sit]> data))
          (sit, data) order
    = (sit', scatter order (take (length order) (drop p (chain_chars l))) data) /\
    cursor_pos h l sit' (p + length order).
Proof.
  intros order sit data p Hinv Hpos Hlen1. revert sit data p Hpos.
  induction order as [|i order IH]; intros sit data p Hpos Hlen.
  - exists sit. simpl. rewrite Nat.add_0_r. now split.
  - simpl in Hlen. cbn [foldl].
    replace (dataLen =? 1) with false by (symmetry; now apply Nat.eqb_neq).
    pose proof (GetChar_pos h l sit p Hinv Hpos ltac:(lia)) as Hget.
    pose proof (Next_pos h l sit p Hinv Hpos ltac:(lia)) as Hnext.
    destruct (IH (jsvStringIteratorNext h sit)
                 (<[i := jsvStringIteratorGetChar h sit]> data) (S p) Hnext ltac:(lia))
      as (sit' & Hrun & Hpos').
    exists sit'. split.
    + replace (dataLen =? 1) with false in Hrun by (symmetry; now apply Nat.eqb_neq).
      rewrite Hrun. f_equal.
      rewrite (drop_lookup_cons _ _ _ Hget). reflexivity.
    + replace (p + length (i :: order)) with (S p + length order) by (simpl; lia).
      exact Hpos'.
Qed.

Lemma write_loop_spec str dataLen data : forall order h l sit p,
  is_chain h str l -> chain_inv l -> cursor_pos h l sit p -> dataLen <> 1 ->
  p + length order <= length (chain_chars l) ->
  exists h' l' sit',
    setValue_loop h sit data dataLen order = (h', sit') /\
    is_chain h' str l' /\ chain_inv l' /\
    cursor_pos h' l' sit' (p + length order) /\
    chain_chars l'
    = take p (chain_chars l) ++ gather order data
        ++ drop (p + length order) (chain_chars l).
Proof.
  unfold setValue_loop.
  induction order as [|i order IH]; intros h l sit p Hch Hinv Hpos Hlen1 Hlen.
  - exists h, l, sit. simpl. rewrite Nat.add_0_r, take_drop. now split_and!.
  - simpl in Hlen. cbn [foldl].
    replace (dataLen =? 1) with false by (symmetry; now apply Nat.eqb_neq).
    destruct (SetChar_pos h str l sit p (default x00 (data !! i)) Hch Hinv Hpos ltac:(lia))
      as (l1 & Hch1 & Hinv1 & Hpos1 & Hchars1).
    assert (Hlen1' : length (chain_chars l1) = length (chain_chars l))
      by (rewrite Hchars1; apply length_insert).
    pose proof (Next_pos _ l1 sit p Hinv1 Hpos1 ltac:(lia)) as Hnext.
    destruct (IH _ l1 _ (S p) Hch1 Hinv1 Hnext Hlen1 ltac:(lia))
      as (h' & l' & sit' & Hrun & Hch' & Hinv' & Hpos' & Hchars').
    exists h', l', sit'.
    replace (dataLen =? 1) with false in Hrun by (symmetry; now apply Nat.eqb_neq).
    split_and!; auto.
    + replace (p + length (i :: order)) with (S p + length order) by (simpl; lia).
      exact Hpos'.
    + rewrite Hchars', Hchars1. cbn [gather map length].
      rewrite (take_S_r _ _ (default x00 (data !! i)))
        by (apply list_lookup_insert_eq; lia).
      rewrite take_insert_ge by lia. rewrite drop_insert_lt by (simpl; lia).
      rewrite <- app_assoc. cbn [app gather]. do 3 f_equal.
      f_equal. lia.
Qed.

Lemma length_element_order b n : length (element_order b n) = n.
Proof. unfold element_order. destruct b; rewrite ?length_rev, length_seq; reflexivity. Qed.

Lemma iter_Next_pos h l n : forall sit p,
  chain_inv l -> cursor_pos h l sit p -> p + n <= length (chain_chars l) ->
  cursor_pos h l (Nat.iter n (jsvStringIteratorNext h) sit) (p + n).
Proof.
  induction n as [|n IH]; intros sit p Hinv Hpos Hlen; simpl.
  - now rewrite Nat.add_0_r.
  - replace (p + S n) with (S (p + n)) by lia.
    apply Next_pos; auto; [|lia]. apply IH; auto. lia.
Qed.

(** ** Access to one element of a typed view *)

Lemma insert_take_drop' {A} (l : list A) i x :
  i < length l -> <[i := x]> l = take i l ++ x :: drop (S i) l.
Proof.
  revert i. induction l as [|y l IH]; intros [|i] H; simpl in *; try lia; [reflexivity|].
  now rewrite IH by lia.
Qed.

Lemma JSV_ARRAYBUFFER_GET_SIZE_range tag : (0 <= JSV_ARRAYBUFFER_GET_SIZE tag <= 15)%Z.
Proof.
  unfold JSV_ARRAYBUFFER_GET_SIZE, ARRAYBUFFERVIEW_MASK_SIZE.
  change 15%Z with (Z.ones 4). rewrite Z.land_ones by lia.
  change (Z.ones 4) with 15%Z.
  pose proof (Z.mod_pos_bound tag (2 ^ 4) ltac:(lia)). lia.
Qed.

Lemma sized_is_defined tag :
  (JSV_ARRAYBUFFER_GET_SIZE tag <> 0)%Z -> (tag =? ARRAYBUFFERVIEW_UNDEFINED)%Z = false.
Proof.
  intros H. apply Z.eqb_neq. intros ->. now apply H.
Qed.

(** What [jsvArrayBufferIteratorGetValueData] reads, and where it leaves
    the inner cursor: past the element when it has several bytes, on it
    when it has one. *)
Lemma GetValueData_spec h l it p data :
  chain_inv l -> cursor_pos h l (strIt it) p ->
  let w := Z.to_nat (JSV_ARRAYBUFFER_GET_SIZE (type it)) in
  1 <= w -> p + w <= length (chain_chars l) ->
  exists sit',
    jsvArrayBufferIteratorGetValueData h it data
    = (mkArrayBufferIterator sit' (type it) (byteLength it) (byteOffset it) (index it)
         (if w =? 1 then hasAccessedElement it else true),
       scatter (element_order (JSV_ARRAYBUFFER_IS_BIG_ENDIAN (type it)) w)
         (take w (drop p (chain_chars l))) data) /\
    cursor_pos h l sit' (if w =? 1 then p else p + w).
Proof.
  intros Hinv Hpos w Hw Hlen. unfold jsvArrayBufferIteratorGetValueData.
  rewrite sized_is_defined by (fold w in Hw; lia). fold w.
  destruct (Nat.eqb_spec w 1) as [Hw1|Hw1].
  - rewrite Hw1. replace (element_order _ 1) with [0] by (now destruct (JSV_ARRAYBUFFER_IS_BIG_ENDIAN _)).
    cbn [foldl Nat.eqb]. exists (strIt it). split; [|exact Hpos].
    pose proof (GetChar_pos h l (strIt it) p Hinv Hpos ltac:(lia)) as Hget.
    rewrite (drop_lookup_cons _ _ _ Hget). reflexivity.
  - destruct (read_loop_spec h l w
                (element_order (JSV_ARRAYBUFFER_IS_BIG_ENDIAN (type it)) w)
                (strIt it) data p Hinv Hpos Hw1) as (sit' & Hrun & Hpos').
    + rewrite length_element_order. lia.
    + rewrite length_element_order in Hrun, Hpos'.
      replace (w =? 1) with false in Hrun by (symmetry; now apply Nat.eqb_neq).
      rewrite Hrun. exists sit'. now split.
Qed.

(** What writing the bytes [data] of an element does. *)
Lemma setValue_loop_spec h str l sit p data w b :
  is_chain h str l -> chain_inv l -> cursor_pos h l sit p ->
  1 <= w -> p + w <= length (chain_chars l) ->
  exists h' l' sit',
    setValue_loop h sit data w (element_order b w) = (h', sit') /\
    is_chain h' str l' /\ chain_inv l' /\
    cursor_pos h' l' sit' (if w =? 1 then p else p + w) /\
    chain_chars l'
    = take p (chain_chars l) ++ gather (element_order b w) data
        ++ drop (p + w) (chain_chars l).
Proof.
  intros Hch Hinv Hpos Hw Hlen.
  destruct (Nat.eqb_spec w 1) as [Hw1|Hw1].
  - rewrite Hw1. replace (element_order b 1) with [0] by (now destruct b).
    unfold setValue_loop. cbn [foldl Nat.eqb].
    destruct (SetChar_pos h str l sit p (default x00 (data !! 0)) Hch Hinv Hpos ltac:(lia))
      as (l1 & Hch1 & Hinv1 & Hpos1 & Hchars1).
    eexists _, l1, sit. split_and!; eauto.
    rewrite Hchars1, insert_take_drop' by lia. cbn [gather map app].
    now replace (p + 1) with (S p) by lia.
  - destruct (write_loop_spec str w data (element_order b w) h l sit p Hch Hinv Hpos Hw1)
      as (h' & l' & sit' & Hrun & Hch' & Hinv' & Hpos' & Hchars').
    + rewrite length_element_order. lia.
    + rewrite length_element_order in Hpos', Hchars'.
      exists h', l', sit'. now split_and!.
Qed.

(** [next] after an access: the inner cursor ends on the next element. *)
Lemma Next_after_access h l sit' tag bl bo idx (flag : bool) p :
  chain_inv l ->
  let w := Z.to_nat (JSV_ARRAYBUFFER_GET_SIZE tag) in
  1 <= w -> p + w <= length (chain_chars l) ->
  cursor_pos h l sit' (if w =? 1 then p else p + w) ->
  view_cursor h l
    (jsvArrayBufferIteratorNext h
       (mkArrayBufferIterator sit' tag bl bo idx (if w =? 1 then false else true)))
    tag (p + w).
Proof.
  intros Hinv w Hw Hlen Hpos. unfold jsvArrayBufferIteratorNext.
  cbn [hasAccessedElement type strIt byteLength byteOffset index]. fold w.
  destruct (Nat.eqb_spec w 1) as [Hw1|Hw1]; cbn [negb].
  - rewrite Hw1. cbn [Nat.iter]. split_and!; auto.
    replace (p + 1) with (S p) by lia. apply Next_pos; auto. lia.
  - now split_and!.
Qed.

Lemma Get_defined h it data :
  (JSV_ARRAYBUFFER_GET_SIZE (type it) <> 0)%Z ->
  let it' := (jsvArrayBufferIteratorGetValueData h it data).1 in
  let d := (jsvArrayBufferIteratorGetValueData h it data).2 in
  type it' = type it /\
  jsvArrayBufferIteratorGetIntegerValue h it data
  = (if JSV_ARRAYBUFFER_IS_FLOAT (type it)
     then int_of_float (jsvArrayBufferIteratorDataToFloat it' d)
     else jsvArrayBufferIteratorDataToInt it' d, it') /\
  jsvArrayBufferIteratorGetFloatValue h it data
  = (if JSV_ARRAYBUFFER_IS_FLOAT (type it)
     then jsvArrayBufferIteratorDataToFloat it' d
     else float_of_int (jsvArrayBufferIteratorDataToInt it' d), it') /\
  jsvArrayBufferIteratorGetValue h it data
  = (if JSV_ARRAYBUFFER_IS_FLOAT (type it)
     then jsvNewFromFloat (jsvArrayBufferIteratorDataToFloat it' d)
     else if (Z.land (type it) (Z.lnot ARRAYBUFFERVIEW_BIG_ENDIAN)
              =? ARRAYBUFFERVIEW_UINT32)%Z
          then jsvNewFromLongInteger (jsvArrayBufferIteratorDataToInt it' d mod 2 ^ 32)
          else jsvNewFromInteger (jsvArrayBufferIteratorDataToInt it' d), it').
Proof.
  intros Hsize it' d.
  assert (Htype : type it' = type it).
  { unfold it', jsvArrayBufferIteratorGetValueData.
    rewrite sized_is_defined by exact Hsize.
    now destruct (foldl _ _ _). }
  unfold jsvArrayBufferIteratorGetIntegerValue, jsvArrayBufferIteratorGetFloatValue,
    jsvArrayBufferIteratorGetValue.
  rewrite sized_is_defined by exact Hsize.
  subst it' d. destruct (jsvArrayBufferIteratorGetValueData h it data) as [it' d].
  cbn [fst snd] in *. rewrite Htype.
  split_and!; auto.
  - now destruct (JSV_ARRAYBUFFER_IS_FLOAT (type it)).
  - now destruct (JSV_ARRAYBUFFER_IS_FLOAT (type it)).
  - destruct (JSV_ARRAYBUFFER_IS_FLOAT (type it)); [reflexivity|].
    now destruct (Z.land (type it) (Z.lnot ARRAYBUFFERVIEW_BIG_ENDIAN)
                  =? ARRAYBUFFERVIEW_UINT32)%Z.
Qed.

Lemma Set_defined h it data :
  (JSV_ARRAYBUFFER_GET_SIZE (type it) <> 0)%Z ->
  let dataLen := JSV_ARRAYBUFFER_GET_SIZE (type it) in
  let w := Z.to_nat dataLen in
  let finish (r : JsVarHeap * JsvStringIterator) :=
    (r.1, mkArrayBufferIterator r.2 (type it) (byteLength it) (byteOffset it) (index it)
            (if w =? 1 then hasAccessedElement it else true)) in
  (forall v,
     jsvArrayBufferIteratorSetIntegerValue h it v data
     = finish (setValue_loop h (strIt it)
                 (if JSV_ARRAYBUFFER_IS_FLOAT (type it)
                  then jsvArrayBufferIteratorFloatToData data dataLen (type it) (float_of_int v)
                  else jsvArrayBufferIteratorIntToData data dataLen (type it) v)
                 w (element_order false w))) /\
  (forall value,
     jsvArrayBufferIteratorSetValue h it value data
     = finish (setValue_loop h (strIt it)
                 (if JSV_ARRAYBUFFER_IS_FLOAT (type it)
                  then jsvArrayBufferIteratorFloatToData data dataLen (type it)
                         (jsvGetFloat value)
                  else jsvArrayBufferIteratorIntToData data dataLen (type it)
                         (jsvGetInteger value))
                 w (element_order (JSV_ARRAYBUFFER_IS_BIG_ENDIAN (type it)) w))).
Proof.
  intros Hsize dataLen w finish.
  pose proof (JSV_ARRAYBUFFER_GET_SIZE_range (type it)) as Hr. fold dataLen in Hr.
  assert (Hw1 : (dataLen =? 1)%Z = (w =? 1)).
  { unfold w. destruct (Z.eqb_spec dataLen 1) as [->|Hne]; [reflexivity|].
    symmetry. apply Nat.eqb_neq. lia. }
  unfold jsvArrayBufferIteratorSetIntegerValue, jsvArrayBufferIteratorSetValue, finish.
  rewrite sized_is_defined by exact Hsize. fold dataLen. fold w. rewrite Hw1.
  split; intros v; now destruct (setValue_loop _ _ _ _ _).
Qed.

(** C4 (as amended).  For a typed-view cursor over elements of [w > 1]
    bytes whose inner cursor is at byte [p] of the backing string, the
    element lying inside it: after a get or a set the inner cursor has been
    stepped [w] times, so that it is at byte [p + w], the first byte of the
    next element, and [hasAccessedElement] is true; a subsequent [next]
    leaves the inner cursor where it is and clears the flag.  When
    [hasAccessedElement] is false, [next] advances the inner cursor [w]
    bytes. *)
Theorem jsvArrayBufferIterator_access_then_next h str l it p :
  is_chain h str l -> chain_inv l -> cursor_pos h l (strIt it) p ->
  let w := Z.to_nat (JSV_ARRAYBUFFER_GET_SIZE (type it)) in
  1 < w -> p + w <= length (chain_chars l) ->
  (forall data,
     let it' := (jsvArrayBufferIteratorGetIntegerValue h it data).2 in
     (jsvArrayBufferIteratorGetValue h it data).2 = it' /\
     (jsvArrayBufferIteratorGetFloatValue h it data).2 = it' /\
     cursor_pos h l (strIt it') (p + w) /\
     jsvStringIteratorGetIndex (strIt it') = p + w /\
     hasAccessedElement it' = true /\
     strIt (jsvArrayBufferIteratorNext h it') = strIt it' /\
     hasAccessedElement (jsvArrayBufferIteratorNext h it') = false) /\
  (forall (set : JsVarHeap * JsvArrayBufferIterator),
     (exists v data, set = jsvArrayBufferIteratorSetIntegerValue h it v data) \/
     (exists value data, set = jsvArrayBufferIteratorSetValue h it value data) ->
     exists l',
       is_chain set.1 str l' /\ chain_inv l' /\
       cursor_pos set.1 l' (strIt set.2) (p + w) /\
       jsvStringIteratorGetIndex (strIt set.2) = p + w /\
       hasAccessedElement set.2 = true /\
       strIt (jsvArrayBufferIteratorNext set.1 set.2) = strIt set.2 /\
       hasAccessedElement (jsvArrayBufferIteratorNext set.1 set.2) = false) /\
  (hasAccessedElement it = false ->
     cursor_pos h l (strIt (jsvArrayBufferIteratorNext h it)) (p + w) /\
     jsvStringIteratorGetIndex (strIt (jsvArrayBufferIteratorNext h it)) = p + w /\
     hasAccessedElement (jsvArrayBufferIteratorNext h it) = false).
Proof.
  intros Hch Hinv Hpos w Hw Hlen.
  assert (Hsize : (JSV_ARRAYBUFFER_GET_SIZE (type it) <> 0)%Z) by (unfold w in Hw; lia).
  assert (Hw1 : (w =? 1) = false) by (apply Nat.eqb_neq; lia).
  split_and!.
  - intros data.
    destruct (Get_defined h it data Hsize) as (_ & -> & -> & ->). cbn [snd].
    destruct (GetValueData_spec h l it p data Hinv Hpos) as (sit' & Hrun & Hpos');
      try (fold w; lia).
    fold w in Hrun, Hpos'. rewrite Hw1 in Hrun, Hpos'. rewrite Hrun. cbn [fst strIt].
    split_and!; auto. now apply (cursor_pos_index h l).
  - intros set Hset.
    assert (Hform : exists d b,
               set = ((setValue_loop h (strIt it) d w (element_order b w)).1,
                      mkArrayBufferIterator
                        (setValue_loop h (strIt it) d w (element_order b w)).2
                        (type it) (byteLength it) (byteOffset it) (index it) true)).
    { destruct Hset as [(v & data & ->) | (value & data & ->)].
      - destruct (Set_defined h it data Hsize) as [H _]. rewrite H. fold w. rewrite Hw1.
        eauto.
      - destruct (Set_defined h it data Hsize) as [_ H]. rewrite H. fold w. rewrite Hw1.
        eauto. }
    destruct Hform as (d & b & ->).
    destruct (setValue_loop_spec h str l (strIt it) p d w b Hch Hinv Hpos)
      as (h' & l' & sit' & Hrun & Hch' & Hinv' & Hpos' & _); try lia.
    rewrite Hw1 in Hpos'. rewrite Hrun. cbn [fst snd strIt hasAccessedElement].
    exists l'. split_and!; auto. now apply (cursor_pos_index h' l').
  - intros Hflag. unfold jsvArrayBufferIteratorNext. rewrite Hflag.
    cbn [negb strIt hasAccessedElement]. fold w.
    pose proof (iter_Next_pos h l w (strIt it) p Hinv Hpos Hlen) as Hpos'.
    split_and!; auto. now apply (cursor_pos_index h l).
Qed.

Lemma jsvArrayBufferIterator_access_then_next_witness :
  let h := mkHeap [mkCell ["a"; "b"; "c"; "d"]%byte 4 0] 1 in
  let it := mkArrayBufferIterator (mkStringIterator 0 4 0 1 1) 2 4 0 0 false in
  let it' := (jsvArrayBufferIteratorGetIntegerValue h it (replicate 8 x00)).2 in
  jsvStringIteratorGetIndex (strIt it') = 2 /\
  hasAccessedElement it' = true /\
  strIt (jsvArrayBufferIteratorNext h it') = strIt it'.
Proof.
  intros h it.
  destruct (jsvArrayBufferIterator_access_then_next h 1
              [(1, mkCell ["a"; "b"; "c"; "d"]%byte 4 0)] it 0) as (Hget & _).
  - simpl. auto.
  - split; [apply Forall_singleton | intros H]; simpl in *; lia.
  - left. exists [], [(1, mkCell ["a"; "b"; "c"; "d"]%byte 4 0)].
    split_and!; simpl; auto. split_and!; simpl; auto.
  - vm_compute. lia.
  - vm_compute. lia.
  - destruct (Hget (replicate 8 x00)) as (_ & _ & _ & Hidx & Hflag & Hnext & _).
    intros it'. now split_and!.
Defined.

(** C4 fails as stated.  On a view of two 16-bit elements over "abcd", a
    get of element 0 leaves the inner cursor at byte 2, the first byte of
    element 1, not at byte 1, the last byte of element 0; and the [next]
    that follows does not advance the inner cursor at all. *)
Lemma jsvArrayBufferIterator_get_steps_past_element :
  let h := mkHeap [mkCell ["a"; "b"; "c"; "d"]%byte 4 0] 1 in
  let it0 := mkArrayBufferIterator (mkStringIterator 0 0 0 0 0) 0 0 0 0 false in
  exists it,
    jsvArrayBufferIteratorNew 1 h it0 (JsArrayBuffer 2 2 0 1) 0 = Some it /\
    let it' := (jsvArrayBufferIteratorGetIntegerValue h it (replicate 8 x00)).2 in
    jsvStringIteratorGetIndex (strIt it) = 0 /\
    jsvStringIteratorGetIndex (strIt it') = 2 /\
    hasAccessedElement it' = true /\
    jsvStringIteratorGetIndex (strIt (jsvArrayBufferIteratorNext h it')) = 2.
Proof.
  intros h it0. eexists. split; [reflexivity|]. now vm_compute.
Qed.

(** ** Bytes and integers *)

Lemma uchar_range c : (0 <= uchar c < 256)%Z.
Proof.
  unfold uchar. pose proof (Byte.to_N_bounded c). lia.
Qed.

Lemma uchar_char_of_int v : uchar (char_of_int v) = (v mod 256)%Z.
Proof.
  unfold uchar, char_of_int.
  pose proof (Z.mod_pos_bound v 256 ltac:(lia)) as Hr.
  destruct (Byte.of_N (Z.to_N (v mod 256))) as [b|] eqn:E.
  - simpl. apply Byte.to_of_N in E. rewrite E. lia.
  - apply Byte.of_N_None_iff in E. lia.
Qed.

Lemma int_of_bytes_range l : (0 <= int_of_bytes l < 256 ^ Z.of_nat (length l))%Z.
Proof.
  induction l as [|c l IH]; [simpl; lia|].
  cbn [int_of_bytes length]. rewrite Nat2Z.inj_succ, Z.pow_succ_r by lia.
  pose proof (uchar_range c). lia.
Qed.

Lemma int_of_bytes_app a b :
  int_of_bytes (a ++ b)
  = (int_of_bytes a + 256 ^ Z.of_nat (length a) * int_of_bytes b)%Z.
Proof.
  induction a as [|c a IH]; [simpl; lia|].
  cbn [app int_of_bytes length]. rewrite IH, Nat2Z.inj_succ, Z.pow_succ_r by lia. lia.
Qed.

Lemma length_bytes_of_int n : forall v, length (bytes_of_int n v) = n.
Proof. induction n as [|n IH]; intros v; simpl; [reflexivity|]. now rewrite IH. Qed.

Lemma int_of_bytes_of_int n : forall v,
  int_of_bytes (bytes_of_int n v) = (v mod 256 ^ Z.of_nat n)%Z.
Proof.
  induction n as [|n IH]; intros v.
  - simpl. now rewrite Z.mod_1_r.
  - cbn [bytes_of_int int_of_bytes]. rewrite uchar_char_of_int, IH.
    rewrite Nat2Z.inj_succ, Z.pow_succ_r by lia.
    rewrite Z.rem_mul_r by lia. reflexivity.
Qed.

Lemma take_bytes_of_int w : forall n v,
  w <= n -> take w (bytes_of_int n v) = bytes_of_int w v.
Proof.
  induction w as [|w IH]; intros n v Hw; [now rewrite take_0|].
  destruct n as [|n]; [lia|]. simpl. f_equal. apply IH. lia.
Qed.

(** ** Scattering what was gathered *)

Lemma length_scatter order : forall bs data,
  length (scatter order bs data) = length data.
Proof.
  induction order as [|i order IH]; intros [|b bs] data; simpl; auto.
  now rewrite IH, length_insert.
Qed.

Lemma scatter_lookup_notin order : forall bs data j,
  j ∉ order -> scatter order bs data !! j = data !! j.
Proof.
  induction order as [|i order IH]; intros [|b bs] data j Hj; simpl; auto.
  apply not_elem_of_cons in Hj as [Hne Hj].
  rewrite IH by exact Hj. apply list_lookup_insert_ne. congruence.
Qed.

Lemma scatter_gather_lookup order dw : forall data j,
  NoDup order -> (forall i, i ∈ order -> i < length data) -> j ∈ order ->
  scatter order (gather order dw) data !! j = Some (default x00 (dw !! j)).
Proof.
  induction order as [|i order IH]; intros data j Hnd Hlt Hj; [inversion Hj|].
  apply NoDup_cons in Hnd as [Hi Hnd]. cbn [gather map scatter].
  destruct (decide (j ∈ order)) as [Hin|Hnotin].
  - apply IH; auto. intros k Hk. rewrite length_insert. apply Hlt. now right.
  - apply elem_of_cons in Hj as [->|Hj]; [|contradiction].
    fold (gather order dw). rewrite scatter_lookup_notin by exact Hnotin.
    apply list_lookup_insert_eq. apply Hlt. now left.
Qed.

Lemma rev_reverse {A} (l : list A) : rev l = reverse l.
Proof. unfold reverse. apply rev_alt. Qed.

Lemma element_order_perm b w i : i ∈ element_order b w <-> i < w.
Proof.
  unfold element_order.
  destruct b; rewrite ?rev_reverse, ?elem_of_reverse, elem_of_seq; lia.
Qed.

Lemma element_order_NoDup b w : NoDup (element_order b w).
Proof.
  unfold element_order.
  destruct b; [rewrite rev_reverse, reverse_Permutation|]; apply NoDup_seq.
Qed.

(** Reading an element in the order it was written in gives back the
    first bytes of the data, whatever the order. *)
Lemma take_scatter_gather b w dw data :
  w <= length dw -> w <= length data ->
  take w (scatter (element_order b w) (gather (element_order b w) dw) data) = take w dw.
Proof.
  intros Hdw Hdata. apply list_eq. intros j.
  destruct (Nat.lt_ge_cases j w) as [Hj|Hj].
  - rewrite !lookup_take_lt by exact Hj.
    rewrite scatter_gather_lookup.
    + destruct (lookup_lt_is_Some_2 dw j ltac:(lia)) as [c Hc]. now rewrite Hc.
    + apply element_order_NoDup.
    + intros i Hi. apply element_order_perm in Hi. lia.
    + now apply element_order_perm.
  - rewrite !lookup_take_ge by lia. reflexivity.
Qed.

(** ** Bit operations on elements *)

Lemma land_pow2_test k B :
  (0 <= k)%Z -> (0 <= B < 2 ^ (k + 1))%Z ->
  (Z.land B (2 ^ k) =? 0)%Z = (B <? 2 ^ k)%Z.
Proof.
  intros Hk HB. rewrite Z.pow_add_r, Z.pow_1_r in HB by lia.
  destruct (Z.ltb_spec B (2 ^ k)) as [Hlt|Hge]; apply Z.eqb_eq || apply Z.eqb_neq.
  - rewrite <- (Z.mod_small B (2 ^ k)) by lia.
    rewrite <- Z.land_ones, <- Z.land_assoc by lia.
    rewrite (Z.land_comm (Z.ones k)), Z.land_ones, Z.mod_same by lia.
    apply Z.land_0_r.
  - intros E. apply (f_equal (fun x => Z.testbit x k)) in E.
    rewrite Z.land_spec, Z.pow2_bits_true, Z.bits_0, andb_true_r in E by lia.
    assert (Hbit : Z.testbit B k = true).
    { apply Z.testbit_true; [lia|].
      assert (B / 2 ^ k = 1)%Z
        by (symmetry; apply Z.div_unique with (r := (B - 2 ^ k)%Z); lia).
      now replace (B / 2 ^ k)%Z with 1%Z. }
    congruence.
Qed.

Lemma lnot_ones n : (0 <= n)%Z -> Z.lnot (Z.ones n) = (- 2 ^ n)%Z.
Proof.
  intros Hn. pose proof (Z.add_lnot_diag (Z.ones n)). rewrite Z.ones_equiv in *. lia.
Qed.

Lemma lor_lnot_ones n B :
  (0 <= n)%Z -> (0 <= B < 2 ^ n)%Z -> Z.lor B (Z.lnot (Z.ones n)) = (B - 2 ^ n)%Z.
Proof.
  intros Hn HB.
  pose proof (Z.add_lor_land B (Z.lnot (Z.ones n))) as H.
  rewrite <- Z.ldiff_land, Z.ldiff_ones_r, Z.shiftr_div_pow2 in H by lia.
  rewrite Z.div_small, Z.shiftl_0_l in H by lia.
  rewrite lnot_ones in * by lia. lia.
Qed.

Lemma to_int32_mod2 z bits :
  (0 <= bits <= 32)%Z -> (to_int32 z mod 2 ^ bits = z mod 2 ^ bits)%Z.
Proof.
  intros Hb. unfold to_int32.
  assert (E : (2 ^ 32 = 2 ^ (32 - bits) * 2 ^ bits)%Z)
    by (rewrite <- Z.pow_add_r by lia; f_equal; lia).
  rewrite (Z.mod_eq (z + 2 ^ 31) (2 ^ 32)) by lia.
  set (q := ((z + 2 ^ 31) / 2 ^ 32)%Z).
  replace (z + 2 ^ 31 - 2 ^ 32 * q - 2 ^ 31)%Z
    with (z + (- (2 ^ (32 - bits) * q)) * 2 ^ bits)%Z by (rewrite E; ring).
  apply Z_mod_plus_full.
Qed.

Lemma to_int32_range z : (- 2 ^ 31 <= to_int32 z < 2 ^ 31)%Z.
Proof. unfold to_int32. pose proof (Z.mod_pos_bound (z + 2 ^ 31) (2 ^ 32)). lia. Qed.

Lemma to_int32_wrap z : to_int32 (z - 2 ^ 32) = to_int32 z.
Proof.
  unfold to_int32. f_equal.
  replace (z - 2 ^ 32 + 2 ^ 31)%Z with (z + 2 ^ 31 + (-1) * 2 ^ 32)%Z by lia.
  apply Z_mod_plus_full.
Qed.

Lemma take_add_split {A} (l : list A) n m :
  take (n + m) l = take n l ++ take m (drop n l).
Proof.
  revert l. induction n as [|n IH]; intros [|x l]; simpl; try reflexivity.
  - now rewrite take_nil.
  - now rewrite IH.
Qed.

(** [jsvArrayBufferIteratorDataToInt] on data whose first [w] bytes are the
    low bytes of [v]. *)
Lemma DataToInt_value it d v :
  let width := JSV_ARRAYBUFFER_GET_SIZE (type it) in
  let bits := (8 * width)%Z in
  let t := (v mod 2 ^ bits)%Z in
  (1 <= width <= 4)%Z ->
  take (Z.to_nat width) d = bytes_of_int (Z.to_nat width) v ->
  jsvArrayBufferIteratorDataToInt it d
  = to_int32 (if JSV_ARRAYBUFFER_IS_SIGNED (type it) && (2 ^ (bits - 1) <=? t)%Z
              then t - 2 ^ bits else t)%Z.
Proof.
  intros width bits t Hw Htake.
  unfold jsvArrayBufferIteratorDataToInt. fold width. fold bits.
  assert (Hbits : (8 <= bits <= 32)%Z) by (unfold bits; lia).
  assert (Ht : (0 <= t < 2 ^ bits)%Z) by (apply Z.mod_pos_bound, Z.pow_pos_nonneg; lia).
  (* the 32-bit word read from the data *)
  assert (HX : exists G, (0 <= G)%Z /\
            int_of_bytes (take 4 d) = (t + 2 ^ bits * G)%Z /\
            (bits = 32 -> G = 0)%Z).
  { replace 4 with (Z.to_nat width + (4 - Z.to_nat width)) by lia.
    rewrite take_add_split, int_of_bytes_app, Htake, int_of_bytes_of_int,
      length_bytes_of_int.
    replace (256 ^ Z.of_nat (Z.to_nat width))%Z with (2 ^ bits)%Z.
    2:{ unfold bits. rewrite Z2Nat.id by lia. change 256%Z with (2 ^ 8)%Z.
        now rewrite <- Z.pow_mul_r by lia. }
    eexists. split_and!; [apply int_of_bytes_range | reflexivity |].
    intros E. assert (width = 4)%Z by (unfold bits in E; lia).
    replace (4 - Z.to_nat width) with 0 by lia. now rewrite take_0. }
  destruct HX as (G & HG & HX & HG32). rewrite HX.
  rewrite !Z.shiftl_1_l.
  assert (Hp : (0 < 2 ^ bits <= 2 ^ 32)%Z)
    by (split; [apply Z.pow_pos_nonneg; lia | apply Z.pow_le_mono_r; lia]).
  rewrite (Z.mod_small (2 ^ bits - 1)) by lia.
  destruct (Z.eq_dec bits 32%Z) as [E32|Hne].
  - (* four bytes *)
    rewrite HG32, Z.mul_0_r, Z.add_0_r by exact E32. rewrite E32 in *.
    change (to_int32 (2 ^ 32 - 1)) with (-1)%Z. rewrite Z.land_m1_r.
    change (Z.lnot (-1)) with 0%Z. rewrite Z.lor_0_r.
    destruct (JSV_ARRAYBUFFER_IS_SIGNED (type it) && (2 ^ (32 - 1) <=? t)%Z);
      rewrite ?to_int32_wrap;
      match goal with |- (if ?c then _ else _) = _ => now destruct c end.
  - (* fewer than four bytes *)
    assert (Hlt : (bits <= 24)%Z) by (unfold bits in *; lia).
    assert (Hp24 : (2 ^ bits <= 2 ^ 24)%Z) by (apply Z.pow_le_mono_r; lia).
    assert (Hhalf : (2 * 2 ^ (bits - 1) = 2 ^ bits)%Z)
      by (rewrite <- Z.pow_succ_r by lia; f_equal; lia).
    rewrite (to_int32_small (2 ^ bits - 1)) by lia.
    rewrite (to_int32_small (2 ^ (bits - 1))) by lia.
    replace (2 ^ bits - 1)%Z with (Z.ones bits) by (rewrite Z.ones_equiv; lia).
    rewrite Z.land_ones, to_int32_mod2 by lia.
    replace ((t + 2 ^ bits * G) mod 2 ^ bits)%Z with t
      by (rewrite (Z.mul_comm (2 ^ bits)), Z_mod_plus_full, Z.mod_small; lia).
    rewrite land_pow2_test
      by (try lia; replace (bits - 1 + 1)%Z with bits by lia; lia).
    rewrite Z.ltb_antisym, negb_involutive.
    destruct (JSV_ARRAYBUFFER_IS_SIGNED (type it) && (2 ^ (bits - 1) <=? t)%Z) eqn:Es.
    + rewrite lor_lnot_ones by lia. rewrite to_int32_small; [reflexivity|].
      apply andb_true_iff in Es as [_ Hge]. apply Z.leb_le in Hge. lia.
    + rewrite to_int32_small; [reflexivity | lia].
Qed.

(** * Further properties of the cursors and of the walker *)

(** ** The string cursor at the end of its string *)




(** ** Overwriting a string in place *)

Lemma cursor_pos_end h l it :
  chain_inv l -> cursor_pos h l it (length (chain_chars l)) ->
  it = mkStringIterator 0 0 (length (chain_chars l)) 0 0.
Proof.
  intros Hinv [(l0 & l1 & Hl & Hcur & Hlt & Hvi & Hp) | [-> _]]; [exfalso | reflexivity].
  destruct l1 as [|rv l1]; [destruct Hcur as [[] _]|].
  destruct Hcur as (_ & _ & Hn).
  assert (Hfit : charactersInVar rv.2 <= length (varData_str rv.2)).
  { apply (chain_inv_fit rv l1). rewrite Hl in Hinv.
    apply (chain_inv_app_r l0); [exact Hinv | discriminate]. }
  rewrite Hl, chain_chars_app, length_app in Hp. cbn [chain_chars] in Hp.
  rewrite length_app, (length_cell_chars _ Hfit) in Hp. lia.
Qed.

Lemma SetCharAndNext_end h n c :
  jsvStringIteratorSetCharAndNext h (mkStringIterator 0 0 n 0 0) c
  = (h, mkStringIterator 0 0 n 0 0).
Proof.
  unfold jsvStringIteratorSetCharAndNext, jsvStringIteratorNextInline. cbn.
  now rewrite Nat.add_0_r.
Qed.

Lemma SetChars_end cs : forall h n,
  jsvStringIteratorSetChars h (mkStringIterator 0 0 n 0 0) cs
  = (h, mkStringIterator 0 0 n 0 0).
Proof.
  induction cs as [|c cs IH]; intros h n; [reflexivity|].
  cbn [jsvStringIteratorSetChars]. now rewrite SetCharAndNext_end, IH.
Qed.

Lemma SetChars_pos str cs : forall h l it p,
  is_chain h str l -> chain_inv l -> cursor_pos h l it p ->
  p <= length (chain_chars l) ->
  exists h' l' it',
    jsvStringIteratorSetChars h it cs = (h', it') /\
    is_chain h' str l' /\ chain_inv l' /\
    cursor_pos h' l' it' (min (p + length cs) (length (chain_chars l))) /\
    chain_chars l'
    = take p (chain_chars l) ++ take (length (chain_chars l) - p) cs
        ++ drop (p + length cs) (chain_chars l).
Proof.
  induction cs as [|c cs IH]; intros h l it p Hch Hinv Hpos Hp.
  - exists h, l, it. cbn [jsvStringIteratorSetChars length].
    rewrite Nat.add_0_r, take_nil, Nat.min_l by lia. cbn [app].
    rewrite take_drop. now split_and!.
  - destruct (Nat.eq_dec p (length (chain_chars l))) as [Hend|Hin].
    + subst p. rewrite (cursor_pos_end h l it Hinv Hpos), SetChars_end.
      exists h, l, (mkStringIterator 0 0 (length (chain_chars l)) 0 0).
      rewrite Nat.sub_diag, take_0, Nat.min_r, drop_ge, firstn_all, !app_nil_r by lia.
      split_and!; auto. right. now split.
    + cbn [jsvStringIteratorSetChars]. unfold jsvStringIteratorSetCharAndNext.
      fold (jsvStringIteratorSetChar h it c).
      destruct (SetChar_pos h str l it p c Hch Hinv Hpos ltac:(lia))
        as (l1 & Hch1 & Hinv1 & Hpos1 & Hchars1).
      assert (Hlen1 : length (chain_chars l1) = length (chain_chars l))
        by (rewrite Hchars1; apply length_insert).
      pose proof (Next_pos _ l1 it p Hinv1 Hpos1 ltac:(lia)) as Hnext.
      destruct (IH _ l1 _ (S p) Hch1 Hinv1 Hnext ltac:(lia))
        as (h' & l' & it' & Hrun & Hch' & Hinv' & Hpos' & Hchars').
      exists h', l', it'. split_and!; auto.
      * rewrite Hlen1 in Hpos'. cbn [length].
        now replace (p + S (length cs)) with (S p + length cs) by lia.
      * rewrite Hchars', Hlen1, Hchars1.
        replace (length (chain_chars l) - p) with (S (length (chain_chars l) - S p)) by lia.
        cbn [take length].
        rewrite (take_S_r _ _ c) by (apply list_lookup_insert_eq; lia).
        rewrite take_insert_ge by lia. rewrite drop_insert_lt by lia.
        rewrite <- app_assoc. cbn [app].
        now replace (p + S (length cs)) with (S p + length cs) by lia.
Qed.

(** X2.  Overwriting through a cursor with
    [jsvStringIteratorSetCharAndNext] replaces the bytes from the cursor's
    position on and never changes the length of the string: of the bytes
    [cs] written from position [p], those that fall at or past the end of
    the string are dropped, and the cursor ends at the position after the
    last byte written, or at the end of the string. *)
Theorem jsvStringIteratorSetCharAndNext_overwrites h str l fuel p cs :
  is_chain h str l -> chain_inv l -> length l <= fuel ->
  0 < length (chain_chars l) -> p <= length (chain_chars l) ->
  exists it h' it' l',
    jsvStringIteratorNew fuel h str p = Some it /\
    jsvStringIteratorSetChars h it cs = (h', it') /\
    is_chain h' str l' /\ chain_inv l' /\
    length (chain_chars l') = length (chain_chars l) /\
    chain_chars l'
    = take p (chain_chars l) ++ take (length (chain_chars l) - p) cs
        ++ drop (p + length cs) (chain_chars l) /\
    jsvStringIteratorGetIndex it' = min (p + length cs) (length (chain_chars l)).
Proof.
  intros Hch Hinv Hfuel Hlen Hp.
  destruct (New_pos h str l fuel p Hch Hinv Hfuel Hp Hlen) as (it & Hnew & Hpos).
  destruct (SetChars_pos str cs h l it p Hch Hinv Hpos Hp)
    as (h' & l' & it' & Hrun & Hch' & Hinv' & Hpos' & Hchars').
  exists it, h', it', l'. split_and!; auto.
  - rewrite Hchars', !length_app, !length_take, length_drop. lia.
  - apply (cursor_pos_index h' l'). exact Hpos'.
Qed.

Lemma jsvStringIteratorSetCharAndNext_overwrites_witness :
  let h := mkHeap [mkCell ["a"; "b"; "c"; "d"]%byte 4 2;
                   mkCell ["e"; "f"; x00; x00]%byte 2 0] 2 in
  exists it h' it' l',
    jsvStringIteratorNew 2 h 1 3 = Some it /\
    jsvStringIteratorSetChars h it ["w"; "x"; "y"; "z"]%byte = (h', it') /\
    is_chain h' 1 l' /\
    chain_chars l' = ["a"; "b"; "c"; "w"; "x"; "y"]%byte.
Proof.
  intros h.
  destruct (jsvStringIteratorSetCharAndNext_overwrites h 1
              [(1, mkCell ["a"; "b"; "c"; "d"]%byte 4 2);
               (2, mkCell ["e"; "f"; x00; x00]%byte 2 0)] 2 3 ["w"; "x"; "y"; "z"]%byte)
    as (it & h' & it' & l' & Hnew & Hrun & Hch & _ & _ & Hchars & _).
  - simpl. split_and!; auto.
  - split; [repeat constructor; simpl; lia | intros _; repeat constructor; simpl; lia].
  - simpl. lia.
  - simpl. lia.
  - simpl. lia.
  - exists it, h', it', l'. split_and!; auto.
Defined.

(** ** Walking a string *)

Lemma char_of_int_uchar c : char_of_int (uchar c) = c.
Proof.
  unfold char_of_int. pose proof (uchar_range c) as Hr.
  rewrite Z.mod_small by lia. unfold uchar. rewrite N2Z.id, Byte.of_to_N. reflexivity.
Qed.

Lemma foldl_emit {B} (g : B -> Z) cs : forall acc,
  foldl (fun l c => emit (g c) l) acc cs = acc ++ map g cs.
Proof.
  induction cs as [|c cs IH]; intros acc; simpl; [now rewrite app_nil_r|].
  rewrite IH. unfold emit. now rewrite <- app_assoc.
Qed.

Section StringWalk.

Context {machine : Machine}.

Lemma char_of_int_of_char c : char_of_int (int_of_char c) = c.
Proof.
  unfold int_of_char. destruct (char_is_signed && (128 <=? uchar c)%Z).
  - rewrite <- (char_of_int_uchar c) at 2. unfold char_of_int.
    replace ((uchar c - 256) mod 256)%Z with (uchar c mod 256)%Z; [reflexivity|].
    replace (uchar c - 256)%Z with (uchar c + (-1) * 256)%Z by lia.
    now rewrite Z_mod_plus_full.
  - apply char_of_int_uchar.
Qed.

Lemma string_walk_no_char {A} (f : Z -> A -> A) fuel h it a :
  jsvStringIteratorHasChar it = false -> string_walk f fuel h it a = Some a.
Proof. intros H. destruct fuel; simpl; now rewrite H. Qed.

Lemma string_walk_pos {A} (f : Z -> A -> A) h l n : forall fuel it p a,
  chain_inv l -> cursor_pos h l it p -> p + n = length (chain_chars l) -> n <= fuel ->
  string_walk f fuel h it a
  = Some (foldl (fun a c => f (int_of_char c) a) a (drop p (chain_chars l))).
Proof.
  induction n as [|n IH]; intros fuel it p a Hinv Hpos Hlen Hfuel.
  - rewrite Nat.add_0_r in Hlen. subst p.
    rewrite (cursor_pos_end h l it Hinv Hpos), drop_all.
    now apply string_walk_no_char.
  - destruct fuel as [|fuel]; [lia|].
    destruct (cursor_pos_lt _ _ _ _ Hinv Hpos ltac:(lia))
      as (l0 & rv & l1 & _ & Hcur & Hlt & _).
    assert (Hhas : jsvStringIteratorHasChar it = true)
      by (apply HasChar_true; split; [eapply cursor_on_ptr; eauto | exact Hlt]).
    cbn [string_walk]. rewrite Hhas.
    pose proof (GetChar_pos h l it p Hinv Hpos ltac:(lia)) as Hget.
    rewrite (drop_lookup_cons _ _ _ Hget). cbn [foldl].
    apply IH; auto; try lia. apply Next_pos; auto. lia.
Qed.

Lemma chain_chars_nil_root h str l :
  is_chain h str l -> chain_inv l -> chain_chars l = [] ->
  jsvGetCharactersInVar h str = 0.
Proof.
  intros Hch Hinv Hnil. destruct l as [|rv l]; [destruct Hch|].
  rewrite (is_chain_charactersInVar _ _ _ _ Hch).
  pose proof (chain_inv_fit _ _ Hinv) as Hfit.
  apply (f_equal length) in Hnil. cbn [chain_chars] in Hnil.
  rewrite length_app, (length_cell_chars _ Hfit) in Hnil. simpl in Hnil. lia.
Qed.

Lemma string_walk_all {A} (f : Z -> A -> A) h str l fuel a :
  is_chain h str l -> chain_inv l -> length (chain_chars l) <= fuel ->
  string_walk f fuel h (mkStringIterator 0 (jsvGetCharactersInVar h str) 0 str str) a
  = Some (foldl (fun a c => f (int_of_char c) a) a (chain_chars l)).
Proof.
  intros Hch Hinv Hfuel.
  destruct (Nat.eq_dec (length (chain_chars l)) 0) as [Hnil|Hne].
  - apply length_zero_iff_nil in Hnil.
    rewrite (chain_chars_nil_root h str l Hch Hinv Hnil), Hnil.
    apply string_walk_no_char. apply HasChar_false. right. simpl. lia.
  - destruct (New_pos h str l (length l) 0 Hch Hinv) as (it & Hnew & Hpos); try lia.
    rewrite New_at_0 in Hnew. inversion Hnew; subst it.
    now rewrite (string_walk_pos f h l (length (chain_chars l)) fuel _ 0 a Hinv Hpos).
Qed.

Lemma take_chars_of_ints n : forall cs,
  map char_of_int (take n (map int_of_char cs)) = take n cs.
Proof.
  induction n as [|n IH]; intros [|c cs]; simpl; try reflexivity.
  now rewrite char_of_int_of_char, IH.
Qed.

Lemma walk_string {A} (f : Z -> A -> A) fuel str st a l :
  is_chain (jsHeap st) str l -> chain_inv l -> length (chain_chars l) <= fuel ->
  jsvIterateCallback f (S fuel) (JsString str) st a
  = Some (true, st, foldl (fun a c => f (int_of_char c) a) a (chain_chars l)).
Proof.
  intros Hch Hinv Hfuel. cbn [jsvIterateCallback jsvIsNumeric jsvIsObject jsvIsString].
  rewrite New_at_0. now rewrite (string_walk_all f _ str l fuel a Hch Hinv Hfuel).
Qed.

Lemma foldl_map_sink {A B} (f : Z -> A -> A) (g : B -> Z) cs : forall a,
  foldl (fun a c => f (g c) a) a cs = foldl (fun a n => f n a) a (map g cs).
Proof. induction cs as [|c cs IH]; intros a; simpl; [reflexivity | apply IH]. Qed.

(** X4.  Walking a well-formed string hands the sink every byte of the
    string, in order, each converted from [char] to [int] (so that, where
    [char] is signed, the bytes from 128 on arrive as negative numbers); the
    walk succeeds and leaves the interpreter's state as it was. *)
Theorem jsvIterateCallback_string {A} (f : Z -> A -> A) fuel str st a l :
  is_chain (jsHeap st) str l -> chain_inv l -> length (chain_chars l) <= fuel ->
  jsvIterateCallback f (S fuel) (JsString str) st a
  = Some (true, st, foldl (fun a c => f (int_of_char c) a) a (chain_chars l)) /\
  jsvIterateCallback_emitted (S fuel) (JsString str) st
  = Some (true, st, map int_of_char (chain_chars l)).
Proof.
  intros Hch Hinv Hfuel. split; [now apply walk_string|].
  unfold jsvIterateCallback_emitted.
  now rewrite (walk_string emit fuel str st [] l Hch Hinv Hfuel), foldl_emit.
Qed.

(** X5.  Copying a well-formed string of fewer than 2^32 bytes into a
    buffer with [jsvIterateCallbackToBytes] stores the first [dataSize]
    bytes of the string at the start of the buffer, whatever the signedness
    of [char], leaves the rest of the buffer as it was, and returns the
    length of the string, also when that exceeds [dataSize];
    [jsvIterateCallbackCount] returns the length of a string of fewer than
    2^31 bytes. *)
Theorem jsvIterateCallbackToBytes_string fuel str st l buffer (dataSize : nat) :
  is_chain (jsHeap st) str l -> chain_inv l -> length (chain_chars l) <= fuel ->
  (Z.of_nat (length (chain_chars l)) < 2 ^ 32)%Z -> dataSize <= length buffer ->
  jsvIterateCallbackToBytes (S fuel) (JsString str) buffer (Z.of_nat dataSize) st
  = Some (Z.of_nat (length (chain_chars l)),
          take dataSize (chain_chars l)
            ++ drop (min dataSize (length (chain_chars l))) buffer,
          st) /\
  ((Z.of_nat (length (chain_chars l)) < 2 ^ 31)%Z ->
   jsvIterateCallbackCount (S fuel) (JsString str) st
   = Some (Z.of_nat (length (chain_chars l)), st)).
Proof.
  intros Hch Hinv Hfuel Hlen Hsize. split.
  - unfold jsvIterateCallbackToBytes.
    rewrite (walk_string _ fuel str st _ l Hch Hinv Hfuel), foldl_map_sink.
    pose proof (ToBytesCb_fold (map int_of_char (chain_chars l)) buffer 0 dataSize) as H.
    change (Z.of_nat 0) with 0%Z in H. rewrite H by (rewrite ?length_map; simpl; lia).
    cbn [idx buf]. rewrite length_map, Nat.sub_0_r, take_0, take_chars_of_ints.
    reflexivity.
  - intros Hlen'. unfold jsvIterateCallbackCount.
    rewrite (walk_string _ fuel str st _ l Hch Hinv Hfuel), foldl_map_sink.
    rewrite CountCb_fold by (rewrite ?length_map; lia). now rewrite length_map.
Qed.

End StringWalk.

Lemma jsvIterateCallback_string_witness :
  let st := mkState (mkHeap [mkCell ["h"; "i"; x00; x00]%byte 2 0] 1) None in
  jsvIterateCallback_emitted (machine := example_machine) 3 (JsString 1) st
  = Some (true, st, [104; 105]%Z).
Proof.
  intros st.
  destruct (jsvIterateCallback_string (machine := example_machine) emit 2 1 st []
              [(1, mkCell ["h"; "i"; x00; x00]%byte 2 0)]) as [_ H].
  - simpl. auto.
  - split; [apply Forall_singleton | intros H]; simpl in *; lia.
  - simpl. lia.
  - exact H.
Defined.

Lemma jsvIterateCallbackToBytes_string_witness :
  let st := mkState (mkHeap [mkCell ["h"; "i"; "!"; x00]%byte 3 0] 1) None in
  jsvIterateCallbackToBytes (machine := example_machine) 4 (JsString 1)
    ["a"; "b"; "c"; "d"]%byte 2 st
  = Some (3%Z, ["h"; "i"; "c"; "d"]%byte, st).
Proof.
  intros st.
  destruct (jsvIterateCallbackToBytes_string (machine := example_machine) 3 1 st
              [(1, mkCell ["h"; "i"; "!"; x00]%byte 3 0)] ["a"; "b"; "c"; "d"]%byte 2)
    as [H _].
  - simpl. auto.
  - split; [apply Forall_singleton | intros H]; simpl in *; lia.
  - simpl. lia.
  - simpl. lia.
  - simpl. lia.
  - exact H.
Defined.

(** ** Walking an array *)

Section ArrayWalk.

Context {machine : Machine}.

Lemma iterator_walk_stopped {A} (rec : JsVar -> JsState -> A -> walk) fuel it st a :
  iterator_walk rec fuel it false st a = Some (false, st, a).
Proof. destruct fuel; simpl; now rewrite andb_false_r. Qed.

Lemma iterator_walk_full_array {A} (rec : JsVar -> JsState -> A -> walk) var k :
  forall fuel index oit st a,
  ascending_keys index oit ->
  (0 <= index)%Z -> (index + Z.of_nat k = jsvGetArrayLength var)%Z ->
  (jsvGetArrayLength var < 2 ^ 31)%Z -> k <= fuel ->
  iterator_walk rec fuel (JSVI_FULLARRAY index var oit) true st a
  = walk_each rec (map (array_value oit) (seqZ index (Z.of_nat k))) st a.
Proof.
  induction k as [|k IH]; intros fuel index oit st a Hasc Hidx Hlen Hmax Hfuel.
  - assert (Hend : jsvIteratorHasElement (JSVI_FULLARRAY index var oit) = false)
      by (simpl; apply Z.ltb_ge; lia).
    destruct fuel; simpl iterator_walk; simpl in Hend; rewrite Hend; reflexivity.
  - destruct fuel as [|fuel]; [lia|].
    assert (Hhas : jsvIteratorHasElement (JSVI_FULLARRAY index var oit) = true)
      by (simpl; apply Z.ltb_lt; lia).
    destruct (FULLARRAY_get index var oit (jsHeap st) Hasc) as [Hval _].
    rewrite seqZ_cons by lia. cbn [map walk_each iterator_walk].
    rewrite Hhas, Hval. cbn [andb].
    replace (mkState (jsHeap st) (jsException st)) with st by (now destruct st).
    destruct (rec (array_value oit index) st a) as [[[ok st'] a']|]; [|reflexivity].
    destruct (FULLARRAY_next index var oit (jsHeap st') Hasc) as (oit' & Hnext & Hasc' & Hsame);
      try lia.
    rewrite Hnext. destruct ok; [|apply iterator_walk_stopped].
    rewrite (IH fuel (index + 1)%Z oit' st' a' Hasc') by lia.
    replace (Z.pred (Z.of_nat (S k))) with (Z.of_nat k) by lia.
    replace (Z.succ index) with (index + 1)%Z by lia.
    f_equal. apply map_ext_in. intros i Hi.
    apply list_elem_of_In, elem_of_seqZ in Hi.
    unfold array_value. rewrite Hsame by lia. reflexivity.
Qed.

Lemma walk_full_array {A} (rec : JsVar -> JsState -> A -> walk) fuel length children st a :
  ascending_keys 0 children -> (0 <= length < 2 ^ 31)%Z -> Z.to_nat length <= fuel ->
  iterator_walk rec fuel (JSVI_FULLARRAY 0 (JsArray length children) children) true st a
  = walk_each rec (map (array_value children) (seqZ 0 length)) st a.
Proof.
  intros Hasc Hlen Hfuel.
  rewrite (iterator_walk_full_array _ (JsArray length children) (Z.to_nat length)
             fuel 0 children st a Hasc); simpl; try lia.
  now rewrite Z2Nat.id by lia.
Qed.

Lemma walk_number {A} (f : Z -> A -> A) fuel v st a :
  jsvIsNumeric v = true ->
  jsvIterateCallback f (S fuel) v st a
  = Some (true, st, f (to_int32 (jsvGetInteger v)) a).
Proof. intros H. cbn [jsvIterateCallback]. now rewrite H. Qed.

Lemma walk_null {A} (f : Z -> A -> A) fuel st a :
  jsvIterateCallback f (S fuel) JsUndefined st a
  = Some (false, jsExceptionHere JSET_TYPEERROR st, a).
Proof. reflexivity. Qed.

Lemma walk_each_numbers {A} (f : Z -> A -> A) fuel vs : forall rest st a,
  Forall (fun v => jsvIsNumeric v = true) vs ->
  walk_each (jsvIterateCallback f (S fuel)) (vs ++ rest) st a
  = walk_each (jsvIterateCallback f (S fuel)) rest st
      (foldl (fun a v => f (to_int32 (jsvGetInteger v)) a) a vs).
Proof.
  induction vs as [|v vs IH]; intros rest st a Hnum; [reflexivity|].
  inversion Hnum as [|? ? Hv Hvs]; subst.
  cbn [app walk_each foldl]. rewrite (walk_number f fuel v st a Hv). now apply IH.
Qed.

(** X6.  Walking an array walks its elements: for an array of length
    [length] whose children are stored in ascending order of their integer
    keys, the walk is the walk of the values at the indices
    0 .. length-1 one after the other (a null value where no child is
    stored), stopping at the first that fails. *)
Theorem jsvIterateCallback_array {A} (f : Z -> A -> A) fuel length children st a :
  ascending_keys 0 children -> (0 <= length < 2 ^ 31)%Z -> Z.to_nat length <= fuel ->
  jsvIterateCallback f (S fuel) (JsArray length children) st a
  = walk_each (jsvIterateCallback f fuel)
      (map (array_value children) (seqZ 0 length)) st a.
Proof.
  intros Hasc Hlen Hfuel.
  cbn [jsvIterateCallback jsvIsNumeric jsvIsObject jsvIsString jsvIsArrayBuffer].
  change (jsvIsIterable (JsArray length children)) with true. cbv iota.
  change (jsvIteratorNew fuel (jsHeap st) (JsArray length children) true)
    with (Some (JSVI_FULLARRAY 0 (JsArray length children) children)).
  cbv iota. now apply walk_full_array.
Qed.

(** X7.  An array of numbers is walked by handing the sink the integer
    value of each element in index order.  A hole ends the walk: when the
    elements before index [i] are numbers and no child is stored at [i],
    the sink receives those numbers only and the walk fails, recording a
    type error. *)
Theorem jsvIterateCallback_array_of_numbers {A} (f : Z -> A -> A) fuel length children
    st a :
  ascending_keys 0 children -> (0 <= length < 2 ^ 31)%Z -> Z.to_nat length <= fuel ->
  ((forall j, (0 <= j < length)%Z -> jsvIsNumeric (array_value children j) = true) ->
   jsvIterateCallback f (S (S fuel)) (JsArray length children) st a
   = Some (true, st,
           foldl (fun a j => f (to_int32 (jsvGetInteger (array_value children j))) a)
                 a (seqZ 0 length))) /\
  (forall i,
     (0 <= i < length)%Z -> array_child children i = None ->
     (forall j, (0 <= j < i)%Z -> jsvIsNumeric (array_value children j) = true) ->
     jsvIterateCallback f (S (S fuel)) (JsArray length children) st a
     = Some (false, jsExceptionHere JSET_TYPEERROR st,
             foldl (fun a j => f (to_int32 (jsvGetInteger (array_value children j))) a)
                   a (seqZ 0 i))).
Proof.
  intros Hasc Hlen Hfuel.
  assert (Hnums : forall n, (0 <= n)%Z ->
            (forall j, (0 <= j < n)%Z -> jsvIsNumeric (array_value children j) = true) ->
            Forall (fun v => jsvIsNumeric v = true)
                   (map (array_value children) (seqZ 0 n))).
  { intros n Hn Hall. apply Forall_forall. intros v Hv.
    apply list_elem_of_In, in_map_iff in Hv as (j & <- & Hj).
    apply list_elem_of_In, elem_of_seqZ in Hj. apply Hall. lia. }
  assert (Hfold : forall (n : Z) b,
            foldl (fun a v => f (to_int32 (jsvGetInteger v)) a) b
                  (map (array_value children) (seqZ 0 n))
            = foldl (fun a j => f (to_int32 (jsvGetInteger (array_value children j))) a)
                    b (seqZ 0 n)).
  { intros n b. generalize (seqZ 0 n). intros js. revert b.
    induction js as [|j js IH]; intros b; simpl; [reflexivity | apply IH]. }
  assert (Hwalk : jsvIterateCallback f (S (S fuel)) (JsArray length children) st a
                  = walk_each (jsvIterateCallback f (S fuel))
                      (map (array_value children) (seqZ 0 length)) st a).
  { cbn [jsvIterateCallback jsvIsNumeric jsvIsObject jsvIsString jsvIsArrayBuffer].
    change (jsvIsIterable (JsArray length children)) with true. cbv iota.
    change (jsvIteratorNew (S fuel) (jsHeap st) (JsArray length children) true)
      with (Some (JSVI_FULLARRAY 0 (JsArray length children) children)).
    cbv iota. apply walk_full_array; auto. }
  split.
  - intros Hall. rewrite Hwalk.
    rewrite <- (app_nil_r (map _ _)), walk_each_numbers by (apply Hnums; [lia | exact Hall]).
    cbn [walk_each]. now rewrite Hfold.
  - intros i Hi Hhole Hall. rewrite Hwalk.
    replace length with (i + (length - i))%Z at 1 by lia.
    rewrite seqZ_app, map_app by lia.
    rewrite walk_each_numbers by (apply Hnums; [lia | exact Hall]).
    rewrite seqZ_cons by lia. cbn [map walk_each].
    replace (array_value children (0 + i)) with JsUndefined
      by (unfold array_value; rewrite Z.add_0_l, Hhole; reflexivity).
    rewrite walk_null. now rewrite Hfold.
Qed.

End ArrayWalk.

Lemma jsvIterateCallback_array_witness :
  let st := mkState (mkHeap [mkCell ["h"; "i"; x00; x00]%byte 2 0] 1) None in
  jsvIterateCallback_emitted (machine := example_machine) 4
    (JsArray 2 [JsNameInt 0 7; JsName (KeyInt 1) (JsString 1)]) st
  = Some (true, st, [7; 104; 105]%Z).
Proof.
  intros st. unfold jsvIterateCallback_emitted.
  rewrite (jsvIterateCallback_array (machine := example_machine) emit 3 2
             [JsNameInt 0 7; JsName (KeyInt 1) (JsString 1)] st []).
  - reflexivity.
  - simpl. lia.
  - lia.
  - simpl. lia.
Defined.

Lemma jsvIterateCallback_array_of_numbers_witness :
  let st := mkState (mkHeap [] 0) None in
  jsvIterateCallback_emitted (machine := example_machine) 5
    (JsArray 3 [JsNameInt 0 7; JsNameInt 2 9]) st
  = Some (false, mkState (mkHeap [] 0) (Some JSET_TYPEERROR), [7]%Z).
Proof.
  intros st. unfold jsvIterateCallback_emitted.
  destruct (jsvIterateCallback_array_of_numbers (machine := example_machine) emit 3 3
              [JsNameInt 0 7; JsNameInt 2 9] st []) as [_ H].
  - simpl. lia.
  - lia.
  - simpl. lia.
  - rewrite (H 1%Z); [reflexivity | lia | reflexivity |].
    intros j Hj. assert (j = 0%Z) as -> by lia. reflexivity.
Defined.

(** ** Overwriting keeps the shape of a chain *)

Lemma chain_length_shape l l' : chain_shape l = chain_shape l' -> chain_length l = chain_length l'.
Proof.
  revert l'. induction l as [|x l IH]; intros [|y l'] H; try discriminate; [reflexivity|].
  simpl in *. inversion H. f_equal; auto.
Qed.

Lemma chain_inv_fits l : chain_inv l ->
  Forall (fun rv => charactersInVar rv.2 <= length (varData_str rv.2)) l.
Proof. now intros [H _]. Qed.

Lemma length_chars_shape l l' :
  chain_inv l -> chain_inv l' -> chain_shape l = chain_shape l' ->
  length (chain_chars l) = length (chain_chars l').
Proof.
  intros H H' Hs. rewrite !length_chain_chars by now apply chain_inv_fits.
  now apply chain_length_shape.
Qed.

Lemma cursor_pos_shape h h' str l l' it p :
  is_chain h' str l' -> chain_inv l -> chain_inv l' -> chain_shape l = chain_shape l' ->
  cursor_pos h l it p -> cursor_pos h' l' it p.
Proof.
  intros Hch' Hinv Hinv' Hs [(m0 & m1 & Hl & Hcur & Hlt & Hvi & Hp) | [-> ->]].
  - left. destruct m1 as [|rv m1]; [destruct Hcur as [[] _]|].
    destruct Hcur as (Hch & Hptr & Hn).
    destruct (is_chain_head _ _ _ _ Hch) as [Hrv _].
    set (n := length m0).
    assert (Hn0 : length (chain_shape m0) = n) by (unfold chain_shape; apply length_map).
    assert (Hsplit : chain_shape l' = chain_shape m0 ++ chain_shape (rv :: m1))
      by (rewrite <- Hs, Hl; unfold chain_shape; apply map_app).
    assert (Htake : chain_shape (take n l') = chain_shape m0).
    { unfold chain_shape at 1. rewrite <- firstn_map. fold (chain_shape l').
      rewrite Hsplit, <- Hn0. apply take_app_length. }
    assert (Hdrop : chain_shape (drop n l') = chain_shape (rv :: m1)).
    { unfold chain_shape at 1. rewrite <- skipn_map. fold (chain_shape l').
      rewrite Hsplit, <- Hn0. apply drop_app_length. }
    destruct (drop n l') as [|x r'] eqn:Edrop; [discriminate|].
    simpl in Hdrop. inversion Hdrop as [[Hx1 Hx2 Hx3 Hrest]].
    assert (Hl' : l' = take n l' ++ x :: r') by (now rewrite <- Edrop, take_drop).
    exists (take n l'), (x :: r'). split_and!; auto.
    + split_and!; auto; [|congruence].
      rewrite <- Hrv, <- Hx1. rewrite Hl' in Hch'. apply (is_chain_suffix _ _ _ _ _ Hch').
    + rewrite Hvi.
      assert (Hf0 : chain_inv l -> Forall (fun rv => charactersInVar rv.2 <= length (varData_str rv.2)) m0).
      { intros [Hf _]. rewrite Hl in Hf. now apply Forall_app in Hf as [? _]. }
      assert (Hf0' : Forall (fun rv => charactersInVar rv.2 <= length (varData_str rv.2)) (take n l'))
        by (apply Forall_take, chain_inv_fits, Hinv').
      rewrite !length_chain_chars by auto. symmetry. now apply chain_length_shape.
  - right. split; [|now apply length_chars_shape].
    now rewrite (length_chars_shape l l').
Qed.

Lemma SetChar_keeps h str l it p c :
  is_chain h str l -> chain_inv l -> cursor_pos h l it p ->
  p < length (chain_chars l) ->
  exists l',
    is_chain (jsvStringIteratorSetChar h it c) str l' /\ chain_inv l' /\
    chain_shape l' = chain_shape l /\
    chain_chars l' = <[p := c]> (chain_chars l).
Proof.
  intros Hch Hinv Hpos Hlen.
  destruct (SetChar_pos h str l it p c Hch Hinv Hpos Hlen)
    as (l' & Hch' & Hinv' & _ & Hchars).
  exists l'. split_and!; auto.
  destruct (cursor_pos_lt _ _ _ _ Hinv Hpos Hlen)
    as (l0 & rv & l1 & Hl & Hcur & Hlt & Hvi & Hp & Hn & Hfit).
  pose proof (cursor_on_ptr _ _ _ _ Hcur) as Hptr0.
  destruct Hcur as (Hch1 & Hptr & _).
  destruct (is_chain_head _ _ _ _ Hch1) as [Hrv Hlock].
  revert Hch'. unfold jsvStringIteratorSetChar.
  replace (jsvStringIteratorHasChar it) with true
    by (symmetry; apply HasChar_true; auto).
  assert (Hlock' : jsvLock h rv.1 = Some rv.2) by (rewrite Hrv; exact Hlock).
  rewrite Hptr, <- Hrv, (writeChar_lock _ _ _ _ _ Hlock').
  set (v' := mkCell (<[charIdx it := c]> (varData_str rv.2)) (charactersInVar rv.2)
               (lastChild rv.2)).
  intros Hch'.
  assert (Hch'' : is_chain (jsvStore h rv.1 v') str (l0 ++ (rv.1, v') :: l1))
    by (apply is_chain_store_cell; [now rewrite <- Hl | reflexivity]).
  rewrite (is_chain_func _ _ _ _ Hch' Hch''), Hl.
  unfold chain_shape. rewrite !map_app. reflexivity.
Qed.

Lemma write_loop_keeps str dataLen data : forall order h l sit p,
  is_chain h str l -> chain_inv l -> cursor_pos h l sit p -> dataLen <> 1 ->
  p + length order <= length (chain_chars l) ->
  exists h' l' sit',
    setValue_loop h sit data dataLen order = (h', sit') /\
    is_chain h' str l' /\ chain_inv l' /\ chain_shape l' = chain_shape l /\
    cursor_pos h' l' sit' (p + length order) /\
    chain_chars l'
    = take p (chain_chars l) ++ gather order data
        ++ drop (p + length order) (chain_chars l).
Proof.
  unfold setValue_loop.
  induction order as [|i order IH]; intros h l sit p Hch Hinv Hpos Hlen1 Hlen.
  - exists h, l, sit. simpl. rewrite Nat.add_0_r, take_drop. now split_and!.
  - simpl in Hlen. cbn [foldl].
    replace (dataLen =? 1) with false by (symmetry; now apply Nat.eqb_neq).
    destruct (SetChar_keeps h str l sit p (default x00 (data !! i)) Hch Hinv Hpos ltac:(lia))
      as (l1 & Hch1 & Hinv1 & Hshape1 & Hchars1).
    assert (Hpos1 : cursor_pos (jsvStringIteratorSetChar h sit (default x00 (data !! i)))
                      l1 sit p)
      by (apply (cursor_pos_shape h _ str l l1); auto).
    assert (Hlen1' : length (chain_chars l1) = length (chain_chars l))
      by (rewrite Hchars1; apply length_insert).
    pose proof (Next_pos _ l1 sit p Hinv1 Hpos1 ltac:(lia)) as Hnext.
    destruct (IH _ l1 _ (S p) Hch1 Hinv1 Hnext Hlen1 ltac:(lia))
      as (h' & l' & sit' & Hrun & Hch' & Hinv' & Hshape' & Hpos' & Hchars').
    exists h', l', sit'.
    replace (dataLen =? 1) with false in Hrun by (symmetry; now apply Nat.eqb_neq).
    split_and!; auto.
    + congruence.
    + replace (p + length (i :: order)) with (S p + length order) by (simpl; lia).
      exact Hpos'.
    + rewrite Hchars', Hchars1. cbn [gather map length].
      rewrite (take_S_r _ _ (default x00 (data !! i)))
        by (apply list_lookup_insert_eq; lia).
      rewrite take_insert_ge by lia. rewrite drop_insert_lt by (simpl; lia).
      rewrite <- app_assoc. cbn [app gather].
      now replace (p + S (length order)) with (S p + length order) by lia.
Qed.

(** Writing the bytes of an element keeps the shape of the chain, so that
    every cursor on it stays where it is. *)
Lemma setValue_loop_keeps h str l sit p data w b :
  is_chain h str l -> chain_inv l -> cursor_pos h l sit p ->
  1 <= w -> p + w <= length (chain_chars l) ->
  exists h' l' sit',
    setValue_loop h sit data w (element_order b w) = (h', sit') /\
    is_chain h' str l' /\ chain_inv l' /\ chain_shape l' = chain_shape l /\
    cursor_pos h' l' sit' (if w =? 1 then p else p + w) /\
    (forall it0 p0, cursor_pos h l it0 p0 -> cursor_pos h' l' it0 p0) /\
    chain_chars l'
    = take p (chain_chars l) ++ gather (element_order b w) data
        ++ drop (p + w) (chain_chars l).
Proof.
  intros Hch Hinv Hpos Hw Hlen.
  assert (H : exists h' l' sit',
            setValue_loop h sit data w (element_order b w) = (h', sit') /\
            is_chain h' str l' /\ chain_inv l' /\ chain_shape l' = chain_shape l /\
            cursor_pos h' l' sit' (if w =? 1 then p else p + w) /\
            chain_chars l'
            = take p (chain_chars l) ++ gather (element_order b w) data
                ++ drop (p + w) (chain_chars l)).
  { destruct (Nat.eqb_spec w 1) as [Hw1|Hw1].
    - rewrite Hw1. replace (element_order b 1) with [0] by (now destruct b).
      unfold setValue_loop. cbn [foldl Nat.eqb].
      destruct (SetChar_keeps h str l sit p (default x00 (data !! 0)) Hch Hinv Hpos ltac:(lia))
        as (l1 & Hch1 & Hinv1 & Hshape1 & Hchars1).
      eexists _, l1, sit. split_and!; eauto.
      + apply (cursor_pos_shape h _ str l l1); auto.
      + rewrite Hchars1, insert_take_drop' by lia. cbn [gather map app].
        now replace (p + 1) with (S p) by lia.
    - destruct (write_loop_keeps str w data (element_order b w) h l sit p Hch Hinv Hpos Hw1)
        as (h' & l' & sit' & Hrun & Hch' & Hinv' & Hshape' & Hpos' & Hchars').
      + rewrite length_element_order. lia.
      + rewrite length_element_order in Hchars', Hpos'.
        exists h', l', sit'. now split_and!. }
  destruct H as (h' & l' & sit' & Hrun & Hch' & Hinv' & Hshape' & Hpos' & Hchars').
  exists h', l', sit'. split_and!; auto.
  intros it0 p0 Hpos0. apply (cursor_pos_shape h _ str l l'); auto.
Qed.

(** ** The bytes of an element *)

Lemma gather_seq d : forall w k,
  k + w <= length d -> gather (seq k w) d = take w (drop k d).
Proof.
  intros w. induction w as [|w IH]; intros k Hk; [now rewrite take_0|].
  cbn [seq gather map]. fold (gather (seq (S k) w) d). rewrite IH by lia.
  destruct (lookup_lt_is_Some_2 d k ltac:(lia)) as [c Hc].
  rewrite Hc, (drop_lookup_cons _ _ _ Hc). reflexivity.
Qed.

Lemma gather_element_order b w d :
  w <= length d ->
  gather (element_order b w) d = if b then rev (take w d) else take w d.
Proof.
  intros Hw. unfold element_order. destruct b.
  - unfold gather. rewrite map_rev. fold (gather (seq 0 w) d).
    now rewrite gather_seq, drop_0 by lia.
  - now rewrite gather_seq, drop_0 by lia.
Qed.

Lemma gather_bytes_of_int b w n v d :
  w <= n ->
  gather (element_order b w) (bytes_of_int n v ++ d) = element_bytes b w v.
Proof.
  intros Hw. rewrite gather_element_order by (rewrite length_app, length_bytes_of_int; lia).
  rewrite take_app_le by (rewrite length_bytes_of_int; lia).
  now rewrite take_bytes_of_int by lia.
Qed.

Lemma clamped_value_eq tag v :
  (if JSV_ARRAYBUFFER_IS_CLAMPED tag
   then let v := if (v <? 0)%Z then 0%Z else v in if (255 <? v)%Z then 255%Z else v
   else v)
  = clamped_value tag v.
Proof.
  unfold clamped_value. destruct (JSV_ARRAYBUFFER_IS_CLAMPED tag); [|reflexivity].
  cbv zeta.
  destruct (Z.ltb_spec v 0); [destruct (Z.ltb_spec 255 0) | destruct (Z.ltb_spec 255 v)]; lia.
Qed.

Lemma IntToData_bytes data dataLen tag v :
  (dataLen <> 8)%Z ->
  jsvArrayBufferIteratorIntToData data dataLen tag v
  = bytes_of_int 4 (clamped_value tag v) ++ drop 4 data.
Proof.
  intros H. unfold jsvArrayBufferIteratorIntToData. rewrite clamped_value_eq.
  now replace (dataLen =? 8)%Z with false by (symmetry; now apply Z.eqb_neq).
Qed.

Lemma char_of_int_mod v : char_of_int (v mod 256) = char_of_int v.
Proof. unfold char_of_int. now rewrite Z.mod_mod by lia. Qed.

Lemma bytes_of_int_of_bytes bs : bytes_of_int (length bs) (int_of_bytes bs) = bs.
Proof.
  induction bs as [|c bs IH]; [reflexivity|].
  cbn [length bytes_of_int int_of_bytes]. pose proof (uchar_range c) as Hc.
  f_equal.
  - rewrite <- char_of_int_mod.
    replace ((uchar c + 256 * int_of_bytes bs) mod 256)%Z with (uchar c);
      [apply char_of_int_uchar|].
    rewrite Z.mul_comm, Z_mod_plus_full, Z.mod_small; lia.
  - replace ((uchar c + 256 * int_of_bytes bs) / 256)%Z with (int_of_bytes bs);
      [exact IH|].
    rewrite Z.mul_comm, Z.div_add, Z.div_small; lia.
Qed.

Lemma pow_256 w : (256 ^ Z.of_nat w = 2 ^ (8 * Z.of_nat w))%Z.
Proof. change 256%Z with (2 ^ 8)%Z. now rewrite <- Z.pow_mul_r by lia. Qed.

(** The bytes found in the backing string are the bytes of the unsigned
    number they spell. *)
Lemma element_bytes_of_bytes b bs :
  element_bytes b (length bs) (int_of_bytes (if b then rev bs else bs)) = bs.
Proof.
  unfold element_bytes. destruct b.
  - rewrite <- (length_rev bs), bytes_of_int_of_bytes. apply rev_involutive.
  - apply bytes_of_int_of_bytes.
Qed.

Lemma element_of_bytes_bytes tag v :
  let w := Z.to_nat (JSV_ARRAYBUFFER_GET_SIZE tag) in
  element_of_bytes tag (element_bytes (JSV_ARRAYBUFFER_IS_BIG_ENDIAN tag) w
                          (clamped_value tag v))
  = element_value tag v.
Proof.
  intros w. pose proof (JSV_ARRAYBUFFER_GET_SIZE_range tag) as Hr.
  unfold element_of_bytes, element_value, element_bytes. fold (clamped_value tag v).
  assert (Hv : int_of_bytes
                 (if JSV_ARRAYBUFFER_IS_BIG_ENDIAN tag
                  then rev (if JSV_ARRAYBUFFER_IS_BIG_ENDIAN tag
                            then rev (bytes_of_int w (clamped_value tag v))
                            else bytes_of_int w (clamped_value tag v))
                  else if JSV_ARRAYBUFFER_IS_BIG_ENDIAN tag
                       then rev (bytes_of_int w (clamped_value tag v))
                       else bytes_of_int w (clamped_value tag v))
               = (clamped_value tag v mod 2 ^ (8 * JSV_ARRAYBUFFER_GET_SIZE tag))%Z).
  { destruct (JSV_ARRAYBUFFER_IS_BIG_ENDIAN tag); rewrite ?rev_involutive;
      rewrite int_of_bytes_of_int, pow_256; unfold w; now rewrite Z2Nat.id by lia. }
  cbv zeta. now rewrite Hv.
Qed.

(** ** One element of a typed view *)

(** Reading the element at byte [p]: the integer its bytes spell. *)
Lemma Get_element h l it p data :
  chain_inv l -> cursor_pos h l (strIt it) p ->
  let tag := type it in
  let w := Z.to_nat (JSV_ARRAYBUFFER_GET_SIZE tag) in
  let e := element_of_bytes tag (take w (drop p (chain_chars l))) in
  1 <= w <= 4 -> JSV_ARRAYBUFFER_IS_FLOAT tag = false ->
  p + w <= length (chain_chars l) -> length data = 8 ->
  exists sit',
    let it' := mkArrayBufferIterator sit' tag (byteLength it) (byteOffset it) (index it)
                 (if w =? 1 then hasAccessedElement it else true) in
    cursor_pos h l sit' (if w =? 1 then p else p + w) /\
    jsvArrayBufferIteratorGetIntegerValue h it data = (to_int32 e, it') /\
    jsvArrayBufferIteratorGetValue h it data
    = (if (Z.land tag (Z.lnot ARRAYBUFFERVIEW_BIG_ENDIAN) =? ARRAYBUFFERVIEW_UINT32)%Z
       then jsvNewFromLongInteger (e mod 2 ^ 32)
       else jsvNewFromInteger (to_int32 e), it').
Proof.
  intros Hinv Hpos tag w e Hw Hfloat Hlen Hdata.
  assert (Hsize : (JSV_ARRAYBUFFER_GET_SIZE (type it) <> 0)%Z) by (unfold w, tag in Hw; lia).
  destruct (Get_defined h it data Hsize) as (Htype & Hint & _ & Hval).
  destruct (GetValueData_spec h l it p data Hinv Hpos) as (sit' & Hrun & Hpos');
    try (fold tag; fold w; lia).
  fold tag in Hrun, Hpos', Hint, Hval, Htype. fold w in Hrun, Hpos'.
  rewrite Hrun in Hint, Hval, Htype. cbn [fst snd] in Hint, Hval.
  rewrite Hfloat in Hint, Hval.
  exists sit'. cbv zeta. split; [exact Hpos'|].
  set (bs := take w (drop p (chain_chars l))) in *.
  assert (Hbs : length bs = w) by (unfold bs; rewrite length_take, length_drop; lia).
  set (b := JSV_ARRAYBUFFER_IS_BIG_ENDIAN tag) in *.
  set (v := int_of_bytes (if b then rev bs else bs)).
  assert (Hv : (0 <= v < 2 ^ (8 * JSV_ARRAYBUFFER_GET_SIZE tag))%Z).
  { pose proof (int_of_bytes_range (if b then rev bs else bs)) as Hr.
    replace (length (if b then rev bs else bs)) with w in Hr
      by (destruct b; rewrite ?length_rev; lia).
    rewrite pow_256 in Hr. unfold w in Hr. rewrite Z2Nat.id in Hr by (unfold w in Hw; lia).
    exact Hr. }
  assert (Hd : take w (scatter (element_order b w) bs data) = bytes_of_int w v).
  { rewrite <- (element_bytes_of_bytes b bs) at 1. fold v. rewrite Hbs.
    replace (element_bytes b w v) with (gather (element_order b w) (bytes_of_int w v)).
    2:{ rewrite gather_element_order, firstn_all2 by (rewrite length_bytes_of_int; lia).
        reflexivity. }
    rewrite take_scatter_gather by (rewrite ?length_bytes_of_int; lia).
    apply firstn_all2. rewrite length_bytes_of_int. lia. }
  pose proof (DataToInt_value
                (mkArrayBufferIterator sit' tag (byteLength it) (byteOffset it) (index it)
                   (if w =? 1 then hasAccessedElement it else true))
                (scatter (element_order b w) bs data) v) as Hconv.
  cbn [type] in Hconv. fold w in Hconv.
  specialize (Hconv ltac:(unfold w in Hw; lia) Hd).
  rewrite (Z.mod_small v) in Hconv by exact Hv.
  assert (He : e = (if JSV_ARRAYBUFFER_IS_SIGNED tag
                       && (2 ^ (8 * JSV_ARRAYBUFFER_GET_SIZE tag - 1) <=? v)%Z
                    then v - 2 ^ (8 * JSV_ARRAYBUFFER_GET_SIZE tag) else v)%Z)
    by reflexivity.
  rewrite <- He in Hconv. rewrite Hconv in Hint, Hval.
  rewrite (to_int32_mod2 e 32) in Hval by lia.
  split; [exact Hint | exact Hval].
Qed.

(** Writing the element at byte [p]: the bytes stored, and what stays. *)
Lemma Set_element h str l it p data :
  is_chain h str l -> chain_inv l -> cursor_pos h l (strIt it) p ->
  let tag := type it in
  let w := Z.to_nat (JSV_ARRAYBUFFER_GET_SIZE tag) in
  let moved sit' :=
    mkArrayBufferIterator sit' tag (byteLength it) (byteOffset it) (index it)
      (if w =? 1 then hasAccessedElement it else true) in
  let written h' (bs : list byte) sit' :=
    exists l',
      is_chain h' str l' /\ chain_inv l' /\ chain_shape l' = chain_shape l /\
      cursor_pos h' l' sit' (if w =? 1 then p else p + w) /\
      (forall it0 p0, cursor_pos h l it0 p0 -> cursor_pos h' l' it0 p0) /\
      chain_chars l' = take p (chain_chars l) ++ bs ++ drop (p + w) (chain_chars l) in
  1 <= w <= 4 -> JSV_ARRAYBUFFER_IS_FLOAT tag = false ->
  p + w <= length (chain_chars l) ->
  (forall value, exists h' sit',
     jsvArrayBufferIteratorSetValue h it value data = (h', moved sit') /\
     written h' (element_bytes (JSV_ARRAYBUFFER_IS_BIG_ENDIAN tag) w
                   (clamped_value tag (jsvGetInteger value))) sit') /\
  (forall v, exists h' sit',
     jsvArrayBufferIteratorSetIntegerValue h it v data = (h', moved sit') /\
     written h' (element_bytes false w (clamped_value tag v)) sit').
Proof.
  intros Hch Hinv Hpos tag w moved written Hw Hfloat Hlen.
  assert (Hsize : (JSV_ARRAYBUFFER_GET_SIZE (type it) <> 0)%Z) by (unfold w, tag in Hw; lia).
  assert (Hne8 : (JSV_ARRAYBUFFER_GET_SIZE (type it) <> 8)%Z) by (unfold w, tag in Hw; lia).
  destruct (Set_defined h it data Hsize) as [Hint Hval].
  fold tag in Hint, Hval. fold w in Hint, Hval. rewrite Hfloat in Hint, Hval.
  assert (Hloop : forall b v, exists h' sit',
            setValue_loop h (strIt it)
              (jsvArrayBufferIteratorIntToData data (JSV_ARRAYBUFFER_GET_SIZE tag) tag v)
              w (element_order b w) = (h', sit') /\
            written h' (element_bytes b w (clamped_value tag v)) sit').
  { intros b v. rewrite IntToData_bytes by exact Hne8.
    destruct (setValue_loop_keeps h str l (strIt it) p
                (bytes_of_int 4 (clamped_value tag v) ++ drop 4 data) w b Hch Hinv Hpos)
      as (h' & l' & sit' & Hrun & Hch' & Hinv' & Hshape' & Hpos' & Hkeep & Hchars');
      try lia.
    exists h', sit'. split; [exact Hrun|]. exists l'. split_and!; auto.
    now rewrite Hchars', gather_bytes_of_int by lia. }
  split.
  - intros value. rewrite Hval.
    destruct (Hloop (JSV_ARRAYBUFFER_IS_BIG_ENDIAN tag) (jsvGetInteger value))
      as (h' & sit' & Hrun & Hwr).
    exists h', sit'. rewrite Hrun. now split.
  - intros v. rewrite Hint.
    destruct (Hloop false v) as (h' & sit' & Hrun & Hwr).
    exists h', sit'. rewrite Hrun. now split.
Qed.

(** X10.  On a typed view of integers of 1 to 4 bytes,
    [jsvArrayBufferIteratorSetValueAndRewind] stores the low bytes of the
    value (saturated first on a clamped view) in the element under the
    cursor, most significant byte first on a big-endian view and least
    significant first otherwise, changes no other byte of the backing
    string and leaves the cursor as it was; and
    [jsvArrayBufferIteratorGetValueAndRewind] then reads the stored value
    back, truncated to the width of the element and sign-extended on a
    signed view, again without moving the cursor. *)
Theorem jsvArrayBufferIterator_set_get_rewind h str l it p value data data' :
  is_chain h str l -> chain_inv l -> cursor_pos h l (strIt it) p ->
  let tag := type it in
  let w := Z.to_nat (JSV_ARRAYBUFFER_GET_SIZE tag) in
  let e := element_value tag (jsvGetInteger value) in
  1 <= w <= 4 -> JSV_ARRAYBUFFER_IS_FLOAT tag = false ->
  hasAccessedElement it = false ->
  p + w <= length (chain_chars l) -> length data' = 8 ->
  exists h' l',
    jsvArrayBufferIteratorSetValueAndRewind h it value data = (h', it) /\
    is_chain h' str l' /\ chain_inv l' /\
    chain_chars l'
    = take p (chain_chars l)
        ++ element_bytes (JSV_ARRAYBUFFER_IS_BIG_ENDIAN tag) w
             (clamped_value tag (jsvGetInteger value))
        ++ drop (p + w) (chain_chars l) /\
    jsvArrayBufferIteratorGetValueAndRewind h' it data'
    = (if (Z.land tag (Z.lnot ARRAYBUFFERVIEW_BIG_ENDIAN) =? ARRAYBUFFERVIEW_UINT32)%Z
       then jsvNewFromLongInteger (e mod 2 ^ 32)
       else jsvNewFromInteger (to_int32 e), it).
Proof.
  intros Hch Hinv Hpos tag w e Hw Hfloat Hflag Hlen Hdata'.
  destruct (Set_element h str l it p data Hch Hinv Hpos) as [Hset _]; try assumption.
  destruct (Hset value) as (h' & sit' & Hrun & l' & Hch' & Hinv' & Hshape & _ & Hkeep & Hchars).
  fold tag in Hrun, Hchars. fold w in Hrun, Hchars.
  assert (Hit : mkArrayBufferIterator (strIt it) tag (byteLength it) (byteOffset it)
                  (index it) false = it)
    by (unfold tag; rewrite <- Hflag; now destruct it).
  exists h', l'. split_and!; auto.
  - unfold jsvArrayBufferIteratorSetValueAndRewind, jsvStringIteratorClone.
    rewrite Hrun. cbn [type byteLength byteOffset index]. now rewrite Hit.
  - assert (Hlen' : length (chain_chars l') = length (chain_chars l))
      by (now apply length_chars_shape).
    destruct (Get_element h' l' it p data' Hinv' (Hkeep _ _ Hpos)) as (sit2 & _ & _ & Hget);
      try assumption; try (fold tag; fold w; lia).
    fold tag in Hget. fold w in Hget.
    unfold jsvArrayBufferIteratorGetValueAndRewind, jsvStringIteratorClone.
    rewrite Hget. cbn [type byteLength byteOffset index]. rewrite Hit.
    assert (Hbytes : take w (drop p (chain_chars l'))
                     = element_bytes (JSV_ARRAYBUFFER_IS_BIG_ENDIAN tag) w
                         (clamped_value tag (jsvGetInteger value))).
    { rewrite Hchars, drop_app_length' by (rewrite length_take; lia).
      apply take_app_length'.
      unfold element_bytes. destruct (JSV_ARRAYBUFFER_IS_BIG_ENDIAN tag);
        rewrite ?length_rev, length_bytes_of_int; reflexivity. }
    rewrite Hbytes. unfold w. rewrite element_of_bytes_bytes. reflexivity.
Qed.

Lemma jsvArrayBufferIterator_set_get_rewind_witness :
  let h := mkHeap [mkCell ["a"; "b"; "c"; "d"]%byte 4 0] 1 in
  let it := mkArrayBufferIterator (mkStringIterator 2 4 0 1 1) 146 4 2 1 false in
  exists h' l',
    jsvArrayBufferIteratorSetValueAndRewind h it (JsInt (-2)) (replicate 8 x00) = (h', it) /\
    is_chain h' 1 l' /\
    chain_chars l' = ["a"; "b"; xff; xfe]%byte /\
    jsvArrayBufferIteratorGetValueAndRewind h' it (replicate 8 x00) = (JsInt (-2), it).
Proof.
  intros h it.
  destruct (jsvArrayBufferIterator_set_get_rewind h 1
              [(1, mkCell ["a"; "b"; "c"; "d"]%byte 4 0)] it 2 (JsInt (-2))
              (replicate 8 x00) (replicate 8 x00))
    as (h' & l' & Hset & Hch & _ & Hchars & Hget).
  - simpl. auto.
  - split; [apply Forall_singleton | intros H]; simpl in *; lia.
  - left. exists [], [(1, mkCell ["a"; "b"; "c"; "d"]%byte 4 0)].
    split_and!; simpl; auto. split_and!; simpl; auto.
  - vm_compute. lia.
  - reflexivity.
  - reflexivity.
  - vm_compute. lia.
  - reflexivity.
  - exists h', l'. split_and!; auto.
Defined.

(** X11.  [jsvArrayBufferIteratorSetIntegerValue] stores the low bytes of
    the integer (saturated first on a clamped view) least significant byte
    first, whatever the endianness of the view, and changes no other byte
    of the backing string.  Reading the element again through
    [jsvArrayBufferIteratorGetIntegerValue] gives the integer those bytes
    spell in the byte order of the view: on a little-endian view this is
    the value written, truncated to the width of the element and
    sign-extended on a signed view. *)
Theorem jsvArrayBufferIteratorSetIntegerValue_byte_order h str l it p v data data' :
  is_chain h str l -> chain_inv l -> cursor_pos h l (strIt it) p ->
  let tag := type it in
  let w := Z.to_nat (JSV_ARRAYBUFFER_GET_SIZE tag) in
  1 <= w <= 4 -> JSV_ARRAYBUFFER_IS_FLOAT tag = false ->
  p + w <= length (chain_chars l) -> length data' = 8 ->
  exists h' it' l',
    jsvArrayBufferIteratorSetIntegerValue h it v data = (h', it') /\
    is_chain h' str l' /\ chain_inv l' /\
    chain_chars l'
    = take p (chain_chars l) ++ bytes_of_int w (clamped_value tag v)
        ++ drop (p + w) (chain_chars l) /\
    (jsvArrayBufferIteratorGetIntegerValue h' it data').1
    = to_int32 (element_of_bytes tag (bytes_of_int w (clamped_value tag v))) /\
    (JSV_ARRAYBUFFER_IS_BIG_ENDIAN tag = false ->
     (jsvArrayBufferIteratorGetIntegerValue h' it data').1
     = to_int32 (element_value tag v)).
Proof.
  intros Hch Hinv Hpos tag w Hw Hfloat Hlen Hdata'.
  destruct (Set_element h str l it p data Hch Hinv Hpos) as [_ Hset]; try assumption.
  destruct (Hset v) as (h' & sit' & Hrun & l' & Hch' & Hinv' & Hshape & _ & Hkeep & Hchars).
  fold tag in Hrun, Hchars. fold w in Hrun, Hchars. unfold element_bytes in Hchars.
  assert (Hlen' : length (chain_chars l') = length (chain_chars l))
    by (now apply length_chars_shape).
  destruct (Get_element h' l' it p data' Hinv' (Hkeep _ _ Hpos)) as (sit2 & _ & Hget & _);
    try assumption; try (fold tag; fold w; lia).
  fold tag in Hget. fold w in Hget.
  assert (Hbytes : take w (drop p (chain_chars l')) = bytes_of_int w (clamped_value tag v)).
  { rewrite Hchars, drop_app_length' by (rewrite length_take; lia).
    apply take_app_length'. symmetry. apply length_bytes_of_int. }
  rewrite Hbytes in Hget.
  eexists h', _, l'. split_and!; eauto.
  - now rewrite Hget.
  - intros Hle. rewrite Hget. cbn [fst]. f_equal.
    rewrite <- (element_of_bytes_bytes tag v). fold w. rewrite Hle. reflexivity.
Qed.

Lemma jsvArrayBufferIteratorSetIntegerValue_byte_order_witness :
  let h := mkHeap [mkCell ["a"; "b"; "c"; "d"]%byte 4 0] 1 in
  let it := mkArrayBufferIterator (mkStringIterator 2 4 0 1 1) 130 4 2 1 false in
  exists h' it' l',
    jsvArrayBufferIteratorSetIntegerValue h it 258 (replicate 8 x00) = (h', it') /\
    is_chain h' 1 l' /\
    chain_chars l' = ["a"; "b"; x02; x01]%byte /\
    (jsvArrayBufferIteratorGetIntegerValue h' it (replicate 8 x00)).1 = 513%Z.
Proof.
  intros h it.
  destruct (jsvArrayBufferIteratorSetIntegerValue_byte_order h 1
              [(1, mkCell ["a"; "b"; "c"; "d"]%byte 4 0)] it 2 258
              (replicate 8 x00) (replicate 8 x00))
    as (h' & it' & l' & Hset & Hch & _ & Hchars & Hget & _).
  - simpl. auto.
  - split; [apply Forall_singleton | intros H]; simpl in *; lia.
  - left. exists [], [(1, mkCell ["a"; "b"; "c"; "d"]%byte 4 0)].
    split_and!; simpl; auto. split_and!; simpl; auto.
  - vm_compute. lia.
  - reflexivity.
  - vm_compute. lia.
  - reflexivity.
  - exists h', it', l'. split_and!; auto.
Defined.

(** ** Cursors over the elements of a typed view *)

Lemma to_int32_idem z : to_int32 (to_int32 z) = to_int32 z.
Proof. apply to_int32_small, to_int32_range. Qed.

Lemma Next_fields h it :
  type (jsvArrayBufferIteratorNext h it) = type it /\
  byteLength (jsvArrayBufferIteratorNext h it) = byteLength it /\
  byteOffset (jsvArrayBufferIteratorNext h it)
  = size_t (byteOffset it + JSV_ARRAYBUFFER_GET_SIZE (type it)) /\
  index (jsvArrayBufferIteratorNext h it) = size_t (index it + 1).
Proof.
  unfold jsvArrayBufferIteratorNext. now destruct (negb (hasAccessedElement it)).
Qed.

(** A cursor made on an element of a view that lies within its backing
    string is on the first byte of that element. *)
Lemma New_view fuel h it0 tag len off backing idx l :
  let w := JSV_ARRAYBUFFER_GET_SIZE tag in
  is_chain h backing l -> chain_inv l -> length l <= fuel ->
  (1 <= w)%Z -> (0 <= off)%Z -> (0 <= idx < len)%Z ->
  (off + len * w < 2 ^ 32)%Z ->
  Z.to_nat (off + len * w) <= length (chain_chars l) ->
  exists sit,
    jsvArrayBufferIteratorNew fuel h it0 (JsArrayBuffer tag len off backing) idx
    = Some (mkArrayBufferIterator sit tag (off + len * w) (off + idx * w) idx false) /\
    cursor_pos h l sit (Z.to_nat (off + idx * w)).
Proof.
  intros w Hch Hinv Hfuel Hw Hoff Hidx Hmax Hin.
  unfold jsvArrayBufferIteratorNew. fold w.
  assert (Hlw : (0 <= len * w)%Z) by nia.
  assert (Hiw : (0 <= idx * w)%Z) by nia.
  assert (Hlast : (idx * w + w <= len * w)%Z) by nia.
  rewrite (size_t_small (len * w)) by lia.
  replace (len * w + off)%Z with (off + len * w)%Z by lia.
  rewrite (size_t_small (off + len * w)) by lia.
  rewrite (size_t_small (off + idx * w)) by lia.
  rewrite (size_t_small (off + len * w + 1 - w)) by lia.
  replace (off + len * w + 1 - w <=? off + idx * w)%Z with false
    by (symmetry; apply Z.leb_gt; lia).
  destruct (New_pos h backing l fuel (Z.to_nat (off + idx * w)) Hch Hinv Hfuel)
    as (sit & Hnew & Hpos); try lia.
  exists sit. now rewrite Hnew.
Qed.

Section ViewWalk.

Context {machine : Machine}.

Lemma bytes_walk_pos {A} (f : Z -> A -> A) h l n : forall sit p a,
  chain_inv l -> cursor_pos h l sit p -> p + n <= length (chain_chars l) ->
  bytes_walk f n h sit a
  = foldl (fun a c => f (uchar c) a) a (take n (drop p (chain_chars l))).
Proof.
  induction n as [|n IH]; intros sit p a Hinv Hpos Hlen; [reflexivity|].
  cbn [bytes_walk].
  pose proof (GetChar_pos h l sit p Hinv Hpos ltac:(lia)) as Hget.
  rewrite (drop_lookup_cons _ _ _ Hget). cbn [take foldl].
  apply IH; auto; [|lia]. apply (Next_pos h l sit p); auto. lia.
Qed.

Lemma elements_walk_view {A} (f : Z -> A -> A) h l tag k : forall fuel it p a,
  let w := Z.to_nat (JSV_ARRAYBUFFER_GET_SIZE tag) in
  chain_inv l -> view_cursor h l it tag p ->
  byteOffset it = Z.of_nat p -> byteLength it = Z.of_nat (p + k * w) ->
  p + k * w <= length (chain_chars l) -> (Z.of_nat (p + k * w + w) < 2 ^ 32)%Z ->
  1 <= w <= 4 -> JSV_ARRAYBUFFER_IS_FLOAT tag = false ->
  length uninitialised_data = 8 -> k <= fuel ->
  elements_walk f fuel h it a
  = Some (foldl (fun a e => f (to_int32 e) a) a
            (view_elements tag (drop p (chain_chars l)) k)).
Proof.
  induction k as [|k IH]; intros fuel it p a w Hinv (Htype & Hflag & Hpos) Hbo Hbl Hlen
    Hmax Hw Hfloat Hdata Hfuel.
  - assert (Hend : jsvArrayBufferIteratorHasElement it = false).
    { unfold jsvArrayBufferIteratorHasElement.
      rewrite sized_is_defined by (rewrite Htype; fold w in Hw |- *; unfold w in Hw; lia).
      rewrite Hflag, Htype, Hbo, Hbl, size_t_small by (unfold w in *; lia).
      apply Z.leb_gt. unfold w in *. lia. }
    destruct fuel; simpl; now rewrite Hend.
  - destruct fuel as [|fuel]; [lia|].
    assert (Hhas : jsvArrayBufferIteratorHasElement it = true).
    { unfold jsvArrayBufferIteratorHasElement.
      rewrite sized_is_defined by (rewrite Htype; unfold w in Hw; lia).
      rewrite Hflag, Htype, Hbo, Hbl, size_t_small by (unfold w in *; lia).
      apply Z.leb_le. unfold w in *. lia. }
    cbn [elements_walk view_elements]. rewrite Hhas.
    destruct (Get_element h l it p uninitialised_data Hinv Hpos) as (sit' & Hpos' & Hget & _);
      rewrite ?Htype; try assumption; try (fold w; lia).
    rewrite Htype in Hget, Hpos'. fold w in Hget, Hpos'. rewrite Hflag in Hget.
    rewrite Hget, to_int32_idem. cbn [foldl]. rewrite drop_drop.
    set (it' := mkArrayBufferIterator sit' tag (byteLength it) (byteOffset it) (index it)
                  (if w =? 1 then false else true)).
    pose proof (Next_after_access h l sit' tag (byteLength it) (byteOffset it) (index it)
                  false p Hinv) as Hnext.
    fold w in Hnext. specialize (Hnext ltac:(lia) ltac:(lia) Hpos'). fold it' in Hnext.
    destruct (Next_fields h it') as (_ & Hbl' & Hbo' & _).
    cbn [type byteLength byteOffset it'] in Hbl', Hbo'.
    apply (IH fuel _ (p + w) _ Hinv Hnext); fold w; try assumption; try lia.
    rewrite Hbo', Hbo, size_t_small by (unfold w in *; lia). unfold w. lia.
Qed.

Lemma view_elements_bytes tag : forall n cs,
  JSV_ARRAYBUFFER_GET_SIZE tag = 1%Z -> JSV_ARRAYBUFFER_IS_SIGNED tag = false ->
  n <= length cs ->
  view_elements tag cs n = map uchar (take n cs).
Proof.
  intros n. induction n as [|n IH]; intros cs Hw Hs Hn; [reflexivity|].
  destruct cs as [|c cs]; [simpl in Hn; lia|].
  cbn [view_elements]. rewrite Hw. change (Z.to_nat 1) with 1.
  cbn [take drop map]. rewrite take_0, ?drop_0.
  rewrite IH; [|assumption|assumption|simpl in Hn; lia].
  f_equal. unfold element_of_bytes. rewrite Hs. cbn [andb].
  destruct (JSV_ARRAYBUFFER_IS_BIG_ENDIAN tag); simpl; lia.
Qed.

Lemma to_int32_uchar c : to_int32 (uchar c) = uchar c.
Proof. apply to_int32_small. pose proof (uchar_range c). lia. Qed.

(** X8.  Walking a typed view of integers of 1 to 4 bytes that lies within
    its backing string hands the sink the elements of the view, in order:
    each the integer that the bytes of the element spell in the byte order
    of the view, sign-extended on a signed view.  The walk succeeds and
    leaves the interpreter's state as it was. *)
Theorem jsvIterateCallback_typed_view {A} (f : Z -> A -> A) fuel tag len off backing st a l :
  let w := Z.to_nat (JSV_ARRAYBUFFER_GET_SIZE tag) in
  is_chain (jsHeap st) backing l -> chain_inv l ->
  1 <= w <= 4 -> JSV_ARRAYBUFFER_IS_FLOAT tag = false ->
  (0 <= off)%Z -> (0 < len)%Z ->
  (off + len * Z.of_nat w + Z.of_nat w < 2 ^ 32)%Z ->
  Z.to_nat (off + len * Z.of_nat w) <= length (chain_chars l) ->
  length uninitialised_data = 8 ->
  length l <= fuel -> Z.to_nat len <= fuel ->
  jsvIterateCallback f (S fuel) (JsArrayBuffer tag len off backing) st a
  = Some (true, st,
          foldl (fun a e => f (to_int32 e) a) a
            (view_elements tag (drop (Z.to_nat off) (chain_chars l)) (Z.to_nat len))).
Proof.
  intros w Hch Hinv Hw Hfloat Hoff Hlen Hmax Hin Hdata Hfuel Hfuel'.
  assert (Hwz : Z.of_nat w = JSV_ARRAYBUFFER_GET_SIZE tag) by (unfold w in *; lia).
  rewrite Hwz in Hmax, Hin.
  cbn [jsvIterateCallback jsvIsNumeric jsvIsObject jsvIsString jsvIsArrayBuffer].
  destruct (New_view fuel (jsHeap st) uninitialised_it tag len off backing 0 l
              Hch Hinv Hfuel) as (sit & Hnew & Hpos); try lia.
  rewrite Hnew. rewrite Z.mul_0_l, Z.add_0_r in Hpos. cbn [type strIt].
  assert (Hk : Z.to_nat off + Z.to_nat len * w = Z.to_nat (off + len * JSV_ARRAYBUFFER_GET_SIZE tag)).
  { rewrite <- Hwz. rewrite Z2Nat.inj_add, Z2Nat.inj_mul, Nat2Z.id by lia. reflexivity. }
  destruct ((JSV_ARRAYBUFFER_GET_SIZE tag =? 1)%Z && negb (JSV_ARRAYBUFFER_IS_SIGNED tag))
    eqn:Efast.
  - apply andb_true_iff in Efast as [Hw1 Hs]. apply Z.eqb_eq in Hw1.
    apply negb_true_iff in Hs. cbn [jsvGetArrayBufferLength].
    assert (w = 1) by lia.
    rewrite (bytes_walk_pos f (jsHeap st) l (Z.to_nat len) sit (Z.to_nat off) a Hinv Hpos)
      by lia.
    rewrite view_elements_bytes by (auto; rewrite length_drop; lia).
    do 2 f_equal.
    generalize (take (Z.to_nat len) (drop (Z.to_nat off) (chain_chars l))). intros cs.
    revert a. induction cs as [|c cs IHcs]; intros a; simpl; [reflexivity|].
    now rewrite to_int32_uchar, IHcs.
  - rewrite (elements_walk_view f (jsHeap st) l tag (Z.to_nat len) fuel _ (Z.to_nat off) a);
      fold w; auto; try lia.
    + now split_and!.
    + cbn [byteOffset]. lia.
    + cbn [byteLength]. lia.
Qed.

Lemma take_chars_of (g : byte -> Z) n :
  (forall c, char_of_int (g c) = c) ->
  forall cs, map char_of_int (take n (map g cs)) = take n cs.
Proof.
  intros Hg. induction n as [|n IH]; intros [|c cs]; simpl; try reflexivity.
  now rewrite Hg, IH.
Qed.

(** X9.  Copying a view of unsigned bytes that lies within its backing
    string into a buffer with [jsvIterateCallbackToBytes] stores the first
    [dataSize] bytes of the view at the start of the buffer, leaves the
    rest of the buffer as it was, and returns the length of the view;
    [jsvIterateCallbackCount] returns that length too. *)
Theorem jsvIterateCallbackToBytes_uint8_view fuel tag len off backing st l buffer
    (dataSize : nat) :
  let bytes := take (Z.to_nat len) (drop (Z.to_nat off) (chain_chars l)) in
  is_chain (jsHeap st) backing l -> chain_inv l ->
  JSV_ARRAYBUFFER_GET_SIZE tag = 1%Z -> JSV_ARRAYBUFFER_IS_SIGNED tag = false ->
  JSV_ARRAYBUFFER_IS_FLOAT tag = false ->
  (0 <= off)%Z -> (0 < len)%Z -> (off + len + 1 < 2 ^ 31)%Z ->
  Z.to_nat (off + len) <= length (chain_chars l) ->
  length uninitialised_data = 8 ->
  length l <= fuel -> Z.to_nat len <= fuel -> dataSize <= length buffer ->
  jsvIterateCallbackToBytes (S fuel) (JsArrayBuffer tag len off backing) buffer
    (Z.of_nat dataSize) st
  = Some (len, take dataSize bytes ++ drop (min dataSize (Z.to_nat len)) buffer, st) /\
  jsvIterateCallbackCount (S fuel) (JsArrayBuffer tag len off backing) st
  = Some (len, st).
Proof.
  intros bytes Hch Hinv Hw Hs Hfloat Hoff Hlen Hmax Hin Hdata Hfuel Hfuel' Hsize.
  assert (Hbytes : length bytes = Z.to_nat len)
    by (unfold bytes; rewrite length_take, length_drop; lia).
  assert (Hwalk : forall B (g : Z -> B -> B) b,
            jsvIterateCallback g (S fuel) (JsArrayBuffer tag len off backing) st b
            = Some (true, st, foldl (fun b n => g n b) b (map uchar bytes))).
  { intros B g b.
    cbn [jsvIterateCallback jsvIsNumeric jsvIsObject jsvIsString jsvIsArrayBuffer].
    destruct (New_view fuel (jsHeap st) uninitialised_it tag len off backing 0 l
                Hch Hinv Hfuel) as (sit & Hnew & Hpos); rewrite ?Hw; try lia.
    rewrite Hnew. rewrite Hw, Z.mul_0_l, Z.add_0_r in Hpos. cbn [type strIt].
    rewrite Hw, Hs. cbn [Z.eqb Pos.eqb negb andb jsvGetArrayBufferLength].
    rewrite (bytes_walk_pos g (jsHeap st) l (Z.to_nat len) sit (Z.to_nat off) b Hinv Hpos)
      by lia.
    fold bytes. now rewrite foldl_map_sink. }
  split.
  - unfold jsvIterateCallbackToBytes. rewrite Hwalk.
    pose proof (ToBytesCb_fold (map uchar bytes) buffer 0 dataSize) as H.
    change (Z.of_nat 0) with 0%Z in H. rewrite H by (rewrite ?length_map; simpl; lia).
    cbn [idx buf]. rewrite length_map, Nat.sub_0_r, take_0, Hbytes.
    rewrite take_chars_of by apply char_of_int_uchar.
    cbn [app Nat.add]. do 3 f_equal. lia.
  - unfold jsvIterateCallbackCount. rewrite Hwalk.
    rewrite CountCb_fold by (rewrite ?length_map; lia).
    rewrite length_map, Hbytes. do 2 f_equal. lia.
Qed.

End ViewWalk.

Lemma jsvIterateCallback_typed_view_witness :
  let st := mkState (mkHeap [mkCell ["a"; "b"; xff; xfe]%byte 4 0] 1) None in
  jsvIterateCallback_emitted (machine := example_machine) 3
    (JsArrayBuffer 146 2 0 1) st
  = Some (true, st, [24930; -2]%Z).
Proof.
  intros st. unfold jsvIterateCallback_emitted.
  rewrite (jsvIterateCallback_typed_view (machine := example_machine) emit 2 146 2 0 1 st []
             [(1, mkCell ["a"; "b"; xff; xfe]%byte 4 0)]).
  - reflexivity.
  - simpl. auto.
  - split; [apply Forall_singleton | intros H]; simpl in *; lia.
  - vm_compute. lia.
  - reflexivity.
  - lia.
  - lia.
  - vm_compute. reflexivity.
  - vm_compute. lia.
  - reflexivity.
  - simpl. lia.
  - simpl. lia.
Defined.

Lemma jsvIterateCallbackToBytes_uint8_view_witness :
  let st := mkState (mkHeap [mkCell ["a"; "b"; "c"; "d"]%byte 4 0] 1) None in
  jsvIterateCallbackToBytes (machine := example_machine) 4 (JsArrayBuffer 1 2 1 1)
    ["w"; "x"; "y"; "z"]%byte 3 st
  = Some (2%Z, ["b"; "c"; "y"; "z"]%byte, st).
Proof.
  intros st.
  destruct (jsvIterateCallbackToBytes_uint8_view (machine := example_machine) 3 1 2 1 1 st
              [(1, mkCell ["a"; "b"; "c"; "d"]%byte 4 0)] ["w"; "x"; "y"; "z"]%byte 3)
    as [H _].
  - simpl. auto.
  - split; [apply Forall_singleton | intros H]; simpl in *; lia.
  - reflexivity.
  - reflexivity.
  - reflexivity.
  - lia.
  - lia.
  - lia.
  - simpl. lia.
  - reflexivity.
  - simpl. lia.
  - simpl. lia.
  - simpl. lia.
  - exact H.
Defined.

(** ** The unified cursor over strings and typed views *)

Section UnifiedCursor.

Context {machine : Machine}.

Lemma jsvIteratorIntegers_string h l n : forall fuel it p,
  chain_inv l -> cursor_pos h l it p -> p + n = length (chain_chars l) -> n <= fuel ->
  jsvIteratorIntegers fuel h (JSVI_STRING it)
  = Some (map int_of_char (drop p (chain_chars l))).
Proof.
  induction n as [|n IH]; intros fuel it p Hinv Hpos Hlen Hfuel.
  - rewrite Nat.add_0_r in Hlen. subst p.
    rewrite (cursor_pos_end h l it Hinv Hpos), drop_all. now destruct fuel.
  - destruct fuel as [|fuel]; [lia|].
    destruct (cursor_pos_lt _ _ _ _ Hinv Hpos ltac:(lia))
      as (l0 & rv & l1 & _ & Hcur & Hlt & _).
    assert (Hhas : jsvStringIteratorHasChar it = true)
      by (apply HasChar_true; split; [eapply cursor_on_ptr; eauto | exact Hlt]).
    cbn [jsvIteratorIntegers jsvIteratorHasElement jsvIteratorGetIntegerValue jsvIteratorNext].
    rewrite Hhas.
    pose proof (GetChar_pos h l it p Hinv Hpos ltac:(lia)) as Hget.
    rewrite (drop_lookup_cons _ _ _ Hget). cbn [map].
    rewrite (IH fuel _ (S p)); auto; try lia. apply Next_pos; auto. lia.
Qed.

(** X14.  A unified cursor over a well-formed string runs over its bytes:
    made by [jsvIteratorNew], it yields with
    [jsvIteratorGetIntegerValue] and [jsvIteratorNext] every byte of the
    string in order, as the [int] that the plain [char] converts to, and
    [jsvIteratorHasElement] is false after the last. *)
Theorem jsvIterator_string h str l fuel flag :
  is_chain h str l -> chain_inv l -> length (chain_chars l) <= fuel ->
  exists it,
    jsvIteratorNew fuel h (JsString str) flag = Some (JSVI_STRING it) /\
    jsvIteratorIntegers fuel h (JSVI_STRING it) = Some (map int_of_char (chain_chars l)).
Proof.
  intros Hch Hinv Hfuel.
  exists (mkStringIterator 0 (jsvGetCharactersInVar h str) 0 str str). split.
  - unfold jsvIteratorNew. cbn [jsvIsArray jsvIsObject jsvIsFunction orb].
    now rewrite New_at_0.
  - destruct (Nat.eq_dec (length (chain_chars l)) 0) as [Hnil|Hne].
    + apply length_zero_iff_nil in Hnil.
      rewrite (chain_chars_nil_root h str l Hch Hinv Hnil), Hnil.
      assert (Hend : jsvStringIteratorHasChar (mkStringIterator 0 0 0 str str) = false)
        by (apply HasChar_false; right; simpl; lia).
      destruct fuel; simpl; now rewrite Hend.
    + destruct (New_pos h str l (length l) 0 Hch Hinv) as (it & Hnew & Hpos); try lia.
      rewrite New_at_0 in Hnew. inversion Hnew; subst it.
      now rewrite (jsvIteratorIntegers_string h l (length (chain_chars l)) fuel _ 0 Hinv Hpos).
Qed.

Lemma GetValueAndRewind_view h l it tag p :
  let w := Z.to_nat (JSV_ARRAYBUFFER_GET_SIZE tag) in
  chain_inv l -> view_cursor h l it tag p ->
  1 <= w <= 4 -> JSV_ARRAYBUFFER_IS_FLOAT tag = false ->
  p + w <= length (chain_chars l) -> length uninitialised_data = 8 ->
  jsvArrayBufferIteratorGetValueAndRewind h it uninitialised_data
  = (element_var tag (element_of_bytes tag (take w (drop p (chain_chars l)))), it).
Proof.
  intros w Hinv (Htype & Hflag & Hpos) Hw Hfloat Hlen Hdata.
  destruct (Get_element h l it p uninitialised_data Hinv Hpos) as (sit' & _ & _ & Hget);
    rewrite ?Htype; try assumption; try (fold w; lia).
  rewrite Htype in Hget. fold w in Hget.
  unfold jsvArrayBufferIteratorGetValueAndRewind, jsvStringIteratorClone.
  rewrite Hget. cbn [type byteLength byteOffset index]. unfold element_var.
  f_equal. rewrite <- Htype, <- Hflag. now destruct it.
Qed.

Lemma jsvIterator_view_run h l tag k : forall fuel it p,
  let w := Z.to_nat (JSV_ARRAYBUFFER_GET_SIZE tag) in
  chain_inv l -> view_cursor h l it tag p ->
  byteOffset it = Z.of_nat p -> byteLength it = Z.of_nat (p + k * w) ->
  p + k * w <= length (chain_chars l) -> (Z.of_nat (p + k * w + w) < 2 ^ 32)%Z ->
  1 <= w <= 4 -> JSV_ARRAYBUFFER_IS_FLOAT tag = false ->
  length uninitialised_data = 8 -> k <= fuel ->
  jsvIteratorIntegers fuel h (JSVI_ARRAYBUFFER it)
  = Some (map to_int32 (view_elements tag (drop p (chain_chars l)) k)) /\
  jsvIteratorValues fuel h (JSVI_ARRAYBUFFER it)
  = Some (map (element_var tag) (view_elements tag (drop p (chain_chars l)) k)).
Proof.
  induction k as [|k IH]; intros fuel it p w Hinv Hview Hbo Hbl Hlen Hmax Hw Hfloat Hdata Hfuel;
    pose proof Hview as (Htype & Hflag & Hpos).
  - assert (Hend : jsvArrayBufferIteratorHasElement it = false).
    { unfold jsvArrayBufferIteratorHasElement.
      rewrite sized_is_defined by (rewrite Htype; unfold w in Hw; lia).
      rewrite Hflag, Htype, Hbo, Hbl, size_t_small by (unfold w in *; lia).
      apply Z.leb_gt. unfold w in *. lia. }
    destruct fuel; simpl; now rewrite Hend.
  - destruct fuel as [|fuel]; [lia|].
    assert (Hhas : jsvArrayBufferIteratorHasElement it = true).
    { unfold jsvArrayBufferIteratorHasElement.
      rewrite sized_is_defined by (rewrite Htype; unfold w in Hw; lia).
      rewrite Hflag, Htype, Hbo, Hbl, size_t_small by (unfold w in *; lia).
      apply Z.leb_le. unfold w in *. lia. }
    cbn [view_elements map]. rewrite drop_drop. fold w. split.
    + cbn [jsvIteratorIntegers jsvIteratorHasElement jsvIteratorGetIntegerValue jsvIteratorNext].
      rewrite Hhas.
      destruct (Get_element h l it p uninitialised_data Hinv Hpos)
        as (sit' & Hpos' & Hget & _);
        rewrite ?Htype; try assumption; try (fold w; lia).
      rewrite Htype in Hget, Hpos'. fold w in Hget, Hpos'. rewrite Hflag in Hget.
      rewrite Hget.
      set (it' := mkArrayBufferIterator sit' tag (byteLength it) (byteOffset it) (index it)
                    (if w =? 1 then false else true)).
      pose proof (Next_after_access h l sit' tag (byteLength it) (byteOffset it) (index it)
                    false p Hinv) as Hnext.
      fold w in Hnext. specialize (Hnext ltac:(lia) ltac:(lia) Hpos'). fold it' in Hnext.
      destruct (Next_fields h it') as (_ & Hbl' & Hbo' & _).
      cbn [type byteLength byteOffset it'] in Hbl', Hbo'.
      cbn [jsvIteratorNext].
      destruct (IH fuel _ (p + w) Hinv Hnext) as [-> _]; fold w; try assumption; try lia;
        [|reflexivity].
      rewrite Hbo', Hbo, size_t_small by (unfold w in *; lia). unfold w. lia.
    + cbn [jsvIteratorValues jsvIteratorHasElement jsvIteratorGetValue jsvIteratorNext].
      rewrite Hhas.
      rewrite (GetValueAndRewind_view h l it tag p) by (auto; fold w; lia). fold w.
      assert (Hnext : view_cursor h l (jsvArrayBufferIteratorNext h it) tag (p + w)).
      { unfold jsvArrayBufferIteratorNext. rewrite Hflag, Htype. cbn [negb]. fold w.
        split_and!; auto. cbn [strIt]. apply iter_Next_pos; auto. lia. }
      destruct (Next_fields h it) as (_ & Hbl' & Hbo' & _). rewrite Htype in Hbo'.
      cbn [jsvIteratorNext].
      destruct (IH fuel _ (p + w) Hinv Hnext) as [_ ->]; fold w; try assumption; try lia;
        [|reflexivity].
      rewrite Hbo', Hbo, size_t_small by (unfold w in *; lia). unfold w. lia.
Qed.

(** X15.  A unified cursor over a typed view of integers of 1 to 4 bytes
    that lies within its backing string runs over the elements of the
    view: made by [jsvIteratorNew], it yields every element in order, with
    [jsvIteratorGetIntegerValue] as its integer and with
    [jsvIteratorGetValue] as a number value (a 32-bit unsigned element
    taken as unsigned), and [jsvIteratorHasElement] is false after the
    last. *)
Theorem jsvIterator_typed_view h fuel tag len off backing l flag :
  let w := Z.to_nat (JSV_ARRAYBUFFER_GET_SIZE tag) in
  let elements :=
    view_elements tag (drop (Z.to_nat off) (chain_chars l)) (Z.to_nat len) in
  is_chain h backing l -> chain_inv l ->
  1 <= w <= 4 -> JSV_ARRAYBUFFER_IS_FLOAT tag = false ->
  (0 <= off)%Z -> (0 < len)%Z ->
  (off + len * Z.of_nat w + Z.of_nat w < 2 ^ 32)%Z ->
  Z.to_nat (off + len * Z.of_nat w) <= length (chain_chars l) ->
  length uninitialised_data = 8 ->
  length l <= fuel -> Z.to_nat len <= fuel ->
  exists it,
    jsvIteratorNew fuel h (JsArrayBuffer tag len off backing) flag
    = Some (JSVI_ARRAYBUFFER it) /\
    jsvIteratorIntegers fuel h (JSVI_ARRAYBUFFER it) = Some (map to_int32 elements) /\
    jsvIteratorValues fuel h (JSVI_ARRAYBUFFER it) = Some (map (element_var tag) elements).
Proof.
  intros w elements Hch Hinv Hw Hfloat Hoff Hlen Hmax Hin Hdata Hfuel Hfuel'.
  assert (Hwz : Z.of_nat w = JSV_ARRAYBUFFER_GET_SIZE tag) by (unfold w in *; lia).
  rewrite Hwz in Hmax, Hin.
  destruct (New_view fuel h uninitialised_it tag len off backing 0 l Hch Hinv Hfuel)
    as (sit & Hnew & Hpos); try lia.
  rewrite Z.mul_0_l, Z.add_0_r in Hpos, Hnew.
  eexists. split.
  - unfold jsvIteratorNew. cbn [jsvIsArray jsvIsObject jsvIsFunction orb].
    rewrite Hnew. reflexivity.
  - apply (jsvIterator_view_run h l tag (Z.to_nat len) fuel _ (Z.to_nat off));
      fold w; auto; try lia.
    + now split_and!.
    + cbn [byteOffset]. lia.
    + cbn [byteLength]. rewrite <- Hwz. lia.
Qed.

End UnifiedCursor.

Lemma jsvIterator_string_witness :
  let h := mkHeap [mkCell ["h"; "i"; x00; x00]%byte 2 0] 1 in
  exists it,
    jsvIteratorNew (machine := example_machine) 2 h (JsString 1) false
    = Some (JSVI_STRING it) /\
    jsvIteratorIntegers (machine := example_machine) 2 h (JSVI_STRING it)
    = Some [104; 105]%Z.
Proof.
  intros h.
  destruct (jsvIterator_string (machine := example_machine) h 1
              [(1, mkCell ["h"; "i"; x00; x00]%byte 2 0)] 2 false) as (it & Hnew & Hrun).
  - simpl. auto.
  - split; [apply Forall_singleton | intros H]; simpl in *; lia.
  - simpl. lia.
  - exists it. now split.
Defined.

Lemma jsvIterator_typed_view_witness :
  let h := mkHeap [mkCell ["a"; "b"; xff; xfe]%byte 4 0] 1 in
  exists it,
    jsvIteratorNew (machine := example_machine) 2 h (JsArrayBuffer 146 2 0 1) false
    = Some (JSVI_ARRAYBUFFER it) /\
    jsvIteratorValues (machine := example_machine) 2 h (JSVI_ARRAYBUFFER it)
    = Some [JsInt 24930; JsInt (-2)].
Proof.
  intros h.
  destruct (jsvIterator_typed_view (machine := example_machine) h 2 146 2 0 1
              [(1, mkCell ["a"; "b"; xff; xfe]%byte 4 0)] false)
    as (it & Hnew & _ & Hrun).
  - simpl. auto.
  - split; [apply Forall_singleton | intros H]; simpl in *; lia.
  - vm_compute. lia.
  - reflexivity.
  - lia.
  - lia.
  - vm_compute. reflexivity.
  - vm_compute. lia.
  - reflexivity.
  - simpl. lia.
  - simpl. lia.
  - exists it. now split.
Defined.

(** ** Appending one string to another *)

Lemma jsvLock_writeChar_ne h p i c r :
  r <> p -> jsvLock (writeChar h p i c) r = jsvLock h r.
Proof.
  intros H. unfold writeChar. destruct (jsvLock h p); [|reflexivity].
  now apply jsvLock_store_ne.
Qed.

Lemma jsvLock_SetCharactersInVar_ne h p n r :
  r <> p -> jsvLock (jsvSetCharactersInVar h p n) r = jsvLock h r.
Proof.
  intros H. unfold jsvSetCharactersInVar. destruct (jsvLock h p); [|reflexivity].
  now apply jsvLock_store_ne.
Qed.

Lemma jsvLock_SetLastChild_ne h p c r :
  r <> p -> jsvLock (jsvSetLastChild h p c) r = jsvLock h r.
Proof.
  intros H. unfold jsvSetLastChild. destruct (jsvLock h p); [|reflexivity].
  now apply jsvLock_store_ne.
Qed.

Lemma jsvLock_NewWithFlags maxLen h next h' r :
  jsvNewWithFlags maxLen h = Some (next, h') ->
  next = S (length (jsVars h)) /\ (r <= length (jsVars h) -> jsvLock h' r = jsvLock h r).
Proof.
  unfold jsvNewWithFlags. destruct (length (jsVars h) <? jsVarsSize h); [|discriminate].
  intros H. inversion H; subst. split; [reflexivity|].
  intros Hr. destruct r as [|i]; [reflexivity|]. simpl. apply lookup_app_l. lia.
Qed.

(** An append touches the cell the cursor is on and the cell it allocates,
    and no other. *)
Lemma Append_frame maxLen h it ch r :
  ptr it = var it -> r <> var it -> r <= length (jsVars h) ->
  jsvLock (jsvStringIteratorAppend maxLen h it ch).1 r = jsvLock h r.
Proof.
  intros Hptr Hne Hr. unfold jsvStringIteratorAppend.
  destruct (var it =? 0); [reflexivity|].
  set (it1 := if 0 <? charsInVar it then set_charIdx (S (charIdx it)) it else it).
  assert (Hv1 : var it1 = var it /\ ptr it1 = var it)
    by (unfold it1; destruct (0 <? charsInVar it); simpl; auto).
  destruct Hv1 as [Hv1 Hp1].
  destruct (jsvGetMaxCharactersInVar h (var it1) <=? charIdx it1).
  - destruct (jsvNewWithFlags maxLen h) as [[next h2]|] eqn:Enew; [|reflexivity].
    destruct (jsvLock_NewWithFlags maxLen h next h2 r Enew) as [Hnext Hsame].
    cbn [fst var ptr charIdx].
    rewrite jsvLock_SetCharactersInVar_ne, jsvLock_writeChar_ne, jsvLock_SetLastChild_ne
      by (rewrite ?Hv1; lia).
    now apply Hsame.
  - cbn [fst var ptr charIdx].
    rewrite jsvLock_SetCharactersInVar_ne, jsvLock_writeChar_ne by (rewrite ?Hv1, ?Hp1; auto).
    reflexivity.
Qed.

Lemma tail_state_ptr h str l it : tail_state h str l it -> ptr it = var it.
Proof. intros (_ & _ & _ & (l0 & rv & _ & Hv & Hp & _)). congruence. Qed.

Lemma AppendString_loop_spec maxLen dst src ls n : forall fuel h ld it sit p,
  0 < maxLen -> tail_state h dst ld it ->
  is_chain h src ls -> chain_inv ls -> var it ∉ map fst ls ->
  cursor_pos h ls sit p -> p + n = length (chain_chars ls) -> n <= fuel ->
  length (jsVars h) + n <= jsVarsSize h ->
  exists h' it' ld',
    jsvStringIteratorAppendString_loop fuel maxLen h it sit = Some (h', it') /\
    tail_state h' dst ld' it' /\
    chain_chars ld' = chain_chars ld ++ drop p (chain_chars ls) /\
    is_chain h' src ls.
Proof.
  induction n as [|n IH]; intros fuel h ld it sit p HmaxLen Hst Hch Hinv Hnotin Hpos Hlen
    Hfuel Hpool.
  - rewrite Nat.add_0_r in Hlen. subst p.
    rewrite (cursor_pos_end h ls sit Hinv Hpos), drop_all, app_nil_r.
    exists h, it, ld. split_and!; auto. now destruct fuel.
  - destruct fuel as [|fuel]; [lia|].
    destruct (cursor_pos_lt _ _ _ _ Hinv Hpos ltac:(lia))
      as (l0 & rv & l1 & _ & Hcur & Hlt & _).
    assert (Hhas : jsvStringIteratorHasChar sit = true)
      by (apply HasChar_true; split; [eapply cursor_on_ptr; eauto | exact Hlt]).
    cbn [jsvStringIteratorAppendString_loop]. rewrite Hhas.
    pose proof (GetChar_pos h ls sit p Hinv Hpos ltac:(lia)) as Hget.
    set (ch := jsvStringIteratorGetChar h sit) in *.
    destruct (Append_tail_state maxLen h dst ld it ch HmaxLen Hst)
      as (h1 & it1 & Hrun & Hsize & Hroom & Hext & _).
    pose proof (Append_frame maxLen h it ch) as Hframe. rewrite Hrun in Hframe.
    cbn [fst] in Hframe. rewrite Hrun.
    assert (Hch1 : is_chain h1 src ls).
    { apply (is_chain_frame h); [exact Hch|]. intros x Hx.
      destruct (is_chain_in_range h ls src x Hch Hx) as [Hrange _].
      apply Hframe; [eapply tail_state_ptr; eauto | | exact Hrange].
      intros E. apply Hnotin. rewrite <- E. apply list_elem_of_fmap. eauto. }
    assert (Hpos1 : cursor_pos h1 ls (jsvStringIteratorNext h1 sit) (S p)).
    { apply Next_pos; auto; [|lia].
      apply (cursor_pos_shape h h1 src ls ls); auto. }
    assert (Hstep : exists ld1,
              tail_state h1 dst ld1 it1 /\ chain_chars ld1 = chain_chars ld ++ [ch] /\
              (var it1 ∉ map fst ls) /\ length (jsVars h1) + n <= jsVarsSize h1).
    { destruct (tail_full ld) eqn:Efull.
      - destruct (Hext eq_refl ltac:(lia)) as (Hlen1 & Hv1 & _ & _ & ld1 & Hst1 & Hchars1).
        exists ld1. split_and!; auto; [|lia].
        rewrite Hv1. intros Hin. apply list_elem_of_fmap in Hin as (x & Hx1 & Hx).
        destruct (is_chain_in_range h ls src x Hch Hx) as [Hrange _]. lia.
      - destruct (Hroom eq_refl) as (Hlen1 & Hv1 & ld1 & Hst1 & Hchars1).
        exists ld1. split_and!; auto; [congruence | lia]. }
    destruct Hstep as (ld1 & Hst1 & Hchars1 & Hnotin1 & Hpool1).
    destruct (IH fuel h1 ld1 it1 (jsvStringIteratorNext h1 sit) (S p) HmaxLen Hst1 Hch1 Hinv
                Hnotin1 Hpos1) as (h' & it' & ld' & Hrun' & Hst' & Hchars' & Hch');
      try lia.
    exists h', it', ld'. split_and!; auto.
    rewrite Hchars', Hchars1, <- app_assoc. cbn [app].
    now rewrite (drop_lookup_cons _ _ _ Hget).
Qed.

(** X3.  [jsvStringIteratorAppendString] appends to the string under the
    cursor the bytes of another well-formed string from [startIdx] on,
    leaving that other string as it was: provided the cursor is at the tail
    of its string, the tail cell is not a cell of the source, and the pool
    has a free cell for every byte to append, the destination afterwards
    holds its old bytes followed by the source's from [startIdx], and the
    cursor is again at its tail. *)
Theorem jsvStringIteratorAppendString_concat maxLen h dst ld it src ls fuel startIdx :
  0 < maxLen -> tail_state h dst ld it ->
  is_chain h src ls -> chain_inv ls -> var it ∉ map fst ls ->
  startIdx <= length (chain_chars ls) ->
  length ls <= fuel -> length (chain_chars ls) <= fuel ->
  length (jsVars h) + (length (chain_chars ls) - startIdx) <= jsVarsSize h ->
  exists h' it' ld',
    jsvStringIteratorAppendString fuel maxLen h it src startIdx = Some (h', it') /\
    tail_state h' dst ld' it' /\
    chain_chars ld' = chain_chars ld ++ drop startIdx (chain_chars ls) /\
    is_chain h' src ls.
Proof.
  intros HmaxLen Hst Hch Hinv Hnotin Hstart Hfuel Hfuel' Hpool.
  unfold jsvStringIteratorAppendString.
  destruct (Nat.eq_dec (length (chain_chars ls)) 0) as [Hnil|Hne].
  - assert (startIdx = 0) as -> by lia. rewrite New_at_0.
    apply length_zero_iff_nil in Hnil.
    rewrite (chain_chars_nil_root h src ls Hch Hinv Hnil), Hnil.
    assert (Hend : jsvStringIteratorHasChar (mkStringIterator 0 0 0 src src) = false)
      by (apply HasChar_false; right; simpl; lia).
    exists h, it, ld. rewrite drop_nil, app_nil_r. split_and!; auto.
    destruct fuel; simpl; now rewrite Hend.
  - destruct (New_pos h src ls fuel startIdx Hch Hinv Hfuel Hstart) as (sit & Hnew & Hpos);
      try lia.
    rewrite Hnew.
    apply (AppendString_loop_spec maxLen dst src ls (length (chain_chars ls) - startIdx));
      auto; lia.
Qed.

Lemma jsvStringIteratorAppendString_concat_witness :
  let h := mkHeap [mkCell ["a"; "b"; x00; x00]%byte 2 0;
                   mkCell ["w"; "x"; "y"; x00]%byte 3 0] 4 in
  exists h' it' ld',
    jsvStringIteratorAppendString 3 4 h (mkStringIterator 1 2 0 1 1) 2 1 = Some (h', it') /\
    is_chain h' 1 ld' /\
    chain_chars ld' = ["a"; "b"; "x"; "y"]%byte.
Proof.
  intros h.
  destruct (jsvStringIteratorAppendString_concat 4 h 1
              [(1, mkCell ["a"; "b"; x00; x00]%byte 2 0)] (mkStringIterator 1 2 0 1 1) 2
              [(2, mkCell ["w"; "x"; "y"; x00]%byte 3 0)] 3 1)
    as (h' & it' & ld' & Hrun & Hst & Hchars & _).
  - lia.
  - split_and!.
    + simpl. auto.
    + split; [apply Forall_singleton | intros H]; simpl in *; lia.
    + apply Forall_singleton. simpl. lia.
    + exists [], (1, mkCell ["a"; "b"; x00; x00]%byte 2 0). now split_and!.
  - simpl. auto.
  - split; [apply Forall_singleton | intros H]; simpl in *; lia.
  - simpl. intros [H|H]%elem_of_cons; [discriminate | inversion H].
  - simpl. lia.
  - simpl. lia.
  - simpl. lia.
  - simpl. lia.
  - exists h', it', ld'. split_and!; auto. apply Hst.
Defined.

(** ** Writing one byte of a view of bytes *)

(** X12.  [jsvArrayBufferIteratorSetByteValue] writes on views of
    single-byte elements only: there it replaces the byte of the element
    under the cursor, leaving every other byte of the backing string and the
    cursor alone, and the element then reads as that byte, sign-extended on
    a signed view; on a view of wider elements it changes nothing. *)
Theorem jsvArrayBufferIteratorSetByteValue_spec h str l it p c data :
  is_chain h str l -> chain_inv l -> cursor_pos h l (strIt it) p ->
  p < length (chain_chars l) -> length data = 8 ->
  (JSV_ARRAYBUFFER_GET_SIZE (type it) <> 1%Z ->
   jsvArrayBufferIteratorSetByteValue h it c = h) /\
  (JSV_ARRAYBUFFER_GET_SIZE (type it) = 1%Z ->
   JSV_ARRAYBUFFER_IS_FLOAT (type it) = false ->
   exists l',
     is_chain (jsvArrayBufferIteratorSetByteValue h it c) str l' /\ chain_inv l' /\
     chain_chars l' = <[p := c]> (chain_chars l) /\
     (jsvArrayBufferIteratorGetIntegerValue (jsvArrayBufferIteratorSetByteValue h it c)
        it data).1
     = (if JSV_ARRAYBUFFER_IS_SIGNED (type it) && (128 <=? uchar c)%Z
        then uchar c - 256 else uchar c)%Z).
Proof.
  intros Hch Hinv Hpos Hp Hdata. unfold jsvArrayBufferIteratorSetByteValue. split.
  - intros Hw. now replace (JSV_ARRAYBUFFER_GET_SIZE (type it) =? 1)%Z with false
      by (symmetry; now apply Z.eqb_neq).
  - intros Hw Hfloat. rewrite Hw. cbn [Z.eqb Pos.eqb negb].
    destruct (SetChar_keeps h str l (strIt it) p c Hch Hinv Hpos Hp)
      as (l' & Hch' & Hinv' & Hshape & Hchars).
    exists l'. split_and!; auto.
    assert (Hpos' : cursor_pos (jsvStringIteratorSetChar h (strIt it) c) l' (strIt it) p)
      by (apply (cursor_pos_shape h _ str l l'); auto).
    destruct (Get_element _ l' it p data Hinv' Hpos') as (sit' & _ & Hget & _);
      rewrite ?Hw; try assumption; try (change (Z.to_nat 1) with 1; lia).
    { change (Z.to_nat 1) with 1. rewrite Hchars, length_insert. lia. }
    rewrite Hget. cbn [fst]. rewrite Hw. change (Z.to_nat 1) with 1.
    assert (Hbyte : take 1 (drop p (chain_chars l')) = [c]).
    { rewrite Hchars.
      rewrite (drop_lookup_cons _ _ c) by (apply list_lookup_insert_eq; lia).
      reflexivity. }
    rewrite Hbyte. unfold element_of_bytes. rewrite Hw.
    pose proof (uchar_range c) as Hc.
    assert (Hv : int_of_bytes (if JSV_ARRAYBUFFER_IS_BIG_ENDIAN (type it) then rev [c] else [c])
                 = uchar c)
      by (destruct (JSV_ARRAYBUFFER_IS_BIG_ENDIAN (type it)); simpl; lia).
    rewrite Hv. change (2 ^ (8 * 1 - 1))%Z with 128%Z. change (2 ^ (8 * 1))%Z with 256%Z.
    apply to_int32_small.
    destruct (JSV_ARRAYBUFFER_IS_SIGNED (type it) && (128 <=? uchar c)%Z); lia.
Qed.

Lemma jsvArrayBufferIteratorSetByteValue_spec_witness :
  let h := mkHeap [mkCell ["a"; "b"; "c"; "d"]%byte 4 0] 1 in
  let it := mkArrayBufferIterator (mkStringIterator 2 4 0 1 1) 17 4 2 2 false in
  exists l',
    is_chain (jsvArrayBufferIteratorSetByteValue h it xff) 1 l' /\
    chain_chars l' = ["a"; "b"; xff; "d"]%byte /\
    (jsvArrayBufferIteratorGetIntegerValue (jsvArrayBufferIteratorSetByteValue h it xff)
       it (replicate 8 x00)).1 = (-1)%Z.
Proof.
  intros h it.
  destruct (jsvArrayBufferIteratorSetByteValue_spec h 1
              [(1, mkCell ["a"; "b"; "c"; "d"]%byte 4 0)] it 2 xff (replicate 8 x00))
    as [_ H].
  - simpl. auto.
  - split; [apply Forall_singleton | intros H]; simpl in *; lia.
  - left. exists [], [(1, mkCell ["a"; "b"; "c"; "d"]%byte 4 0)].
    split_and!; simpl; auto. split_and!; simpl; auto.
  - simpl. lia.
  - reflexivity.
  - destruct H as (l' & Hch & _ & Hchars & Hget); [reflexivity | reflexivity |].
    exists l'. split_and!; auto.
Defined.

(** ** Writing a run of elements and reading it back *)

Lemma length_element_bytes b w v : length (element_bytes b w v) = w.
Proof.
  unfold element_bytes. destruct b; rewrite ?length_rev; apply length_bytes_of_int.
Qed.

Lemma take_drop_take {A} (l : list A) p w : take w (drop p l) = drop p (take (p + w) l).
Proof.
  revert l. induction p as [|p IH]; intros l; [now rewrite !drop_0|].
  destruct l as [|x l]; [now rewrite take_nil, !drop_nil, take_nil|]. simpl. apply IH.
Qed.

Lemma take_prefix {A} (l l' : list A) p q :
  p <= q -> take q l' = take q l -> take p l' = take p l.
Proof.
  intros Hpq H. rewrite <- (Nat.min_l p q) by lia.
  now rewrite <- !take_take, H.
Qed.

Section ViewRun.

Context (str : JsVarRef) (tag : Z).
Context (Hw : 1 <= Z.to_nat (JSV_ARRAYBUFFER_GET_SIZE tag) <= 4).
Context (Hfloat : JSV_ARRAYBUFFER_IS_FLOAT tag = false).

Lemma SetValues_run data values : forall h l it p,
  let w := Z.to_nat (JSV_ARRAYBUFFER_GET_SIZE tag) in
  is_chain h str l -> chain_inv l -> view_cursor h l it tag p ->
  p + length values * w <= length (chain_chars l) ->
  exists h' l' it',
    jsvArrayBufferIteratorSetValues h it values data = (h', it') /\
    is_chain h' str l' /\ chain_inv l' /\ chain_shape l' = chain_shape l /\
    view_cursor h' l' it' tag (p + length values * w) /\
    take p (chain_chars l') = take p (chain_chars l) /\
    view_elements tag (drop p (chain_chars l')) (length values)
    = map (fun v => element_value tag (jsvGetInteger v)) values.
Proof.
  induction values as [|v values IH]; intros h l it p w Hch Hinv Hview Hlen;
    pose proof Hview as (Htype & Hflag & Hpos); unfold jsvArrayBufferIteratorSetValues.
  - exists h, l, it. cbn [write_elements length Nat.mul]. rewrite Nat.add_0_r.
    now split_and!.
  - cbn [length] in Hlen. cbn [write_elements].
    destruct (Set_element h str l it p data Hch Hinv Hpos) as [Hset _];
      rewrite ?Htype; try assumption; try (fold w; lia).
    destruct (Hset v) as (h1 & sit' & Hrun & l1 & Hch1 & Hinv1 & Hshape1 & Hpos1 & _ & Hchars1).
    rewrite Htype in Hrun, Hpos1, Hchars1. fold w in Hrun, Hpos1, Hchars1.
    rewrite Hflag in Hrun. rewrite Hrun.
    pose proof (Next_after_access h1 l1 sit' tag (byteLength it) (byteOffset it) (index it)
                  false p Hinv1) as Hnext.
    fold w in Hnext.
    assert (Hlen1 : length (chain_chars l1) = length (chain_chars l))
      by (now apply length_chars_shape).
    specialize (Hnext ltac:(lia) ltac:(lia) Hpos1).
    destruct (IH h1 l1 _ (p + w) Hch1 Hinv1 Hnext)
      as (h' & l' & it' & Hrun' & Hch' & Hinv' & Hshape' & Hview' & Hpre & Helems);
      [fold w; lia|].
    fold w in Hview', Helems. unfold jsvArrayBufferIteratorSetValues in Hrun'.
    exists h', l', it'. split_and!; auto.
    + congruence.
    + cbn [length]. now replace (p + S (length values) * w) with (p + w + length values * w) by lia.
    + rewrite (take_prefix (chain_chars l1) (chain_chars l') p (p + w)) by (auto; lia).
      rewrite Hchars1. apply take_app_length'. rewrite length_take. lia.
    + cbn [length view_elements map]. fold w. rewrite drop_drop, Helems. f_equal.
      rewrite take_drop_take, Hpre, <- take_drop_take, Hchars1.
      rewrite drop_app_length' by (rewrite length_take; lia).
      rewrite take_app_length' by (now rewrite length_element_bytes).
      unfold w. apply element_of_bytes_bytes.
Qed.

Lemma GetValues_run data k : forall h l it p,
  let w := Z.to_nat (JSV_ARRAYBUFFER_GET_SIZE tag) in
  chain_inv l -> view_cursor h l it tag p ->
  p + k * w <= length (chain_chars l) -> length data = 8 ->
  jsvArrayBufferIteratorGetIntegerValues h it k data
  = map to_int32 (view_elements tag (drop p (chain_chars l)) k) /\
  jsvArrayBufferIteratorGetValues h it k data
  = map (element_var tag) (view_elements tag (drop p (chain_chars l)) k).
Proof.
  induction k as [|k IH]; intros h l it p w Hinv Hview Hlen Hdata;
    pose proof Hview as (Htype & Hflag & Hpos); [split; reflexivity|].
  unfold jsvArrayBufferIteratorGetIntegerValues, jsvArrayBufferIteratorGetValues in *.
  destruct (Get_element h l it p data Hinv Hpos) as (sit' & Hpos' & Hint & Hval);
    rewrite ?Htype; try assumption; try (fold w; lia).
  rewrite Htype in Hint, Hval, Hpos'. fold w in Hint, Hval, Hpos'.
  rewrite Hflag in Hint, Hval.
  pose proof (Next_after_access h l sit' tag (byteLength it) (byteOffset it) (index it)
                false p Hinv) as Hnext.
  fold w in Hnext. specialize (Hnext ltac:(lia) ltac:(lia) Hpos').
  destruct (IH h l _ (p + w) Hinv Hnext) as [IHint IHval]; [fold w; lia | exact Hdata |].
  fold w in IHint, IHval.
  cbn [read_elements view_elements map]. fold w. rewrite drop_drop, Hint, Hval.
  rewrite IHint, IHval. split; reflexivity.
Qed.

End ViewRun.

Section ViewRoundTrip.

Context {machine : Machine}.

(** X13.  On a typed view of integers of 1 to 4 bytes that lies within its
    backing string, writing a value into every element with
    [jsvArrayBufferIteratorSetValue] and [jsvArrayBufferIteratorNext], from
    a cursor made at index 0, and reading the elements back from a new
    cursor yields for each element the integer written (saturated first on
    a clamped view), truncated to the width of the element and
    sign-extended on a signed view: as a 32-bit integer with
    [jsvArrayBufferIteratorGetIntegerValue], as a number value with
    [jsvArrayBufferIteratorGetValue]. *)
Theorem jsvArrayBufferIterator_write_read h fuel tag len off backing l values data data' :
  let w := Z.to_nat (JSV_ARRAYBUFFER_GET_SIZE tag) in
  let view := JsArrayBuffer tag len off backing in
  let written := map (fun v => element_value tag (jsvGetInteger v)) values in
  is_chain h backing l -> chain_inv l ->
  1 <= w <= 4 -> JSV_ARRAYBUFFER_IS_FLOAT tag = false ->
  (0 <= off)%Z -> (0 < len)%Z -> len = Z.of_nat (length values) ->
  (off + len * Z.of_nat w < 2 ^ 32)%Z ->
  Z.to_nat (off + len * Z.of_nat w) <= length (chain_chars l) ->
  length data' = 8 -> length l <= fuel ->
  exists it h' it' it2,
    jsvArrayBufferIteratorNew fuel h uninitialised_it view 0 = Some it /\
    jsvArrayBufferIteratorSetValues h it values data = (h', it') /\
    jsvArrayBufferIteratorNew fuel h' uninitialised_it view 0 = Some it2 /\
    jsvArrayBufferIteratorGetIntegerValues h' it2 (length values) data'
    = map to_int32 written /\
    jsvArrayBufferIteratorGetValues h' it2 (length values) data'
    = map (element_var tag) written.
Proof.
  intros w view written Hch Hinv Hw Hfloat Hoff Hlen Hvalues Hmax Hin Hdata' Hfuel.
  assert (Hwz : Z.of_nat w = JSV_ARRAYBUFFER_GET_SIZE tag) by (unfold w in *; lia).
  rewrite Hwz in Hmax, Hin.
  assert (Hk : Z.to_nat off + length values * w
               = Z.to_nat (off + len * JSV_ARRAYBUFFER_GET_SIZE tag)).
  { rewrite <- Hwz, Hvalues. rewrite Z2Nat.inj_add, Z2Nat.inj_mul, !Nat2Z.id by lia.
    reflexivity. }
  destruct (New_view fuel h uninitialised_it tag len off backing 0 l Hch Hinv Hfuel)
    as (sit & Hnew & Hpos); try lia.
  rewrite Z.mul_0_l, Z.add_0_r in Hpos, Hnew.
  set (it1 := mkArrayBufferIterator sit tag (off + len * JSV_ARRAYBUFFER_GET_SIZE tag)
                off 0 false) in *.
  assert (Hview : view_cursor h l it1 tag (Z.to_nat off)) by (now split_and!).
  destruct (SetValues_run backing tag Hw Hfloat data values h l it1 (Z.to_nat off) Hch Hinv
              Hview)
    as (h' & l' & it' & Hrun & Hch' & Hinv' & Hshape' & _ & _ & Helems); [fold w; lia|].
  assert (Hlen' : length (chain_chars l') = length (chain_chars l))
    by (now apply length_chars_shape).
  assert (Hl' : length l' = length l).
  { apply (f_equal length) in Hshape'. unfold chain_shape in Hshape'.
    now rewrite !length_map in Hshape'. }
  destruct (New_view fuel h' uninitialised_it tag len off backing 0 l' Hch' Hinv')
    as (sit2 & Hnew2 & Hpos2); try lia.
  rewrite Z.mul_0_l, Z.add_0_r in Hpos2, Hnew2.
  set (it2 := mkArrayBufferIterator sit2 tag (off + len * JSV_ARRAYBUFFER_GET_SIZE tag)
                off 0 false) in *.
  assert (Hview2 : view_cursor h' l' it2 tag (Z.to_nat off)) by (now split_and!).
  destruct (GetValues_run tag Hw Hfloat data' (length values) h' l' it2 (Z.to_nat off) Hinv'
              Hview2) as [Hint Hval];
    [fold w; lia | exact Hdata' |].
  rewrite Helems in Hint, Hval.
  eexists _, h', it', _. split_and!; eauto.
Qed.

End ViewRoundTrip.

Lemma jsvArrayBufferIterator_write_read_witness :
  let h := mkHeap [mkCell ["a"; "b"; "c"; "d"]%byte 4 0] 1 in
  let view := JsArrayBuffer 18 2 0 1 in
  let it0 := mkArrayBufferIterator (mkStringIterator 0 0 0 0 0) 0 0 0 0 false in
  exists it h' it' it2,
    jsvArrayBufferIteratorNew 1 h it0 view 0 = Some it /\
    jsvArrayBufferIteratorSetValues h it [JsInt 70000; JsInt (-3)] (replicate 8 x00)
    = (h', it') /\
    jsvArrayBufferIteratorNew 1 h' it0 view 0 = Some it2 /\
    jsvArrayBufferIteratorGetIntegerValues h' it2 2 (replicate 8 x00) = [4464; -3]%Z.
Proof.
  intros h view it0.
  destruct (jsvArrayBufferIterator_write_read (machine := example_machine) h 1 18 2 0 1
              [(1, mkCell ["a"; "b"; "c"; "d"]%byte 4 0)] [JsInt 70000; JsInt (-3)]
              (replicate 8 x00) (replicate 8 x00))
    as (it & h' & it' & it2 & Hnew & Hset & Hnew2 & Hint & _).
  - simpl. auto.
  - split; [apply Forall_singleton | intros H]; simpl in *; lia.
  - vm_compute. lia.
  - reflexivity.
  - lia.
  - lia.
  - reflexivity.
  - vm_compute. reflexivity.
  - vm_compute. lia.
  - reflexivity.
  - simpl. lia.
  - exists it, h', it', it2. split_and!; auto.
Defined.

(** ** The unified cursor over the children of a container *)

Section ChildrenCursor.

Context {machine : Machine}.

Lemma jsvIterator_object_run h children : forall fuel,
  length children <= fuel ->
  jsvIteratorValues fuel h (JSVI_OBJECT children)
  = Some (map (fun name => jsvSkipName (Some name)) children) /\
  jsvIteratorIntegers fuel h (JSVI_OBJECT children)
  = Some (map (fun name => jsvGetInteger (jsvSkipName (Some name))) children).
Proof.
  induction children as [|name rest IH]; intros fuel Hfuel.
  - destruct fuel; split; reflexivity.
  - destruct fuel as [|fuel]; [simpl in Hfuel; lia|].
    destruct (IH fuel ltac:(simpl in Hfuel; lia)) as [IHval IHint].
    cbn [jsvIteratorValues jsvIteratorIntegers jsvIteratorHasElement
         jsvObjectIteratorHasValue jsvIteratorGetValue jsvIteratorGetIntegerValue
         jsvIteratorNext jsvObjectIteratorNext jsvObjectIteratorGetValue head map].
    rewrite IHval. split; [reflexivity|].
    destruct name as [key value|key value];
      cbn [jsvIsNameInt jsvGetFirstChildSigned jsvIteratorNext jsvObjectIteratorNext
           jsvObjectIteratorGetValue head];
      now rewrite IHint.
Qed.

(** X16.  A unified cursor made without the every-element flag over an
    array, or made over an object or a function, runs over the children
    that are stored, in sibling order, and over nothing else: the holes of
    a sparse array are skipped.  [jsvIteratorGetIntegerValue], which reads
    an integer packed into a name directly, agrees with the integer value
    of what [jsvIteratorGetValue] returns. *)
Theorem jsvIterator_children h obj fuel flag :
  (jsvIsArray obj = true /\ flag = false) \/ jsvIsObject obj = true
    \/ jsvIsFunction obj = true ->
  length (jsvGetFirstChild obj) <= fuel ->
  jsvIteratorNew fuel h obj flag = Some (JSVI_OBJECT (jsvGetFirstChild obj)) /\
  jsvIteratorValues fuel h (JSVI_OBJECT (jsvGetFirstChild obj))
  = Some (map (fun name => jsvSkipName (Some name)) (jsvGetFirstChild obj)) /\
  jsvIteratorIntegers fuel h (JSVI_OBJECT (jsvGetFirstChild obj))
  = Some (map (fun name => jsvGetInteger (jsvSkipName (Some name))) (jsvGetFirstChild obj)).
Proof.
  intros Hkind Hfuel. split; [|now apply jsvIterator_object_run].
  unfold jsvIteratorNew, jsvObjectIteratorNew.
  destruct Hkind as [[Harr ->] | [Hobj | Hfun]].
  - rewrite Harr. reflexivity.
  - destruct obj; try discriminate. reflexivity.
  - destruct obj; try discriminate. reflexivity.
Qed.

End ChildrenCursor.

Lemma jsvIterator_children_witness :
  jsvIteratorValues (machine := example_machine) 2 (mkHeap [] 0)
    (JSVI_OBJECT [JsNameInt 0 10; JsName (KeyInt 3) (JsInt 30)])
  = Some [JsInt 10; JsInt 30].
Proof.
  destruct (jsvIterator_children (machine := example_machine) (mkHeap [] 0)
              (JsArray 5 [JsNameInt 0 10; JsName (KeyInt 3) (JsInt 30)]) 2 false)
    as (_ & H & _).
  - left. split; reflexivity.
  - simpl. lia.
  - exact H.
Defined.
